(** * Nublado coordination engine: a shallow embedding and its properties

    The development follows the JavaScript sources

    - [src/agents/orchestrator_controller.js]  (class OrchestratorController),
    - [src/orchestrator/master-orchestrator.js] (class MasterOrchestrator),
    - [src/agents/base_agent.js]               (class BaseAgent).

    Conventions of the embedding:

    - a JS object literal used as a dictionary is the [gmap string _] of
      its own properties; a lookup [o[k]] that finds no own property goes
      on to [Object.prototype], whose member names are listed in
      [objectPrototypeNames]; a JS [Set] of strings is a [gset string], a
      JS array is a [list];
    - an optional property ([undefined] when absent) is an [option];
    - counters and lengths are [nat], integers that the code only
      compares are [Z]; a number the code obtains by arithmetic on its
      inputs is an IEEE 754 binary64 value (module [Double]);
    - what the JavaScript runtime decides and the sources do not (the case
      table of [toLowerCase], the order in which [sort] leaves an array
      whose comparator is not consistent, whether a worker can be
      started) is a parameter of the definitions that depend on it;
    - a function that may throw returns a [completion];
    - a loop whose termination is not structural takes fuel and returns
      [None] when the fuel runs out; the fuel handed to it by the embedded
      method is proved sufficient. *)

From Stdlib Require Import ZArith QArith Qfield SpecFloat.
From stdpp Require Import gmap strings list sorting relations pretty.

Close Scope Q_scope.
Open Scope Z_scope.
Open Scope nat_scope.
Open Scope string_scope.
Open Scope list_scope.

(** ** JavaScript values shared by the three classes *)

(** The outcome of running a JS function body: a value, or a thrown
    [Error] with its message. *)
Inductive completion (A : Type) : Type :=
| Normal (value : A)
| Throw (message : string).
Arguments Normal {A} value.
Arguments Throw {A} message.

(** A number that may be [-Infinity] ([Math.max()] of no argument). *)
Inductive extnum : Type :=
| NegInfinity
| Num (n : Z).

(** One line handed to [this.log(message, level)]. *)
Record logEntry : Type := LogEntry { level : string; message : string }.

(** [Math.max(...xs)]. *)
Definition mathMax (xs : list Z) : extnum :=
  foldl (fun acc x => match acc with
                      | NegInfinity => Num x
                      | Num m => Num (Z.max m x)
                      end) NegInfinity xs.

(** [a.slice(i, j)] for indices within [0 .. ] (no negative index). *)
Definition slice {A : Type} (i j : nat) (a : list A) : list A :=
  take (j - i) (drop i a).

(** [s.includes(sub)] on strings. *)
Fixpoint includes (s sub : string) : bool :=
  String.prefix sub s ||
  match s with
  | EmptyString => false
  | String _ s' => includes s' sub
  end.

(** The names of the members of [Object.prototype]: what a lookup on an
    object literal finds when the object has no own property of that
    name. Each of them is a function, except [__proto__], which yields
    the prototype itself: all are truthy, none is an array or a number. *)
Definition objectPrototypeNames : list string :=
  ["constructor"; "__defineGetter__"; "__defineSetter__"; "hasOwnProperty";
   "__lookupGetter__"; "__lookupSetter__"; "isPrototypeOf"; "propertyIsEnumerable";
   "toString"; "valueOf"; "__proto__"; "toLocaleString"].

(** What [o[k]] yields on an object literal with the own properties [o]. *)
Inductive property (A : Type) : Type :=
| Own (value : A)
| Inherited          (* a member of [Object.prototype] *)
| Undefined.
Arguments Own {A} value.
Arguments Inherited {A}.
Arguments Undefined {A}.

Definition getProperty {A : Type} (o : gmap string A) (k : string) : property A :=
  match o !! k with
  | Some v => Own v
  | None => if bool_decide (k ∈ objectPrototypeNames) then Inherited else Undefined
  end.

(** JavaScript numbers: IEEE 754 binary64, rounding to nearest, ties to
    even. *)
Module Double.

Definition t : Type := spec_float.

Definition zero : t := S754_zero false.

(** The number an integer literal or an integer-valued property denotes. *)
Definition ofZ (z : Z) : t := binary_normalize 53 1024 z 0 false.

Definition add (x y : t) : t := SFadd 53 1024 x y.
Definition sub (x y : t) : t := SFsub 53 1024 x y.
Definition mul (x y : t) : t := SFmul 53 1024 x y.
Definition div (x y : t) : t := SFdiv 53 1024 x y.

(** [x < y] and [x <= y]: false when an operand is [NaN]. *)
Definition ltb (x y : t) : bool := SFltb x y.
Definition leb (x y : t) : bool := SFleb x y.

(** [(avg * (n - 1) + time) / n], the update of a running mean that the
    three classes share; [n] is the count after its increment. *)
Definition meanUpdate (avg : t) (n : nat) (time : Z) : t :=
  div (add (mul avg (sub (ofZ (Z.of_nat n)) (ofZ 1))) (ofZ time)) (ofZ (Z.of_nat n)).


End Double.

(** ** OrchestratorController.buildExecutionPlan *)

Module Planner.

(** The two properties of a task that the planner reads. [id] is absent
    until [executeTask] assigns one. *)
Record task : Type := Task { id : option string; name : string }.

#[global] Instance task_eq_dec : EqDecision task.
Proof. solve_decision. Defined.

(** [task.id || task.name]: the empty string is falsy. *)
Definition taskKey (t : task) : string :=
  match id t with
  | Some s => if decide (s = "") then name t else s
  | None => name t
  end.

(** [dependencies[taskId] || []]: an array, or [None] for a member of
    [Object.prototype], which is truthy and has no method [every]. *)
Definition depsOf (dependencies : gmap string (list string)) (k : string)
    : option (list string) :=
  match getProperty dependencies k with
  | Own deps => Some deps
  | Inherited => None
  | Undefined => Some []
  end.

(** [priority[key] || 0]: a number, or [None] for a member of
    [Object.prototype], which is truthy and, in a subtraction, [NaN]. *)
Definition priorityOf (priority : gmap string Z) (k : string) : option Z :=
  match getProperty priority k with
  | Own p => Some p
  | Inherited => None
  | Undefined => Some 0%Z
  end.

Definition notAFunction : string := "deps.every is not a function".

(** Body of [for (const task of tasks)]: the state is the phase under
    construction and the [inProgress] set. Calling [deps.every] on a
    value that is no array throws a [TypeError]. *)
Definition scanStep (dependencies : gmap string (list string)) (completed : gset string)
    (st : list task * gset string) (t : task) : completion (list task * gset string) :=
  let taskId := taskKey t in
  if bool_decide (taskId ∈ completed) || bool_decide (taskId ∈ st.2) then Normal st
  else match depsOf dependencies taskId with
       | None => Throw notAFunction
       | Some deps =>
           if forallb (fun d => bool_decide (d ∈ completed)) deps
           then Normal (st.1 ++ [t], {[taskId]} ∪ st.2)
           else Normal st
       end.

Fixpoint scanFrom (dependencies : gmap string (list string)) (completed : gset string)
    (st : list task * gset string) (tasks : list task)
    : completion (list task * gset string) :=
  match tasks with
  | [] => Normal st
  | t :: rest =>
      match scanStep dependencies completed st t with
      | Normal st' => scanFrom dependencies completed st' rest
      | Throw msg => Throw msg
      end
  end.

Definition scan (tasks : list task) (dependencies : gmap string (list string))
    (completed inProgress : gset string) : completion (list task * gset string) :=
  scanFrom dependencies completed ([], inProgress) tasks.

(** The comparator handed to [phase.sort]: a difference of two numbers,
    [NaN] (here [None]) when an operand is no number. *)
Definition compareFn (priority : gmap string Z) (a b : task) : option Z :=
  match priorityOf priority (taskKey b), priorityOf priority (taskKey a) with
  | Some pb, Some pa => Some (pb - pa)%Z
  | _, _ => None
  end.

(** [SortCompare] of ECMAScript: a comparator's [NaN] counts as [+0]. *)
Definition sortCompare (comparefn : task -> task -> option Z) (x y : task) : Z :=
  default 0%Z (comparefn x y).

(** A consistent comparator for the elements of [l]: equality is
    reflexive, symmetric and transitive, and the two strict orders are
    transitive. ECMAScript states these conditions on the values of the
    comparator; a sort reads the comparator through [SortCompare] only,
    where [NaN] is [+0], and so cannot tell a comparator whose
    [SortCompare] values meet the conditions from a consistent one: the
    conditions are taken on those values. *)
Definition consistentOn (c : task -> task -> Z) (l : list task) : bool :=
  forallb (fun x =>
    (c x x =? 0)%Z &&
    forallb (fun y =>
      implb (c x y =? 0)%Z (c y x =? 0)%Z &&
      forallb (fun z =>
        implb ((c x y =? 0)%Z && (c y z =? 0)%Z) (c x z =? 0)%Z &&
        implb ((c x y <? 0)%Z && (c y z <? 0)%Z) (c x z <? 0)%Z &&
        implb ((0 <? c x y)%Z && (0 <? c y z)%Z) (0 <? c x z)%Z) l) l) l.

(** The stable arrangement for a consistent comparator, computed by
    insertion from the right. *)
Fixpoint insertSorted (c : task -> task -> Z) (x : task) (l : list task) : list task :=
  match l with
  | [] => [x]
  | y :: l' => if (c x y <=? 0)%Z then x :: y :: l' else y :: insertSorted c x l'
  end.

Section Engine.

(** [Array.prototype.sort] is stable when the comparator is consistent
    for the elements of the array; when it is not, the order is left to
    the engine: [engineOrder comparefn l] is what the engine makes of [l]
    then. *)
Variable engineOrder : (task -> task -> option Z) -> list task -> list task.

Definition sortBy (comparefn : task -> task -> option Z) (l : list task) : list task :=
  if consistentOn (sortCompare comparefn) l
  then foldr (insertSorted (sortCompare comparefn)) [] l
  else engineOrder comparefn l.

(** [phase.forEach(t => { inProgress.delete(key t); completed.add(key t) })]. *)
Definition commitPhase (phase : list task) (st : gset string * gset string)
    : gset string * gset string :=
  foldl (fun s t => ({[taskKey t]} ∪ s.1, s.2 ∖ {[taskKey t]})) st phase.

Definition cycleWarning : logEntry :=
  LogEntry "warning" "Circular dependency detected or unresolvable dependencies".

(** The [while (completed.size < tasks.length)] loop. The result is the
    list of phases and what was logged, or the error of a scan. *)
Fixpoint planLoop (fuel : nat) (tasks : list task)
    (dependencies : gmap string (list string)) (priority : gmap string Z)
    (completed inProgress : gset string) (phases : list (list task))
    : option (completion (list (list task) * list logEntry)) :=
  if decide (size completed < length tasks) then
    match fuel with
    | O => None
    | S fuel' =>
        match scan tasks dependencies completed inProgress with
        | Throw msg => Some (Throw msg)
        | Normal (phase, inProgress1) =>
            if bool_decide (length phase = 0) && bool_decide (size completed < length tasks)
            then Some (Normal (phases, [cycleWarning]))
            else
              let sorted := sortBy (compareFn priority) phase in
              let '(completed2, inProgress2) := commitPhase sorted (completed, inProgress1) in
              planLoop fuel' tasks dependencies priority completed2 inProgress2
                       (phases ++ [sorted])
        end
    end
  else Some (Normal (phases, [])).

Record plan : Type := Plan {
  phases : list (list task);
  estimatedTime : Z;
  requiredAgents : extnum
}.

Definition finishPlan (ps : list (list task)) : plan :=
  {| phases := ps;
     estimatedTime := foldl (fun acc _ => (acc + 1000)%Z) 0%Z ps;
     requiredAgents := mathMax (map (fun p => Z.of_nat (length p)) ps) |}.

Definition buildExecutionPlanFuel (fuel : nat) (tasks : list task)
    (dependencies : gmap string (list string)) (priority : gmap string Z)
    : option (completion (plan * list logEntry)) :=
  match planLoop fuel tasks dependencies priority ∅ ∅ [] with
  | None => None
  | Some (Throw msg) => Some (Throw msg)
  | Some (Normal (ps, logged)) => Some (Normal (finishPlan ps, logged))
  end.

(** Every pass of the loop that does not leave it adds a key to
    [completed], so [length tasks] passes are enough. *)
Definition buildExecutionPlan (tasks : list task)
    (dependencies : gmap string (list string)) (priority : gmap string Z)
    : option (completion (plan * list logEntry)) :=
  buildExecutionPlanFuel (length tasks) tasks dependencies priority.

(** [coordinateAgents({tasks, dependencies, priority})]; absent
    [dependencies] and [priority] take the defaults [{}]. *)
Definition coordinateAgents (tasks : list task)
    (dependencies : option (gmap string (list string))) (priority : option (gmap string Z))
    : option (completion (plan * list logEntry)) :=
  buildExecutionPlan tasks (default ∅ dependencies) (default ∅ priority).

End Engine.

(** Vocabulary of the statements. *)

Definition keys (l : list task) : list string := taskKey <$> l.

(** The dependency set of a task: the entry of its key in the
    dependency map, empty when there is none. *)
Definition dependencySet (dependencies : gmap string (list string)) (k : string)
    : list string :=
  default [] (dependencies !! k).

(** The priority of a task: the entry of its key in the priority map, 0
    when there is none. *)
Definition priorityValue (priority : gmap string Z) (k : string) : Z :=
  default 0%Z (priority !! k).

(** No lookup of a task's key in [o] ends on [Object.prototype]: the key
    is an own property of [o] or names no member of the prototype. *)
Definition ownKeys {A : Type} (o : gmap string A) (tasks : list task) : Prop :=
  ∀ t, t ∈ tasks → getProperty o (taskKey t) ≠ Inherited.

(** What every engine does, whatever the comparator: it rearranges the
    array. *)
Definition rearranges
    (engineOrder : (task -> task -> option Z) -> list task -> list task) : Prop :=
  ∀ comparefn l, engineOrder comparefn l ≡ₚ l.

(** [x] is a task of the list and names [y] as a dependency. *)
Definition depEdge (tasks : list task) (dependencies : gmap string (list string))
    (x y : string) : Prop :=
  x ∈ keys tasks ∧ y ∈ dependencySet dependencies x.

Definition acyclic (tasks : list task) (dependencies : gmap string (list string)) : Prop :=
  ∀ x, ¬ tc (depEdge tasks dependencies) x x.

(** Every dependency of a task of the list is itself a task of the list. *)
Definition resolvable (tasks : list task) (dependencies : gmap string (list string)) : Prop :=
  ∀ x d, x ∈ keys tasks → d ∈ dependencySet dependencies x → d ∈ keys tasks.

(** A task that can never be scheduled: it lies on a cycle, or it names
    a dependency that is not a task. *)
Definition stuck (tasks : list task) (dependencies : gmap string (list string))
    (x : string) : Prop :=
  tc (depEdge tasks dependencies) x x ∨
  (x ∈ keys tasks ∧ ∃ d, d ∈ dependencySet dependencies x ∧ d ∉ keys tasks).

(** A task that can be scheduled: its dependencies are tasks of the
    list that can be scheduled. *)
Inductive schedulable (tasks : list task) (dependencies : gmap string (list string))
    : string → Prop :=
| schedulable_task x :
    x ∈ keys tasks →
    (∀ d, d ∈ dependencySet dependencies x → schedulable tasks dependencies d) →
    schedulable tasks dependencies x.

(** Plan construction raised an error. *)
Definition raises {A : Type} (r : option (completion A)) : Prop :=
  ∃ msg, r = Some (Throw msg).

(** Descending priority. *)
Definition prioGe (priority : gmap string Z) (a b : task) : Prop :=
  (priorityValue priority (taskKey b) <= priorityValue priority (taskKey a))%Z.

(** The tasks of [l] whose priority is [v], in the order of [l]. *)
Definition withPriority (priority : gmap string Z) (v : Z) (l : list task) : list task :=
  filter (fun t => priorityValue priority (taskKey t) = v) l.

(** The invariant of the [while] loop at its head, where [inProgress]
    is empty. *)
Record planInv (tasks : list task) (dependencies : gmap string (list string))
    (completed : gset string) (ps : list (list task)) : Prop := {
  inv_completed : completed = list_to_set (keys (concat ps));
  inv_nodup : NoDup (keys (concat ps));
  inv_tasks : ∀ t, t ∈ concat ps → t ∈ tasks;
  inv_deps : ∀ i p t d, ps !! i = Some p → t ∈ p →
      d ∈ dependencySet dependencies (taskKey t) → d ∈ keys (concat (take i ps));
  inv_phase : Forall (λ p, p ≠ []) ps
}.
Arguments inv_completed {_ _ _ _} _.
Arguments inv_nodup {_ _ _ _} _.
Arguments inv_tasks {_ _ _ _} _.
Arguments inv_deps {_ _ _ _} _.
Arguments inv_phase {_ _ _ _} _.

(** How the loop was left: its condition became false, or a scan found
    no task and the warning was logged. *)
Definition loopExit (tasks : list task) (dependencies : gmap string (list string))
    (completed : gset string) (logged : list logEntry) : Prop :=
  ((length tasks ≤ size completed)%nat ∧ logged = []) ∨
  ((size completed < length tasks)%nat ∧
   (∃ ip, scan tasks dependencies completed ∅ = Normal ([], ip)) ∧
   logged = [cycleWarning]).

End Planner.

(** ** OrchestratorController: registry, selector and dispatcher *)

Module Controller.

Inductive agentStatus : Type := idle | busy.
Inductive taskStatus : Type := pending | executing | completed | failed.

#[global] Instance agentStatus_eq_dec : EqDecision agentStatus.
Proof. solve_decision. Defined.

Record performance : Type := Performance {
  tasksCompleted : nat;
  avgExecutionTime : Double.t;
  successRate : Z
}.

Module Agent.
Record t : Type := Make {
  id : string;
  name : string;
  type : string;
  capabilities : list string;
  status : agentStatus;
  tasks : list string;
  perf : performance
}.
End Agent.

(** The value a payload resolves to. *)
Record payloadResult : Type := PayloadResult {
  success : bool;
  agent : string;
  message : string
}.

Module Task.
Record t : Type := Make {
  id : option string;
  name : string;
  requiredCapabilities : option (list string);
  status : option taskStatus;
  executionTime : option Z;
  result : option payloadResult;
  error : option string
}.
End Task.

(** The argument of [createDynamicAgent]. *)
Record agentConfig : Type := AgentConfig {
  cfgName : option string;
  cfgType : option string;
  cfgCapabilities : option (list string)
}.

(** The two lines [executeTask] writes to the log for a task: "Executing
    task: <id>" when it starts it, and "Task <id> completed" or "Task <id>
    failed" when its payload has settled. *)
Inductive event : Type :=
| Start (taskId : string)
| Settle (taskId : string).

(** [this.agents] is a [Map]: its values in insertion order. [journal]
    is what [executeTask] has written to the log, oldest line first. *)
Record state : Type := State {
  agents : list Agent.t;
  taskIdCounter : nat;
  agentIdCounter : nat;
  max_parallel_tasks : nat;
  journal : list event
}.

(** [s || d] on an optional string. *)
Definition orString (s : option string) (d : string) : string :=
  match s with
  | Some v => if decide (v = "") then d else v
  | None => d
  end.

(** [this.agents.set(agent.id, agent)]. *)
Fixpoint mapSet (a : Agent.t) (l : list Agent.t) : list Agent.t :=
  match l with
  | [] => [a]
  | b :: l' => if decide (Agent.id b = Agent.id a) then a :: l' else b :: mapSet a l'
  end.

Definition createDynamicAgent (config : agentConfig) (st : state) : Agent.t * state :=
  let agentId := "agent_" +:+ pretty (agentIdCounter st) in
  let created :=
    {| Agent.id := agentId;
       Agent.name := orString (cfgName config) agentId;
       Agent.type := orString (cfgType config) "worker";
       Agent.capabilities := default [] (cfgCapabilities config);
       Agent.status := idle;
       Agent.tasks := [];
       Agent.perf := {| tasksCompleted := 0; avgExecutionTime := Double.zero;
                        successRate := 100%Z |} |} in
  (created,
   {| agents := mapSet created (agents st);
      taskIdCounter := taskIdCounter st;
      agentIdCounter := S (agentIdCounter st);
      max_parallel_tasks := max_parallel_tasks st;
      journal := journal st |}).

(** The filter of [compatibleAgents]. *)
Definition compatible (task : Task.t) (a : Agent.t) : bool :=
  match Task.requiredCapabilities task with
  | None => true
  | Some caps => forallb (fun cap => bool_decide (cap ∈ Agent.capabilities a)) caps
  end.

Definition isIdle (a : Agent.t) : bool := bool_decide (Agent.status a = idle).

(** The callback of [compatibleAgents.reduce]. *)
Definition faster (best a : Agent.t) : Agent.t :=
  if Double.ltb (avgExecutionTime (Agent.perf a)) (avgExecutionTime (Agent.perf best))
  then a else best.

(** [task.requiredCapabilities || ['general']]: an array, even an empty
    one, is truthy. *)
Definition spawnCapabilities (task : Task.t) : list string :=
  default ["general"] (Task.requiredCapabilities task).

Definition selectBestAgent (task : Task.t) (st : state) : Agent.t * state :=
  let availableAgents := filter (fun a => isIdle a = true) (agents st) in
  if bool_decide (length availableAgents = 0) then
    createDynamicAgent
      {| cfgName := Some ("Worker-" +:+ pretty (agentIdCounter st));
         cfgType := Some "worker";
         cfgCapabilities := Some (spawnCapabilities task) |} st
  else
    let compatibleAgents := filter (fun a => compatible task a = true) availableAgents in
    match compatibleAgents with
    | [] =>
        createDynamicAgent
          {| cfgName := Some ("Specialist-" +:+ pretty (agentIdCounter st));
             cfgType := Some "specialist";
             cfgCapabilities := Some (spawnCapabilities task) |} st
    | first :: rest => (foldl faster first rest, st)
    end.

(** An assignment through a reference to a registered agent. *)
Definition mutateAgent (agentId : string) (f : Agent.t -> Agent.t) (st : state) : state :=
  {| agents := (fun a => if decide (Agent.id a = agentId) then f a else a) <$> agents st;
     taskIdCounter := taskIdCounter st;
     agentIdCounter := agentIdCounter st;
     max_parallel_tasks := max_parallel_tasks st;
     journal := journal st |}.

(** A line of [executeTask] appended to the log. *)
Definition logged (e : event) (st : state) : state :=
  {| agents := agents st;
     taskIdCounter := taskIdCounter st;
     agentIdCounter := agentIdCounter st;
     max_parallel_tasks := max_parallel_tasks st;
     journal := journal st ++ [e] |}.

Definition markBusy (taskId : string) (a : Agent.t) : Agent.t :=
  {| Agent.id := Agent.id a; Agent.name := Agent.name a; Agent.type := Agent.type a;
     Agent.capabilities := Agent.capabilities a;
     Agent.status := busy;
     Agent.tasks := Agent.tasks a ++ [taskId];
     Agent.perf := Agent.perf a |}.

Definition recordCompletion (time : Z) (a : Agent.t) : Agent.t :=
  let n := S (tasksCompleted (Agent.perf a)) in
  {| Agent.id := Agent.id a; Agent.name := Agent.name a; Agent.type := Agent.type a;
     Agent.capabilities := Agent.capabilities a;
     Agent.status := idle;
     Agent.tasks := Agent.tasks a;
     Agent.perf :=
       {| tasksCompleted := n;
          avgExecutionTime := Double.meanUpdate (avgExecutionTime (Agent.perf a)) n time;
          successRate := successRate (Agent.perf a) |} |}.

(** The payload of the source: it always resolves. *)
Definition simulateTaskExecution (task : Task.t) (a : Agent.t) : completion payloadResult :=
  Normal {| success := true;
            agent := Agent.name a;
            message := "Task " +:+ Task.name task +:+ " completed successfully" |}.

(** A started task: the task as [executeTask] left it before its
    [await], and the agent it holds. *)
Record started : Type := Started { startedTask : Task.t; startedAgent : Agent.t }.

(** What [Promise.allSettled] reports for one promise. *)
Inductive settled : Type :=
| fulfilled (value : Task.t)
| rejected (reason : string).

Section Dispatch.

(** The payload executor and the clock are outside the program:
    [execute task agent] is what [await this.simulateTaskExecution(task,
    agent)] yields (a value, or a thrown error), [elapsed task] is
    [Date.now() - startTime] when the task completes. *)
Variable execute : Task.t -> Agent.t -> completion payloadResult.
Variable elapsed : Task.t -> Z.

(** [`${task.id}`] in a line of the log. *)
Definition taskIdOf (task : Task.t) : string := default "undefined" (Task.id task).

(** [executeTask] up to its [await]. *)
Definition startTask (task : Task.t) (st : state) : started * state :=
  let taskId := "task_" +:+ pretty (taskIdCounter st) in
  let task1 :=
    {| Task.id := Some taskId; Task.name := Task.name task;
       Task.requiredCapabilities := Task.requiredCapabilities task;
       Task.status := Some executing;
       Task.executionTime := Task.executionTime task;
       Task.result := Task.result task; Task.error := Task.error task |} in
  let st1 :=
    {| agents := agents st; taskIdCounter := S (taskIdCounter st);
       agentIdCounter := agentIdCounter st; max_parallel_tasks := max_parallel_tasks st;
       journal := journal st ++ [Start taskId] |} in
  let '(bestAgent, st2) := selectBestAgent task1 st1 in
  ({| startedTask := task1; startedAgent := markBusy taskId bestAgent |},
   mutateAgent (Agent.id bestAgent) (markBusy taskId) st2).

(** The task object once its promise has settled: completed, with the
    time and the result, or failed, with the message of the error. *)
Definition settledTask (p : started) : Task.t :=
  let task := startedTask p in
  match execute task (startedAgent p) with
  | Normal r =>
      {| Task.id := Task.id task; Task.name := Task.name task;
         Task.requiredCapabilities := Task.requiredCapabilities task;
         Task.status := Some completed;
         Task.executionTime := Some (elapsed task);
         Task.result := Some r; Task.error := Task.error task |}
  | Throw msg =>
      {| Task.id := Task.id task; Task.name := Task.name task;
         Task.requiredCapabilities := Task.requiredCapabilities task;
         Task.status := Some failed;
         Task.executionTime := Task.executionTime task;
         Task.result := Task.result task; Task.error := Some msg |}
  end.

(** [executeTask] from its [await] on: the promise is fulfilled with the
    task and the agent is idle again, or the error is thrown anew and
    the agent is left busy. Either way a line goes to the log. *)
Definition settleTask (p : started) (st : state) : settled * state :=
  match execute (startedTask p) (startedAgent p) with
  | Normal r =>
      (fulfilled (settledTask p),
       logged (Settle (taskIdOf (startedTask p)))
         (mutateAgent (Agent.id (startedAgent p))
                      (recordCompletion (elapsed (startedTask p))) st))
  | Throw msg => (rejected msg, logged (Settle (taskIdOf (startedTask p))) st)
  end.

(** One task from start to settlement. *)
Definition executeTask (task : Task.t) (st : state) : settled * state :=
  let '(p, st1) := startTask task st in settleTask p st1.

(** [batch.map(task => this.executeTask(task))]: the synchronous parts
    run in array order. *)
Definition startBatch (batch : list Task.t) (st : state) : list started * state :=
  foldl (fun acc task => let '(p, st') := startTask task acc.2 in (acc.1 ++ [p], st'))
        ([], st) batch.

(** [await Promise.allSettled(batchPromises)]: one entry per promise, in
    array order. *)
Definition settleBatch (ps : list started) (st : state) : list settled * state :=
  foldl (fun acc p => let '(r, st') := settleTask p acc.2 in (acc.1 ++ [r], st'))
        ([], st) ps.

(** What [executeParallelTasks] has built so far: [results], and the
    batches it has dispatched (kept for the statements on concurrency). *)
Record dispatch : Type := Dispatch {
  results : list settled;
  batches : list (list Task.t);
  final : state
}.

(** [for (let i = 0; i < tasks.length; i += maxParallel)]. *)
Fixpoint dispatchLoop (fuel : nat) (maxParallel i : nat) (tasks : list Task.t)
    (acc : dispatch) : option dispatch :=
  if decide (i < length tasks) then
    match fuel with
    | O => None
    | S fuel' =>
        let batch := slice i (i + maxParallel) tasks in
        let '(ps, st1) := startBatch batch (final acc) in
        let '(batchResults, st2) := settleBatch ps st1 in
        dispatchLoop fuel' maxParallel (i + maxParallel) tasks
          {| results := results acc ++ batchResults;
             batches := batches acc ++ [batch];
             final := st2 |}
    end
  else Some acc.

(** The index grows by [maxParallel] at each pass: [length tasks] passes
    are enough when it is positive. *)
Definition executeParallelTasks (tasks : list Task.t) (st : state) : option dispatch :=
  dispatchLoop (length tasks) (max_parallel_tasks st) 0 tasks
    {| results := []; batches := []; final := st |}.

(** The result a task gets: what [executeTask] yields for it in the
    registry it started in. *)
Definition outcomeOf (task : Task.t) (r : settled) : Prop :=
  ∃ st0, r = (executeTask task st0).1.

End Dispatch.

(** The ids [executeTask] gives [n] tasks from the counter [c] on. *)
Definition taskIds (c n : nat) : list string :=
  (fun k => "task_" +:+ pretty k) <$> seq c n.

(** The shape of a log in which batches of the given sizes run one after
    the other from the counter [c] on: the tasks of a batch start in
    array order, settle in any order, and the next batch starts once all
    of them have settled ([await Promise.allSettled]). *)
Inductive runsOf : nat -> list nat -> list event -> Prop :=
| runs_nil c : runsOf c [] []
| runs_batch c n order rest tr :
    order ≡ₚ taskIds c n ->
    runsOf (c + n) rest tr ->
    runsOf c (n :: rest) ((Start <$> taskIds c n) ++ (Settle <$> order) ++ tr).

(** Number of tasks started and not yet settled after a run. *)
Definition running (tr : list event) : Z :=
  foldl (fun n e => match e with Start _ => (n + 1)%Z | Settle _ => (n - 1)%Z end) 0%Z tr.

End Controller.

(** ** MasterOrchestrator: selection, retry and conflict policy *)

Module Master.

Inductive agentStatus : Type := idle | working.

#[global] Instance agentStatus_eq_dec : EqDecision agentStatus.
Proof. solve_decision. Defined.

Module Agent.
Record t : Type := Make {
  id : string;
  name : string;
  role : string;
  primary : list string;      (* specialization.primary *)
  priority : Z;               (* protocols.priority, an integer *)
  status : agentStatus
}.
End Agent.

Module Task.
Record t : Type := Make {
  name : string;
  type : option string;
  requiredCapabilities : option (list string);
  retries : option Z;
  excludeAgents : option (list string)
}.
End Task.

Record metrics : Type := Metrics {
  tasksCompleted : nat;
  tasksFailed : nat;
  avgExecutionTime : Double.t
}.

Record state : Type := State {
  agents : list Agent.t;                    (* the Map, in insertion order *)
  taskQueue : list Task.t;
  performanceMetrics : gmap string metrics
}.

Definition capabilityMatches (capabilities : list string) (req : string) : bool :=
  existsb (fun cap => includes cap req || includes req cap) capabilities.

Definition setStatus (agentId : string) (s : agentStatus) (st : state) : state :=
  {| agents :=
       (fun a => if decide (Agent.id a = agentId)
                 then {| Agent.id := Agent.id a; Agent.name := Agent.name a;
                         Agent.role := Agent.role a; Agent.primary := Agent.primary a;
                         Agent.priority := Agent.priority a; Agent.status := s |}
                 else a) <$> agents st;
     taskQueue := taskQueue st;
     performanceMetrics := performanceMetrics st |}.

(** [task.retries < 3]: the comparison of [undefined] with a number is
    false. *)
Definition retriesBelow (task : Task.t) (limit : Z) : bool :=
  match Task.retries task with
  | Some r => (r <? limit)%Z
  | None => false
  end.

(** [handleTaskFailure(agent, task, executionTime)]. Reading a property
    of the [undefined] metrics of an unknown agent throws. *)
Definition handleTaskFailure (a : Agent.t) (task : Task.t) (st : state) : completion state :=
  match performanceMetrics st !! Agent.id a with
  | None => Throw "Cannot read properties of undefined (reading 'tasksFailed')"
  | Some m =>
      let m' := {| tasksCompleted := tasksCompleted m; tasksFailed := S (tasksFailed m);
                   avgExecutionTime := avgExecutionTime m |} in
      let pm := <[Agent.id a := m']> (performanceMetrics st) in
      if retriesBelow task 3 then
        let task' :=
          {| Task.name := Task.name task; Task.type := Task.type task;
             Task.requiredCapabilities := Task.requiredCapabilities task;
             Task.retries := Some (default 0 (Task.retries task) + 1)%Z;
             Task.excludeAgents := Some (default [] (Task.excludeAgents task) ++ [Agent.id a]) |} in
        Normal {| agents := agents st; taskQueue := task' :: taskQueue st;
                  performanceMetrics := pm |}
      else
        Normal {| agents := agents st; taskQueue := taskQueue st; performanceMetrics := pm |}
  end.

Inductive strategy : Type := ours | theirs.

(** [agent.protocols.priority > 7 ? 'ours' : 'theirs']. *)
Definition conflictStrategy (priority : Z) : strategy :=
  if (7 <? priority)%Z then ours else theirs.

(** What a call of [resolveConflict] did: the strategy it handed to the
    branch manager, and whether the branch manager resolved the conflict
    (its failure is caught and logged). *)
Record resolution : Type := Resolution { handed : strategy; resolved : bool }.

Section Runtime.

(** [String.prototype.toLowerCase], whose case table is the runtime's. *)
Variable toLowerCase : string -> string.

(** [executeAgentTask] switches the branch of the agent and creates its
    worker. [startFails agent task] tells that this fails at once (the
    promise of [switchBranch] is rejected when [executeAgentTask] awaits
    it): the [catch] block then runs before the caller that awaits
    [assignTask] resumes. A start that fails later is an event of its
    own, [StartFailed] below. *)
Variable startFails : Agent.t -> Task.t -> bool.

(** [gitManager.resolveConflicts(agentId, strategy)]. *)
Variable resolveConflicts : string -> strategy -> completion unit.

Definition typeAligned (task : Task.t) (a : Agent.t) : bool :=
  match Task.type task with
  | Some ty => negb (bool_decide (ty = "")) &&
               includes (toLowerCase (Agent.role a)) (toLowerCase ty)
  | None => false
  end.

(** The compatibility score computed in the body of the loop: a number
    that starts at 0 and grows by four additions. *)
Definition score (task : Task.t) (a : Agent.t) : Double.t :=
  let s0 := Double.zero in
  let s1 :=
    match Task.requiredCapabilities task with
    | Some reqs =>
        Double.add s0
          (Double.ofZ (Z.of_nat (length (filter (fun req =>
                         capabilityMatches (Agent.primary a) req = true) reqs)) * 10))
    | None => s0
    end in
  let s2 := if typeAligned task a then Double.add s1 (Double.ofZ 5) else s1 in
  let s3 := Double.add s2 (Double.ofZ (Agent.priority a)) in
  if decide (Agent.status a = idle) then Double.add s3 (Double.ofZ 3) else s3.

Definition selectStep (task : Task.t) (best : option Agent.t * Double.t) (a : Agent.t)
    : option Agent.t * Double.t :=
  let s := score task a in
  if Double.ltb best.2 s then (Some a, s) else best.

Definition selectBestAgent (task : Task.t) (st : state) : option Agent.t :=
  (foldl (selectStep task) (None, Double.zero) (agents st)).1.

(** [executeAgentTask(agent, task)] as far as the caller of [assignTask]
    sees it: the worker is on its way, or the [catch] block has made the
    agent idle again and the task is held by nobody. *)
Definition executeAgentTask (a : Agent.t) (task : Task.t) (st : state) : state :=
  if startFails a task then setStatus (Agent.id a) idle st else st.

(** [assignTask]: the id of the agent the task was given to, or [None]
    for [null]. *)
Definition assignTask (task : Task.t) (st : state) : option string * state :=
  match selectBestAgent task st with
  | None => (None, st)
  | Some a =>
      if decide (Agent.status a ≠ idle) then
        (None, {| agents := agents st; taskQueue := taskQueue st ++ [task];
                  performanceMetrics := performanceMetrics st |})
      else (Some (Agent.id a), executeAgentTask a task (setStatus (Agent.id a) working st))
  end.

(** [processTaskQueue]: [idleAgents] is computed once and loses an
    element at each pass, so the loop is structural in its length. The
    result lists what [assignTask] returned at each pass. *)
Fixpoint processLoop (idleAgents : nat) (st : state) (assigned : list (option string))
    : list (option string) * state :=
  match idleAgents with
  | O => (assigned, st)
  | S idleAgents' =>
      match taskQueue st with
      | [] => (assigned, st)
      | task :: queue =>
          let '(r, st') :=
            assignTask task {| agents := agents st; taskQueue := queue;
                               performanceMetrics := performanceMetrics st |} in
          processLoop idleAgents' st' (assigned ++ [r])
      end
  end.

Definition processTaskQueue (st : state) : list (option string) * state :=
  processLoop (length (filter (fun a => Agent.status a = idle) (agents st))) st [].

(** The worker's [exit] handler for a non-zero code: the failure is
    handled, the agent is idle again, the queue is processed. *)
Definition onWorkerFailure (a : Agent.t) (task : Task.t) (st : state)
    : completion (list (option string) * state) :=
  match handleTaskFailure a task st with
  | Throw msg => Throw msg
  | Normal st1 => Normal (processTaskQueue (setStatus (Agent.id a) idle st1))
  end.

(** [resolveConflict(agentId)]: reading the protocols of an agent that
    is not registered throws; the failure of the branch manager does
    not. *)
Definition resolveConflict (agentId : string) (st : state) : completion resolution :=
  match list_find (fun a => Agent.id a = agentId) (agents st) with
  | None => Throw "Cannot read properties of undefined (reading 'protocols')"
  | Some (_, a) =>
      let s := conflictStrategy (Agent.priority a) in
      Normal {| handed := s;
                resolved := match resolveConflicts agentId s with
                            | Normal _ => true
                            | Throw _ => false
                            end |}
  end.

End Runtime.

End Master.

(** ** BaseAgent: performance counters *)

Module BaseAgent.

Record performance : Type := Performance {
  tasksCompleted : nat;
  tasksSuccessful : nat;
  tasksFailed : nat;
  avgExecutionTime : Double.t
}.

Inductive entryStatus : Type := completed | failed.

(** An element of [taskHistory]. *)
Record entry : Type := Entry {
  taskId : string;
  status : entryStatus;
  executionTime : Z
}.

Record state : Type := State {
  perf : performance;
  activeTasks : gset string;       (* the keys of the Map *)
  taskHistory : list entry;
  maxConcurrentTasks : nat
}.

(** [config.maxConcurrentTasks || 5]. *)
Definition create (maxConcurrent : option nat) : state :=
  {| perf := {| tasksCompleted := 0; tasksSuccessful := 0; tasksFailed := 0;
                avgExecutionTime := Double.zero |};
     activeTasks := ∅;
     taskHistory := [];
     maxConcurrentTasks :=
       match maxConcurrent with
       | Some (S n) => S n
       | _ => 5
       end |}.

Definition updatePerformance (time : Z) (ok : bool) (p : performance) : performance :=
  let n := S (tasksCompleted p) in
  {| tasksCompleted := n;
     tasksSuccessful := if ok then S (tasksSuccessful p) else tasksSuccessful p;
     tasksFailed := if ok then tasksFailed p else S (tasksFailed p);
     avgExecutionTime := Double.meanUpdate (avgExecutionTime p) n time |}.

(** The steps of [executeTask], which other calls may interleave at its
    [await]: the call is turned away at the capacity check, or the task
    becomes active; later [performTask] returns, or throws. [taskId] is
    [task.id || `task_${Date.now()}`], [time] is [Date.now() - startTime]. *)
Inductive step : Type :=
| Begin (taskId : string)
| Succeed (taskId : string) (time : Z)
| Fail (taskId : string) (time : Z).

Definition settle (key : string) (time : Z) (ok : bool) (st : state) : state :=
  {| perf := updatePerformance time ok (perf st);
     activeTasks := activeTasks st ∖ {[key]};
     taskHistory := taskHistory st ++
       [{| taskId := key; status := if ok then completed else failed;
           executionTime := time |}];
     maxConcurrentTasks := maxConcurrentTasks st |}.

Definition exec (st : state) (s : step) : state :=
  match s with
  | Begin taskId =>
      if decide (maxConcurrentTasks st <= size (activeTasks st)) then st
      else {| perf := perf st; activeTasks := {[taskId]} ∪ activeTasks st;
              taskHistory := taskHistory st; maxConcurrentTasks := maxConcurrentTasks st |}
  | Succeed taskId time => settle taskId time true st
  | Fail taskId time => settle taskId time false st
  end.

Definition run (steps : list step) (st : state) : state := foldl exec st steps.



(** What a step adds to the number of calls in flight (calls that have
    passed the capacity check and not yet returned): a call that passes
    the check adds one, a call that returns takes one away. *)
Definition admitted (st : state) (s : step) : Z :=
  match s with
  | Begin _ => if decide (maxConcurrentTasks st <= size (activeTasks st)) then 0%Z else 1%Z
  | Succeed _ _ | Fail _ _ => (-1)%Z
  end.

Fixpoint inFlight (steps : list step) (st : state) : Z :=
  match steps with
  | [] => 0%Z
  | s :: rest => (admitted st s + inFlight rest (exec st s))%Z
  end.

(** The calls in flight carry distinct ids: a call begins under an id
    that no call in flight has, and the call that returns is in flight. *)
Fixpoint distinctIds (steps : list step) (st : state) : bool :=
  match steps with
  | [] => true
  | s :: rest =>
      match s with
      | Begin key => bool_decide (key ∉ activeTasks st)
      | Succeed key _ | Fail key _ => bool_decide (key ∈ activeTasks st)
      end && distinctIds rest (exec st s)
  end.

End BaseAgent.

(** ** OrchestratorController: the registry seen from outside, and the task queue *)

Module Registry.
Import Controller.

(** The ids of the registered agents, in the order of the [Map]. *)
Definition ids (st : state) : list string := Agent.id <$> agents st.

(** [this.agents.get(agentId)]. *)
Definition getAgent (agentId : string) (st : state) : option Agent.t :=
  snd <$> list_find (fun a => Agent.id a = agentId) (agents st).

(** A registry as [createDynamicAgent] builds it: the keys of the [Map]
    are distinct and each is [agent_k] for a [k] below the counter. *)
Definition wellFormed (st : state) : Prop :=
  NoDup (ids st) ∧
  ∀ a, a ∈ agents st →
       ∃ k, (k < agentIdCounter st)%nat ∧ Agent.id a = "agent_" +:+ pretty k.

(** The candidates of [selectBestAgent]: [compatibleAgents]. *)
Definition candidates (task : Task.t) (st : state) : list Agent.t :=
  filter (fun a => compatible task a = true)
         (filter (fun a => isIdle a = true) (agents st)).

Definition avgOf (a : Agent.t) : Double.t := avgExecutionTime (Agent.perf a).

(** [st'] is a well-formed registry that keeps the agents of [st] at
    their places and has at most [n] more. *)
Definition extends (n : nat) (st st' : state) : Prop :=
  wellFormed st' ∧ ids st `prefix_of` ids st' ∧
  (length (ids st') ≤ length (ids st) + n)%nat.

(** The controller between two turns of the event loop: its registry and
    the tasks that [executeTask] has started and whose payload has not
    settled yet. A move starts a task, or settles the started task at an
    index; moves in any order cover every interleaving of [executeTask]
    calls, awaited one by one or dispatched in batches. *)
Inductive move : Type :=
| Starts (task : Task.t)
| Settles (i : nat).

Section Moves.
Variable execute : Task.t -> Agent.t -> completion payloadResult.
Variable elapsed : Task.t -> Z.

Definition act (m : move) (s : state * list started) : state * list started :=
  match m with
  | Starts task => let '(p, st') := startTask task s.1 in (st', s.2 ++ [p])
  | Settles i =>
      match s.2 !! i with
      | Some p => ((settleTask execute elapsed p s.1).2, delete i s.2)
      | None => s
      end
  end.

Definition after (ms : list move) (st : state) : state * list started :=
  foldl (fun s m => act m s) (st, []) ms.

End Moves.


End Registry.

Module TaskQueue.
Import Controller.

(** A quotient of two counts or sums: [NaN] (here [None]) when the
    divisor is 0 and the dividend is 0 too. *)
Definition ratio (x : Z) (n : nat) : option Q :=
  match n with
  | O => None
  | S _ => Some (inject_Z x / inject_Z (Z.of_nat n))%Q
  end.

(** One entry of [insights.agentPerformance]. *)
Record agentInsight : Type := AgentInsight {
  insightCompleted : nat;
  avgTime : Double.t;
  efficiency : Z
}.

Record insights : Type := Insights {
  totalTasks : nat;
  successRate : option Q;
  avgExecutionTime : option Q;
  agentPerformance : gmap string agentInsight
}.

Definition isCompleted (t : Task.t) : bool :=
  match Task.status t with
  | Some completed => true
  | _ => false
  end.

(** [learnFromExecution(executionHistory)]; [t.executionTime || 0]. *)
Definition learnFromExecution (executionHistory : list Task.t) (st : state) : insights :=
  let n := length executionHistory in
  {| totalTasks := n;
     successRate :=
       (fun q => (q * 100)%Q) <$>
         ratio (Z.of_nat (length (filter (fun t => isCompleted t = true) executionHistory))) n;
     avgExecutionTime :=
       ratio (foldl (fun acc t => (acc + default 0 (Task.executionTime t))%Z) 0%Z
                    executionHistory) n;
     agentPerformance :=
       foldl (fun acc a =>
                <[Agent.name a :=
                    {| insightCompleted := tasksCompleted (Agent.perf a);
                       avgTime := Controller.avgExecutionTime (Agent.perf a);
                       efficiency := Controller.successRate (Agent.perf a) |}]> acc)
             ∅ (agents st) |}.

(** [createTask(name, description, params, requiredCapabilities = [])]:
    the task is appended to the queue and returned. The description, the
    parameters and the priority label are not read by the dispatcher. *)
Definition createTask (name : string) (requiredCapabilities : option (list string))
    (queue : list Task.t) : Task.t * list Task.t :=
  let task :=
    {| Task.id := None; Task.name := name;
       Task.requiredCapabilities := Some (default [] requiredCapabilities);
       Task.status := Some pending; Task.executionTime := None;
       Task.result := None; Task.error := None |} in
  (task, queue ++ [task]).

Definition isRejected (r : settled) : bool :=
  match r with rejected _ => true | fulfilled _ => false end.

Definition fulfilledValues (rs : list settled) : list Task.t :=
  omap (fun r => match r with fulfilled v => Some v | rejected _ => None end) rs.

(** What [processTasks] returns and leaves. *)
Record processed : Type := Processed {
  processedResults : list settled;
  processedInsights : insights;
  successful : nat;          (* logged *)
  failedCount : nat;         (* logged *)
  queueAfter : list Task.t;
  stateAfter : state
}.

Section Process.
Variable execute : Task.t -> Agent.t -> completion payloadResult.
Variable elapsed : Task.t -> Z.

(** [processTasks()]: [Some None] is the [undefined] returned for an
    empty queue; the outer [None] is the dispatch running out of fuel. *)
Definition processTasks (queue : list Task.t) (st : state) : option (option processed) :=
  match queue with
  | [] => Some None
  | _ :: _ =>
      match executeParallelTasks execute elapsed queue st with
      | None => None
      | Some d =>
          let values := fulfilledValues (results d) in
          Some (Some
            {| processedResults := results d;
               processedInsights := learnFromExecution values (final d);
               successful := length values;
               failedCount := length (filter (fun r => isRejected r = true) (results d));
               queueAfter := [];
               stateAfter := final d |})
      end
  end.

End Process.

End TaskQueue.

(** ** MasterOrchestrator: the handlers of a worker's events *)

Module MasterMetrics.
Import Master.

(** [handleTaskCompletion(agent, task, executionTime)] up to its first
    [await]: the metrics of the agent are updated; the calls of the
    branch manager come after and leave the state as it is. *)
Definition handleTaskCompletion (a : Agent.t) (time : Z) (st : state) : completion state :=
  match performanceMetrics st !! Agent.id a with
  | None => Throw "Cannot read properties of undefined (reading 'tasksCompleted')"
  | Some m =>
      let n := S (tasksCompleted m) in
      Normal {| agents := agents st; taskQueue := taskQueue st;
                performanceMetrics :=
                  <[Agent.id a :=
                      {| tasksCompleted := n; tasksFailed := tasksFailed m;
                         avgExecutionTime := Double.meanUpdate (avgExecutionTime m) n time |}]>
                    (performanceMetrics st) |}
  end.

(** What happens to a task once [assignTask] has returned: its worker
    exits with code 0 after [time] ms ([pushed] tells whether the commit
    and the push of [handleTaskCompletion] went through), it exits with
    another code, it raises an [error] event, or the start of the task
    fails after all and the [catch] block of [executeAgentTask] runs. *)
Inductive workerEvent : Type :=
| ExitOk (a : Agent.t) (task : Task.t) (time : Z) (pushed : bool)
| ExitFailed (a : Agent.t) (task : Task.t)
| WorkerError (a : Agent.t) (task : Task.t)
| StartFailed (a : Agent.t) (task : Task.t).

Section Handlers.
Variable toLowerCase : string -> string.
Variable startFails : Agent.t -> Task.t -> bool.

(** The state a handler leaves. A handler that throws (the agent has no
    metrics) or whose [await] is rejected (the push failed) stops where
    it is: what it has done so far stays, the rest is not done. *)
Definition onEvent (e : workerEvent) (st : state) : state :=
  match e with
  | ExitOk a task time pushed =>
      match handleTaskCompletion a time st with
      | Throw _ => st
      | Normal st1 =>
          if pushed
          then (processTaskQueue toLowerCase startFails (setStatus (Agent.id a) idle st1)).2
          else st1
      end
  | ExitFailed a task =>
      match onWorkerFailure toLowerCase startFails a task st with
      | Throw _ => st
      | Normal r => r.2
      end
  | WorkerError a task =>
      match handleTaskFailure a task st with
      | Throw _ => st
      | Normal st1 => st1
      end
  | StartFailed a task => setStatus (Agent.id a) idle st
  end.

(** The handlers run one after the other, in the order of the events. *)
Definition replay (es : list workerEvent) (st : state) : state := foldl (fun s e => onEvent e s) st es.

End Handlers.




(** How many more times a task can be put back on the queue: the
    distance of its retry count to 3; none without a retry count. *)
Definition retryBudget (task : Task.t) : nat :=
  match Task.retries task with
  | Some r => Z.to_nat (3 - r)
  | None => 0
  end.


End MasterMetrics.

(** ** BaseAgent: capabilities and uptime *)

Module BaseAgentMore.

(** [this.capabilities.includes(capability)]. *)
Definition hasCapability (capability : string) (capabilities : list string) : bool :=
  bool_decide (capability ∈ capabilities).

(** [addCapability]: pushed when not there yet. *)
Definition addCapability (capability : string) (capabilities : list string) : list string :=
  if hasCapability capability capabilities then capabilities
  else capabilities ++ [capability].

(** [removeCapability]: [indexOf] finds the first occurrence, [splice]
    takes it out. *)
Fixpoint removeCapability (capability : string) (capabilities : list string) : list string :=
  match capabilities with
  | [] => []
  | c :: rest => if decide (c = capability) then rest else c :: removeCapability capability rest
  end.

Definition occurrences (capability : string) (capabilities : list string) : nat :=
  length (filter (fun c => c = capability) capabilities).

(** The three numbers of [getUptime]: [Math.floor] of a quotient by a
    positive number is [Z.div], [%] is [Z.rem]. *)
Definition uptimeParts (uptimeMs : Z) : Z * Z * Z :=
  ((uptimeMs / 3600000)%Z,
   (Z.rem uptimeMs 3600000 / 60000)%Z,
   (Z.rem uptimeMs 60000 / 1000)%Z).

(** [getUptime()] for [now - start = uptimeMs]. *)
Definition getUptime (uptimeMs : Z) : string :=
  let '(hours, minutes, seconds) := uptimeParts uptimeMs in
  pretty hours +:+ "h " +:+ pretty minutes +:+ "m " +:+ pretty seconds +:+ "s".

(** The entry [executeTask] pushes on [taskHistory] for an attempt. *)
Definition entryOf (s : BaseAgent.step) : option BaseAgent.entry :=
  match s with
  | BaseAgent.Begin _ => None
  | BaseAgent.Succeed key time =>
      Some {| BaseAgent.taskId := key; BaseAgent.status := BaseAgent.completed;
              BaseAgent.executionTime := time |}
  | BaseAgent.Fail key time =>
      Some {| BaseAgent.taskId := key; BaseAgent.status := BaseAgent.failed;
              BaseAgent.executionTime := time |}
  end.

End BaseAgentMore.

(** ** Vocabulary for the phases of a plan *)

Module Waves.
Import Planner.

(** A task that a scan takes when [placed] are the keys of the earlier
    phases: a task of the list, not yet placed, with every dependency
    placed. *)
Definition eligible (tasks : list task) (dependencies : gmap string (list string))
    (placed : list string) (t : task) : Prop :=
  t ∈ tasks ∧ taskKey t ∉ placed ∧
  ∀ d, d ∈ dependencySet dependencies (taskKey t) → d ∈ placed.

(** Each phase is the sorted result of the scan made from the keys of
    the phases before it. *)
Definition scanned (engineOrder : (task -> task -> option Z) -> list task -> list task)
    (tasks : list task) (dependencies : gmap string (list string))
    (priority : gmap string Z) (ps : list (list task)) : Prop :=
  ∀ i p, ps !! i = Some p →
    ∃ phase ip,
      scan tasks dependencies (list_to_set (keys (concat (take i ps)))) ∅ = Normal (phase, ip) ∧
      p = sortBy engineOrder (compareFn priority) phase.

End Waves.

(** ** Inputs of the scenarios *)

Module Scenarios.
Import Planner.

Definition T1 : task := Task None "T1".
Definition T2 : task := Task None "T2".
Definition T3 : task := Task None "T3".

(** Scenario A: T2 depends on T1; priorities T1:5, T2:5, T3:9. *)
Definition tasksA : list task := [T1; T2; T3].
Definition dependenciesA : gmap string (list string) := {[ "T2" := ["T1"] ]}.
Definition priorityA : gmap string Z :=
  <["T1" := 5%Z]> (<["T2" := 5%Z]> {[ "T3" := 9%Z ]}).

(** Scenario B: T1 and T2 depend on each other. *)
Definition tasksB : list task := [T1; T2].
Definition dependenciesB : gmap string (list string) :=
  <["T1" := ["T2"]]> {[ "T2" := ["T1"] ]}.

(** The cycle of scenario B next to an independent task. *)
Definition tasksB3 : list task := [T3; T1; T2].

(** A dependency on an id that no task carries. *)
Definition tasksX : list task := [T1].
Definition dependenciesX : gmap string (list string) := {[ "T1" := ["X"] ]}.

(** An engine for the statements that need one: it leaves an array whose
    comparator is not consistent as it is. The comparators of scenarios
    A, B and X are consistent, so that it is not consulted there. *)
Definition keepOrder (comparefn : task -> task -> option Z) (l : list task) : list task := l.

(** A task whose name is the name of a member of [Object.prototype]. *)
Definition Tc : task := Task None "constructor".

(** Two tasks without dependencies, the first named "constructor", the
    second with priority 5; the dependency map has the entry
    [constructor: []]. *)
Definition tasksP : list task := [Tc; T1].
Definition dependenciesP : gmap string (list string) := {[ "constructor" := [] ]}.
Definition priorityP : gmap string Z := {[ "T1" := 5%Z ]}.

(** The controller as its constructor and default configuration leave
    it. *)
Definition freshController : Controller.state :=
  {| Controller.agents := []; Controller.taskIdCounter := 1;
     Controller.agentIdCounter := 1; Controller.max_parallel_tasks := 10;
     Controller.journal := [] |}.

Definition newTask (name : string) (caps : option (list string)) : Controller.Task.t :=
  {| Controller.Task.id := None; Controller.Task.name := name;
     Controller.Task.requiredCapabilities := caps;
     Controller.Task.status := None; Controller.Task.executionTime := None;
     Controller.Task.result := None; Controller.Task.error := None |}.

(** Scenario C: the task requires "render"; the only agent is idle and
    offers "build". *)
Definition renderTask : Controller.Task.t := newTask "Render page" (Some ["render"]).
Definition builder : Controller.Agent.t :=
  {| Controller.Agent.id := "agent_1"; Controller.Agent.name := "Builder";
     Controller.Agent.type := "worker"; Controller.Agent.capabilities := ["build"];
     Controller.Agent.status := Controller.idle; Controller.Agent.tasks := [];
     Controller.Agent.perf :=
       {| Controller.tasksCompleted := 0; Controller.avgExecutionTime := Double.zero;
          Controller.successRate := 100%Z |} |}.
Definition builderController : Controller.state :=
  {| Controller.agents := [builder]; Controller.taskIdCounter := 1;
     Controller.agentIdCounter := 2; Controller.max_parallel_tasks := 10;
     Controller.journal := [] |}.

(** A task as [createTask] makes it when no capability is given. *)
Definition plainTask : Controller.Task.t := newTask "Plain" (Some []).

(** Three tasks dispatched two at a time; the payload of the second
    throws. *)
Definition pairController : Controller.state :=
  {| Controller.agents := []; Controller.taskIdCounter := 1;
     Controller.agentIdCounter := 1; Controller.max_parallel_tasks := 2;
     Controller.journal := [] |}.
Definition demoTasks : list Controller.Task.t :=
  [newTask "Lint Code" (Some ["code_analysis"]);
   newTask "Format Code" (Some ["formatting"]);
   newTask "Check Types" (Some ["type_checking"])].
Definition flaky (task : Controller.Task.t) (a : Controller.Agent.t)
    : completion Controller.payloadResult :=
  if decide (Controller.Task.name task = "Format Code") then Throw "formatter crashed"
  else Controller.simulateTaskExecution task a.
Definition fixedClock (task : Controller.Task.t) : Z := 700%Z.

(** A master registry of three agents; the first is at work. *)
Definition masterAgent (key : string) (prio : Z) (s : Master.agentStatus) : Master.Agent.t :=
  {| Master.Agent.id := key; Master.Agent.name := key; Master.Agent.role := "Developer";
     Master.Agent.primary := ["code"]; Master.Agent.priority := prio;
     Master.Agent.status := s |}.
Definition noMetrics : Master.metrics :=
  {| Master.tasksCompleted := 0; Master.tasksFailed := 0;
     Master.avgExecutionTime := Double.zero |}.

(** The runtime of the scenarios: their strings are ASCII, on which
    [toLowerCase] maps the letters A to Z to a to z; no worker fails to
    start; the branch manager resolves every conflict. *)
Definition lowerAscii (c : Ascii.ascii) : Ascii.ascii :=
  let n := Ascii.nat_of_ascii c in
  if (65 <=? n)%nat && (n <=? 90)%nat then Ascii.ascii_of_nat (n + 32) else c.
Fixpoint lowerCase (s : string) : string :=
  match s with
  | EmptyString => EmptyString
  | String c s' => String (lowerAscii c) (lowerCase s')
  end.
Definition startsFine (a : Master.Agent.t) (task : Master.Task.t) : bool := false.
Definition startsBadly (a : Master.Agent.t) (task : Master.Task.t) : bool := true.
Definition gitResolves (agentId : string) (s : Master.strategy) : completion unit :=
  Normal tt.
Definition gitRefuses (agentId : string) (s : Master.strategy) : completion unit :=
  Throw "merge failed".
Definition trio : Master.state :=
  {| Master.agents := [masterAgent "a1" 9 Master.working; masterAgent "a2" 5 Master.idle;
                       masterAgent "a3" 1 Master.idle];
     Master.taskQueue := [];
     Master.performanceMetrics :=
       <["a1" := noMetrics]> (<["a2" := noMetrics]> {[ "a3" := noMetrics ]}) |}.

(** A task submitted with a retry count, and one without. *)
Definition countedTask : Master.Task.t :=
  {| Master.Task.name := "build"; Master.Task.type := None;
     Master.Task.requiredCapabilities := None;
     Master.Task.retries := Some 0%Z; Master.Task.excludeAgents := None |}.
Definition uncountedTask : Master.Task.t :=
  {| Master.Task.name := "build"; Master.Task.type := None;
     Master.Task.requiredCapabilities := None;
     Master.Task.retries := None; Master.Task.excludeAgents := None |}.

(** Two parties to a conflict, of priority 9 and 4. *)
Definition parties : Master.state :=
  {| Master.agents := [masterAgent "p9" 9 Master.idle; masterAgent "p4" 4 Master.idle];
     Master.taskQueue := [];
     Master.performanceMetrics := ∅ |}.

(** A registry whose only agent is at work. *)
Definition busyShop : Master.state :=
  {| Master.agents := [masterAgent "a1" 9 Master.working];
     Master.taskQueue := [];
     Master.performanceMetrics := {[ "a1" := noMetrics ]} |}.

End Scenarios.

Module MoreScenarios.
Import Scenarios.

(** A task the builder of scenario C can take. *)
Definition buildTask : Controller.Task.t := newTask "Build" (Some ["build"]).

Definition specialistConfig : Controller.agentConfig :=
  {| Controller.cfgName := Some "DevAgent"; Controller.cfgType := Some "developer";
     Controller.cfgCapabilities := Some ["code_analysis"; "testing"] |}.

(** The registry of three master agents, all idle. *)
Definition idleTrio : Master.state :=
  {| Master.agents := [masterAgent "a1" 9 Master.idle; masterAgent "a2" 5 Master.idle;
                       masterAgent "a3" 1 Master.idle];
     Master.taskQueue := [];
     Master.performanceMetrics :=
       <["a1" := noMetrics]> (<["a2" := noMetrics]> {[ "a3" := noMetrics ]}) |}.

(** Three completions of a1 and one of a2; a1 also fails once, with an
    error event followed by the exit of its worker, and once a task of
    a1 fails to start. *)
Definition exits : list MasterMetrics.workerEvent :=
  [MasterMetrics.ExitOk (masterAgent "a1" 9 Master.working) countedTask 100 true;
   MasterMetrics.StartFailed (masterAgent "a1" 9 Master.working) uncountedTask;
   MasterMetrics.WorkerError (masterAgent "a1" 9 Master.working) countedTask;
   MasterMetrics.ExitFailed (masterAgent "a1" 9 Master.working) countedTask;
   MasterMetrics.ExitOk (masterAgent "a2" 5 Master.working) countedTask 50 true;
   MasterMetrics.ExitOk (masterAgent "a1" 9 Master.working) countedTask 200 false;
   MasterMetrics.ExitOk (masterAgent "a1" 9 Master.working) countedTask 100 true].

(** A registry of three idle agents that can build: the first has
    averaged 700 ms, the two others 500 ms. *)
Definition seasoned (key : string) (avg : Z) : Controller.Agent.t :=
  {| Controller.Agent.id := key; Controller.Agent.name := key;
     Controller.Agent.type := "worker"; Controller.Agent.capabilities := ["build"];
     Controller.Agent.status := Controller.idle; Controller.Agent.tasks := [];
     Controller.Agent.perf :=
       {| Controller.tasksCompleted := 1; Controller.avgExecutionTime := Double.ofZ avg;
          Controller.successRate := 100%Z |} |}.
Definition workshop : Controller.state :=
  {| Controller.agents := [seasoned "agent_1" 700; seasoned "agent_2" 500;
                           seasoned "agent_3" 500];
     Controller.taskIdCounter := 4; Controller.agentIdCounter := 4;
     Controller.max_parallel_tasks := 10; Controller.journal := [] |}.

End MoreScenarios.

(** * Properties *)

(** ** Comparisons of doubles *)

Module DoubleFacts.

Lemma compare_trans x y z c1 c2 :
  SFcompare x y = Some c1 → SFcompare y z = Some c2 → c1 ≠ Gt → c2 ≠ Gt →
  SFcompare x z = Some (match c1, c2 with Eq, Eq => Eq | _, _ => Lt end).
Proof.
  destruct x as [sx|sx| |sx mx ex], y as [sy|sy| |sy my ey], z as [sz|sz| |sz mz ez];
    try destruct sx; try destruct sy; try destruct sz; cbn;
    intros H1 H2 N1 N2; try discriminate;
    try (injection H1 as <-); try (injection H2 as <-); try congruence;
    revert N1 N2; change (Pos.compare_cont Eq) with Pos.compare;
    repeat match goal with
    | |- context [Z.compare ?a ?b] => destruct (Z.compare_spec a b)
    | |- context [Pos.compare ?a ?b] => destruct (Pos.compare_spec a b)
    end; cbn; try congruence; try lia.
Qed.

Lemma compare_antisym x y c : SFcompare x y = Some c → SFcompare y x = Some (CompOpp c).
Proof.
  destruct x as [sx|sx| |sx mx ex], y as [sy|sy| |sy my ey];
    try destruct sx; try destruct sy; cbn; intros H; try discriminate;
    try (injection H as <-); try done;
    change (Pos.compare_cont Eq) with Pos.compare;
    rewrite (Z.compare_antisym ex ey), (Pos.compare_antisym mx my);
    destruct (Z.compare ex ey); cbn; try done; by destruct (Pos.compare mx my).
Qed.

Lemma ltb_spec x y : Double.ltb x y = true ↔ SFcompare x y = Some Lt.
Proof.
  unfold Double.ltb, SFltb. destruct (SFcompare x y) as [[]|]; split; congruence.
Qed.

Lemma leb_spec x y :
  Double.leb x y = true ↔ ∃ c, SFcompare x y = Some c ∧ c ≠ Gt.
Proof.
  unfold Double.leb, SFleb. destruct (SFcompare x y) as [[]|]; split;
    try done; try (intros _; eexists; split; [done|done]);
    intros (c & Hc & Hne); congruence.
Qed.

Lemma leb_ltb_trans x y z :
  Double.leb x y = true → Double.ltb y z = true → Double.ltb x z = true.
Proof.
  intros (c & Hc & Hne)%leb_spec Hlt%ltb_spec. apply ltb_spec.
  rewrite (compare_trans x y z c Lt Hc Hlt Hne) by done. by destruct c.
Qed.

Lemma ltb_leb_trans x y z :
  Double.ltb x y = true → Double.leb y z = true → Double.ltb x z = true.
Proof.
  intros Hlt%ltb_spec (c & Hc & Hne)%leb_spec. apply ltb_spec.
  by rewrite (compare_trans x y z Lt c Hlt Hc) by done.
Qed.

Lemma ltb_leb x y : Double.ltb x y = true → Double.leb x y = true.
Proof. intros Hlt%ltb_spec. unfold Double.leb, SFleb. by rewrite Hlt. Qed.

Lemma ltb_not_leb x y : Double.ltb x y = true → Double.leb y x = false.
Proof.
  intros Hlt%ltb_spec. apply compare_antisym in Hlt.
  unfold Double.leb, SFleb. by rewrite Hlt.
Qed.



End DoubleFacts.

(** ** The dependency resolver *)

Module PlannerFacts.
Import Planner.

(** The lookups of the planner on keys that do not end on
    [Object.prototype]. *)
Lemma depsOf_Some dependencies k deps :
  depsOf dependencies k = Some deps → dependencySet dependencies k = deps.
Proof.
  unfold depsOf, dependencySet, getProperty.
  destruct (dependencies !! k); [by intros [= ->]|].
  case_bool_decide; [done|by intros [= <-]].
Qed.

Lemma depsOf_None dependencies k :
  depsOf dependencies k = None ↔ getProperty dependencies k = Inherited.
Proof. unfold depsOf. by destruct (getProperty dependencies k). Qed.

Lemma priorityOf_own priority k :
  getProperty priority k ≠ Inherited →
  priorityOf priority k = Some (priorityValue priority k).
Proof.
  unfold priorityOf, priorityValue, getProperty.
  destruct (priority !! k); [done|]. by case_bool_decide.
Qed.

Section Scan.
Variable dependencies : gmap string (list string).
Variable completed : gset string.

(** What one scan of the task list adds to the phase and to
    [inProgress], when it throws nothing. *)
Lemma scan_fold ts : ∀ phase0 ip0 phase ip,
  scanFrom dependencies completed (phase0, ip0) ts = Normal (phase, ip) →
  ∃ extra,
    phase = phase0 ++ extra ∧
    (extra `sublist_of` ts) ∧
    ip = list_to_set (keys extra) ∪ ip0 ∧
    NoDup (keys extra) ∧
    (∀ k, k ∈ keys extra → k ∉ completed ∧ k ∉ ip0) ∧
    (∀ t, t ∈ extra → Forall (λ d, d ∈ completed) (dependencySet dependencies (taskKey t))) ∧
    (∀ t, t ∈ ts → taskKey t ∉ completed → taskKey t ∉ ip0 →
          Forall (λ d, d ∈ completed) (dependencySet dependencies (taskKey t)) →
          taskKey t ∈ keys extra).
Proof.
  induction ts as [|t ts IH]; intros phase0 ip0 phase ip Hf; cbn [scanFrom] in Hf.
  - inversion Hf; subst. exists []. rewrite app_nil_r. cbn.
    repeat split; try constructor; try set_solver.
  - unfold scanStep in Hf. cbn [fst snd] in Hf.
    destruct (bool_decide (taskKey t ∈ completed) || bool_decide (taskKey t ∈ ip0)) eqn:Hskip.
    + apply IH in Hf as (extra & -> & Hsub & -> & Hnd & Hfresh & Hdeps & Hall).
      exists extra. repeat split; auto.
      * by apply sublist_cons.
      * by apply Hfresh.
      * by apply Hfresh.
      * intros t' Ht' Hc Hi Hd. apply elem_of_cons in Ht' as [->|Ht']; [|by apply Hall].
        apply orb_true_iff in Hskip as [H|H]; apply bool_decide_eq_true in H; done.
    + apply orb_false_iff in Hskip as [Hc Hi].
      apply bool_decide_eq_false in Hc, Hi.
      destruct (depsOf dependencies (taskKey t)) as [deps|] eqn:Hdeps0; [|discriminate].
      apply depsOf_Some in Hdeps0. rewrite <- Hdeps0 in Hf.
      destruct (forallb _ _) eqn:Hready.
      * apply IH in Hf as (extra & -> & Hsub & -> & Hnd & Hfresh & Hdeps & Hall).
        exists (t :: extra). rewrite <- app_assoc. cbn.
        assert (Hd : Forall (λ d, d ∈ completed) (dependencySet dependencies (taskKey t))).
        { apply Forall_forall. intros d Hd. rewrite forallb_forall in Hready.
          apply list_elem_of_In in Hd. apply Hready in Hd. by apply bool_decide_eq_true in Hd. }
        repeat split; auto.
        -- by apply sublist_skip.
        -- set_solver.
        -- constructor; [|done]. intros Hin. apply Hfresh in Hin. set_solver.
        -- apply elem_of_cons in H as [->|H]; [done|]. by apply Hfresh.
        -- apply elem_of_cons in H as [->|H]; [done|]. apply Hfresh in H. set_solver.
        -- intros t' Ht'. apply elem_of_cons in Ht' as [->|Ht']; [done|]. by apply Hdeps.
        -- intros t' Ht' Hc' Hi' Hd'. apply elem_of_cons in Ht' as [->|Ht']; [set_solver|].
           destruct (decide (taskKey t' = taskKey t)) as [->|Hne]; [set_solver|].
           apply elem_of_cons. right. apply Hall; auto. set_solver.
      * apply IH in Hf as (extra & -> & Hsub & -> & Hnd & Hfresh & Hdeps & Hall).
        exists extra. repeat split; auto.
        -- by apply sublist_cons.
        -- by apply Hfresh.
        -- by apply Hfresh.
        -- intros t' Ht' Hc' Hi' Hd'. apply elem_of_cons in Ht' as [->|Ht']; [|by apply Hall].
           exfalso. apply not_true_iff_false in Hready. apply Hready.
           apply forallb_forall. intros d Hd. apply bool_decide_eq_true.
           rewrite Forall_forall in Hd'. apply Hd'. by apply list_elem_of_In.
Qed.

(** A scan throws nothing when no key of the list ends on
    [Object.prototype]. *)
Lemma scan_returns ts : ∀ st,
  ownKeys dependencies ts → ∃ r, scanFrom dependencies completed st ts = Normal r.
Proof.
  induction ts as [|t ts IH]; intros st Hown; cbn [scanFrom]; [by eexists|].
  assert (Hrest : ownKeys dependencies ts).
  { intros t' Ht'. apply Hown. by apply elem_of_cons; right. }
  unfold scanStep.
  destruct (bool_decide _ || bool_decide _); [by apply IH|].
  destruct (depsOf dependencies (taskKey t)) as [deps|] eqn:Hdeps.
  - destruct (forallb _ _); by apply IH.
  - apply depsOf_None in Hdeps. exfalso. apply (Hown t); [by apply elem_of_cons; left|done].
Qed.

(** The only error of a scan is the [TypeError] of [deps.every]. *)
Lemma scan_throws ts : ∀ st msg,
  scanFrom dependencies completed st ts = Throw msg →
  msg = notAFunction ∧ ∃ t, t ∈ ts ∧ getProperty dependencies (taskKey t) = Inherited.
Proof.
  induction ts as [|t ts IH]; intros st msg; cbn [scanFrom]; [discriminate|].
  unfold scanStep.
  assert (Hrest : ∀ st', scanFrom dependencies completed st' ts = Throw msg →
     msg = notAFunction ∧
     ∃ t', t' ∈ t :: ts ∧ getProperty dependencies (taskKey t') = Inherited).
  { intros st' H. apply IH in H as (-> & t' & Ht' & Hin). split; [done|].
    exists t'. split; [by apply elem_of_cons; right|done]. }
  destruct (bool_decide _ || bool_decide _); [by apply Hrest|].
  destruct (depsOf dependencies (taskKey t)) as [deps|] eqn:Hdeps.
  - destruct (forallb _ _); by apply Hrest.
  - intros [= <-]. split; [done|]. exists t. split; [by apply elem_of_cons; left|].
    by apply depsOf_None.
Qed.

(** A scan reaches every task whose key is neither completed nor in
    progress: when the key of one of them ends on [Object.prototype],
    the scan throws. *)
Lemma scan_reaches_inherited ts : ∀ st,
  (∀ k, k ∈ completed ∨ k ∈ st.2 → getProperty dependencies k ≠ Inherited) →
  (∃ t, t ∈ ts ∧ getProperty dependencies (taskKey t) = Inherited) →
  scanFrom dependencies completed st ts = Throw notAFunction.
Proof.
  induction ts as [|t ts IH]; intros st Hseen (bad & Hbad & Hinh).
  { by apply elem_of_nil in Hbad. }
  cbn [scanFrom]. unfold scanStep.
  destruct (bool_decide (taskKey t ∈ completed) || bool_decide (taskKey t ∈ st.2)) eqn:Hskip.
  - apply IH; [done|]. apply elem_of_cons in Hbad as [->|Hbad]; [|by exists bad].
    exfalso. apply (Hseen (taskKey t)); [|done].
    apply orb_true_iff in Hskip as [H|H]; apply bool_decide_eq_true in H; auto.
  - destruct (depsOf dependencies (taskKey t)) as [deps|] eqn:Hdeps; [|done].
    assert (Hother : ∃ t', t' ∈ ts ∧ getProperty dependencies (taskKey t') = Inherited).
    { apply elem_of_cons in Hbad as [->|Hbad]; [|by exists bad].
      apply depsOf_None in Hinh. congruence. }
    destruct (forallb _ _); apply IH; try done.
    cbn [snd]. intros k [Hk|Hk]; [by apply Hseen; left|].
    apply elem_of_union in Hk as [Hk|Hk]; [|by apply Hseen; right].
    apply elem_of_singleton in Hk as ->. intros Hk. apply depsOf_None in Hk. congruence.
Qed.

End Scan.

Section Sort.
Variable priority : gmap string Z.

Local Abbreviation value := (fun t => priorityValue priority (taskKey t)).

Lemma insertSorted_perm c x l : insertSorted c x l ≡ₚ x :: l.
Proof.
  induction l as [|y l IH]; cbn; [done|].
  destruct (c x y <=? 0)%Z; [done|].
  rewrite IH. apply Permutation_swap.
Qed.

Lemma insertion_perm c l : foldr (insertSorted c) [] l ≡ₚ l.
Proof.
  induction l as [|x l IH]; cbn; [done|].
  by rewrite insertSorted_perm, IH.
Qed.

(** On tasks whose priorities are numbers the comparator is the
    difference of the priorities. *)
Lemma sortCompare_own a b :
  getProperty priority (taskKey a) ≠ Inherited →
  getProperty priority (taskKey b) ≠ Inherited →
  sortCompare (compareFn priority) a b = (value b - value a)%Z.
Proof.
  intros Ha Hb. unfold sortCompare, compareFn.
  by rewrite !priorityOf_own.
Qed.

(** A comparator that is a difference of keys is consistent. *)
Lemma difference_consistent c l :
  (∀ a b, a ∈ l → b ∈ l → c a b = (value b - value a)%Z) → consistentOn c l = true.
Proof.
  intros Hc. unfold consistentOn.
  apply forallb_forall. intros x Hx%list_elem_of_In.
  apply andb_true_intro. split; [rewrite Hc by done; apply Z.eqb_eq; lia|].
  apply forallb_forall. intros y Hy%list_elem_of_In.
  apply andb_true_intro. split.
  { rewrite !Hc by done.
    destruct (Z.eqb_spec (value y - value x) 0); cbn; [apply Z.eqb_eq; lia|done]. }
  apply forallb_forall. intros z Hz%list_elem_of_In. rewrite !Hc by done.
  repeat (apply andb_true_intro; split).
  - destruct (Z.eqb_spec (value y - value x) 0), (Z.eqb_spec (value z - value y) 0); cbn;
      try done. apply Z.eqb_eq; lia.
  - destruct (Z.ltb_spec (value y - value x) 0), (Z.ltb_spec (value z - value y) 0); cbn;
      try done. apply Z.ltb_lt; lia.
  - destruct (Z.ltb_spec 0 (value y - value x)), (Z.ltb_spec 0 (value z - value y)); cbn;
      try done. apply Z.ltb_lt; lia.
Qed.

Lemma insertSorted_sorted c x l :
  (∀ y, y ∈ l → c x y = (value y - value x)%Z) →
  StronglySorted (prioGe priority) l →
  StronglySorted (prioGe priority) (insertSorted c x l).
Proof.
  intros Hc. induction 1 as [|y l Hs IH Hall]; cbn.
  - repeat constructor.
  - destruct (c x y <=? 0)%Z eqn:Hle.
    + apply Z.leb_le in Hle. rewrite Hc in Hle by (apply elem_of_cons; by left).
      constructor; [by constructor|].
      constructor; [unfold prioGe; lia|].
      eapply Forall_impl; [exact Hall|]. unfold prioGe. intros z Hz. lia.
    + apply Z.leb_gt in Hle. rewrite Hc in Hle by (apply elem_of_cons; by left).
      constructor.
      * apply IH. intros z Hz. apply Hc. apply elem_of_cons. by right.
      * rewrite insertSorted_perm. constructor; [unfold prioGe; lia|done].
Qed.

Lemma insertion_sorted c l :
  (∀ a b, a ∈ l → b ∈ l → c a b = (value b - value a)%Z) →
  StronglySorted (prioGe priority) (foldr (insertSorted c) [] l).
Proof.
  induction l as [|x l IH]; intros Hc; cbn; [constructor|].
  apply insertSorted_sorted.
  - intros y Hy. rewrite insertion_perm in Hy.
    apply Hc; apply elem_of_cons; auto.
  - apply IH. intros a b Ha Hb. apply Hc; apply elem_of_cons; auto.
Qed.

(** Stability: insertion never moves a task past one of equal priority. *)
Lemma insertSorted_stable c v x l :
  (∀ y, y ∈ l → c x y = (value y - value x)%Z) →
  withPriority priority v (insertSorted c x l) = withPriority priority v (x :: l).
Proof.
  unfold withPriority.
  induction l as [|y l IH]; intros Hc; cbn [insertSorted]; [done|].
  destruct (c x y <=? 0)%Z eqn:Hle; [done|].
  apply Z.leb_gt in Hle. rewrite Hc in Hle by (apply elem_of_cons; by left).
  rewrite (filter_cons _ y), IH, !(filter_cons _ x), !(filter_cons _ y).
  - repeat case_decide; try done; lia.
  - intros z Hz. apply Hc. apply elem_of_cons. by right.
Qed.

Lemma insertion_stable c v l :
  (∀ a b, a ∈ l → b ∈ l → c a b = (value b - value a)%Z) →
  withPriority priority v (foldr (insertSorted c) [] l) = withPriority priority v l.
Proof.
  induction l as [|x l IH]; intros Hc; cbn [foldr]; [done|].
  rewrite insertSorted_stable.
  - unfold withPriority in *. rewrite !(filter_cons _ x), IH; [done|].
    intros a b Ha Hb. apply Hc; apply elem_of_cons; auto.
  - intros y Hy. rewrite insertion_perm in Hy. apply Hc; apply elem_of_cons; auto.
Qed.

Section WithEngine.
Variable engineOrder : (task -> task -> option Z) -> list task -> list task.

Lemma sortBy_perm comparefn l :
  rearranges engineOrder → sortBy engineOrder comparefn l ≡ₚ l.
Proof.
  intros Hengine. unfold sortBy. destruct (consistentOn _ _); [apply insertion_perm|done].
Qed.

(** When the priorities of the tasks of a phase are numbers, the phase
    is sorted by insertion, whatever the engine. *)
Lemma sortBy_own l :
  ownKeys priority l →
  sortBy engineOrder (compareFn priority) l
  = foldr (insertSorted (sortCompare (compareFn priority))) [] l ∧
  ∀ a b, a ∈ l → b ∈ l →
         sortCompare (compareFn priority) a b = (value b - value a)%Z.
Proof.
  intros Hown.
  assert (Hc : ∀ a b, a ∈ l → b ∈ l →
                      sortCompare (compareFn priority) a b = (value b - value a)%Z).
  { intros a b Ha Hb. apply sortCompare_own; by apply Hown. }
  split; [|done]. unfold sortBy. by rewrite difference_consistent.
Qed.

End WithEngine.

End Sort.

Lemma sublist_filter_mono {A} (P : A → Prop) `{!∀ x, Decision (P x)} (l1 l2 : list A) :
  l1 `sublist_of` l2 → filter P l1 `sublist_of` filter P l2.
Proof.
  induction 1 as [|x l1 l2 _ IH|x l1 l2 _ IH]; [done| |].
  - rewrite !filter_cons. case_decide; [by apply sublist_skip|done].
  - rewrite filter_cons. case_decide; [by apply sublist_cons|done].
Qed.

Lemma elem_of_concat {A} (x : A) (ls : list (list A)) :
  x ∈ concat ls ↔ ∃ l, x ∈ l ∧ l ∈ ls.
Proof.
  induction ls as [|l ls IH]; cbn.
  - split; [by intros ?%elem_of_nil|]. intros (l & _ & Hl). by apply elem_of_nil in Hl.
  - rewrite elem_of_app, IH. split.
    + intros [Hx|(l' & Hx & Hl')]; [exists l|exists l']; split; auto;
        apply elem_of_cons; auto.
    + intros (l' & Hx & [->|Hl']%elem_of_cons); [by left|right; by exists l'].
Qed.

Lemma commitPhase_spec phase c ip :
  commitPhase phase (c, ip)
  = (list_to_set (keys phase) ∪ c, ip ∖ list_to_set (keys phase)).
Proof.
  unfold commitPhase. revert c ip.
  induction phase as [|t phase IH]; intros c ip; cbn.
  - f_equal; set_solver.
  - rewrite IH. f_equal; set_solver.
Qed.

Lemma size_keys_le (c : gset string) (l : list task) :
  c ⊆ list_to_set (keys l) → (size c ≤ length l)%nat.
Proof.
  intros Hsub. unfold size, set_size. cbn.
  transitivity (length (keys l)); [|unfold keys; by rewrite length_fmap].
  apply submseteq_length, NoDup_submseteq; [apply NoDup_elements|].
  intros x Hx. apply elem_of_elements in Hx. apply Hsub in Hx.
  by apply elem_of_list_to_set in Hx.
Qed.

Section Loop.
Variable engineOrder : (task -> task -> option Z) -> list task -> list task.
Hypothesis engine_rearranges : rearranges engineOrder.
Variable tasks : list task.
Variable dependencies : gmap string (list string).
Variable priority : gmap string Z.

Local Abbreviation planInv := (Planner.planInv tasks dependencies).
Local Abbreviation loopExit := (Planner.loopExit tasks dependencies).

Lemma planInv_init : planInv ∅ [].
Proof.
  clear engine_rearranges.
  split; cbn; try done; try constructor.
  all: intros; set_solver.
Qed.

Lemma planInv_size completed ps : planInv completed ps → (size completed ≤ length tasks)%nat.
Proof.
  intros [-> _ Ht _ _]. apply size_keys_le.
  intros k Hk. apply elem_of_list_to_set in Hk. apply elem_of_list_to_set.
  unfold keys in *. apply list_elem_of_fmap in Hk as (t & -> & Hin).
  apply list_elem_of_fmap_2. by apply Ht.
Qed.

(** One productive pass of the loop. *)
Lemma planInv_step completed ps phase ip :
  planInv completed ps →
  scan tasks dependencies completed ∅ = Normal (phase, ip) →
  phase ≠ [] →
  let sorted := sortBy engineOrder (compareFn priority) phase in
  commitPhase sorted (completed, ip) = (list_to_set (keys sorted) ∪ completed, ∅) ∧
  planInv (list_to_set (keys sorted) ∪ completed) (ps ++ [sorted]) ∧
  (size completed < size (list_to_set (keys sorted) ∪ completed))%nat.
Proof.
  intros Hinv Hscan Hne sorted.
  apply scan_fold in Hscan as (extra & Hph & Hsub & -> & Hnd & Hfresh & Hdeps & _).
  cbn in Hph. subst extra.
  assert (Hperm : sorted ≡ₚ phase) by (by apply sortBy_perm).
  assert (Hkeys : keys sorted ≡ₚ keys phase) by (unfold keys; by rewrite Hperm).
  assert (Hset : list_to_set (keys sorted) =@{gset string} list_to_set (keys phase)).
  { apply set_eq. intros k. rewrite !elem_of_list_to_set. by rewrite Hkeys. }
  split; [|split].
  - rewrite commitPhase_spec. f_equal. rewrite Hset. set_solver.
  - destruct Hinv as [Hc Hn Ht Hd Hp]. split.
    + rewrite concat_app. cbn. rewrite app_nil_r. unfold keys. rewrite fmap_app.
      rewrite list_to_set_app_L. fold (keys sorted). fold (keys (concat ps)).
      rewrite <- Hc. set_solver.
    + rewrite concat_app. cbn. rewrite app_nil_r. unfold keys. rewrite fmap_app.
      apply NoDup_app. split; [done|]. split.
      * intros k Hk Hk'. fold (keys sorted) in Hk'. rewrite Hkeys in Hk'.
        apply Hfresh in Hk' as [Hk' _]. apply Hk'. rewrite Hc.
        by apply elem_of_list_to_set.
      * fold (keys sorted). by rewrite Hkeys.
    + intros t. rewrite concat_app. cbn. rewrite app_nil_r.
      intros [Hin|Hin]%elem_of_app; [by apply Ht|].
      rewrite Hperm in Hin. eapply elem_of_sublist; eauto.
    + intros i p t d Hi Hin Hdep.
      destruct (decide (i < length ps)%nat) as [Hlt|Hge].
      * rewrite lookup_app_l in Hi by done.
        rewrite take_app_le by lia. eapply Hd; eauto.
      * rewrite lookup_app_r in Hi by lia.
        destruct (i - length ps)%nat eqn:Hi0; [|by destruct n].
        cbn in Hi. inversion Hi; subst p.
        assert (i = length ps) as -> by lia. rewrite take_app_length.
        rewrite Hperm in Hin. apply Hdeps in Hin.
        rewrite Forall_forall in Hin. apply Hin in Hdep.
        rewrite Hc in Hdep. by apply elem_of_list_to_set in Hdep.
    + apply Forall_app. split; [done|]. constructor; [|constructor].
      intros Hs. rewrite Hs in Hperm. symmetry in Hperm.
      by apply Permutation_nil_r in Hperm.
  - apply subset_size. destruct phase as [|t phase]; [done|].
    assert (Ht : taskKey t ∉ completed).
    { apply (Hfresh (taskKey t)). cbn. apply elem_of_cons. by left. }
    split; [set_solver|]. intros Hsub'. apply Ht, Hsub'. rewrite Hset. cbn. set_solver.
Qed.

(** The loop returns whenever the fuel covers the keys still to place
    and no key of the list ends on [Object.prototype]. *)
Lemma planLoop_spec fuel : ∀ completed ps,
  ownKeys dependencies tasks →
  planInv completed ps →
  (length tasks ≤ fuel + size completed)%nat →
  ∃ ps' logged completed',
    planLoop engineOrder fuel tasks dependencies priority completed ∅ ps
      = Some (Normal (ps', logged)) ∧
    planInv completed' ps' ∧ loopExit completed' logged.
Proof.
  induction fuel as [|fuel IH]; intros completed ps Hown Hinv Hfuel; cbn [planLoop].
  - case_decide; [lia|]. exists ps, [], completed.
    split; [done|]. split; [done|]. left. split; [lia|done].
  - case_decide as Hlt.
    + destruct (scan_returns dependencies completed tasks ([], ∅) Hown) as [[phase ip] Hscan].
      fold (scan tasks dependencies completed ∅) in Hscan. rewrite Hscan.
      destruct phase as [|t phase].
      * cbn. rewrite !bool_decide_eq_true_2 by done. cbn.
        exists ps, [cycleWarning], completed.
        split; [done|]. split; [done|]. right. split; [done|]. split; [by exists ip|done].
      * cbn [length]. rewrite bool_decide_eq_false_2 by done. cbn [andb].
        destruct (planInv_step completed ps (t :: phase) ip Hinv Hscan) as (Hcommit & Hinv' & Hsize);
          [done|].
        cbv zeta in Hcommit, Hinv', Hsize. rewrite Hcommit.
        apply IH; [done|done|lia].
    + exists ps, [], completed.
      split; [done|]. split; [done|]. left. split; [lia|done].
Qed.

Lemma buildExecutionPlan_spec :
  ownKeys dependencies tasks →
  ∃ ps logged completed,
    buildExecutionPlan engineOrder tasks dependencies priority
      = Some (Normal (finishPlan ps, logged)) ∧
    planInv completed ps ∧ loopExit completed logged.
Proof.
  intros Hown.
  destruct (planLoop_spec (length tasks) ∅ [] Hown planInv_init)
    as (ps & logged & c & Hrun & Hinv & Hexit); [lia|].
  exists ps, logged, c. split; [|done].
  unfold buildExecutionPlan, buildExecutionPlanFuel. by rewrite Hrun.
Qed.

(** A dependency recorded as placed before phase [i] sits in a phase of
    smaller index. *)
Lemma earlier_phase (ps : list (list task)) i d :
  d ∈ keys (concat (take i ps)) →
  ∃ j q, (j < i)%nat ∧ ps !! j = Some q ∧ d ∈ keys q.
Proof.
  unfold keys. intros (t & -> & Hin)%list_elem_of_fmap.
  apply elem_of_concat in Hin as (q & Hq & Hqi).
  apply elem_of_take in Hqi as (j & Hj & Hlt).
  exists j, q. repeat split; auto. by apply list_elem_of_fmap_2.
Qed.

Lemma placed_in_phase (ps : list (list task)) k :
  k ∈ keys (concat ps) → ∃ i p t, ps !! i = Some p ∧ t ∈ p ∧ taskKey t = k.
Proof.
  unfold keys. intros (t & -> & Hin)%list_elem_of_fmap.
  apply elem_of_concat in Hin as (q & Hq & Hqi).
  apply list_elem_of_lookup in Hqi as [i Hi]. by exists i, q, t.
Qed.

(** Following dependency edges from a placed task leads to strictly
    earlier phases. *)
Lemma tc_earlier completed ps x y :
  planInv completed ps →
  tc (depEdge tasks dependencies) x y →
  ∀ i p t, ps !! i = Some p → t ∈ p → taskKey t = x →
  ∃ j q t', (j < i)%nat ∧ ps !! j = Some q ∧ t' ∈ q ∧ taskKey t' = y.
Proof.
  intros Hinv. induction 1 as [x y [_ Hxy]|x y z [_ Hxy] _ IH]; intros i p t Hi Ht Hk; subst x.
  - destruct (earlier_phase ps i y) as (j & q & Hlt & Hj & Hin); [by eapply inv_deps|].
    unfold keys in Hin. apply list_elem_of_fmap in Hin as (t' & -> & Hin). by exists j, q, t'.
  - destruct (earlier_phase ps i y) as (j & q & Hlt & Hj & Hin); [by eapply inv_deps|].
    unfold keys in Hin. apply list_elem_of_fmap in Hin as (t' & Hy & Hin).
    destruct (IH j q t' Hj Hin) as (j' & q' & t'' & Hlt' & Hj' & Hin' & Hk'); [done|].
    exists j', q', t''. repeat split; auto. lia.
Qed.

(** A stuck task is never placed. *)
Lemma stuck_not_placed completed ps x :
  planInv completed ps → stuck tasks dependencies x → x ∉ keys (concat ps).
Proof.
  intros Hinv [Hcyc|(Hx & d & Hd & Hnot)] Hin;
    apply placed_in_phase in Hin as (i & p & t & Hi & Ht & Hk).
  - revert p t Hi Ht Hk. induction (lt_wf i) as [i _ IH]. intros p t Hi Ht Hk.
    destruct (tc_earlier completed ps x x Hinv Hcyc i p t Hi Ht Hk)
      as (j & q & t' & Hlt & Hj & Hin & Hk').
    by apply (IH j Hlt q t').
  - subst x. destruct (earlier_phase ps i d) as (j & q & _ & Hj & Hin); [by eapply inv_deps|].
    apply Hnot. unfold keys in *. apply list_elem_of_fmap in Hin as (t' & -> & Hin).
    apply list_elem_of_fmap_2. eapply inv_tasks; [done|].
    apply elem_of_concat. exists q. split; [done|]. by eapply list_elem_of_lookup_2.
Qed.

(** If a key of the task list is not placed, the loop was left by its
    [break]. *)
Lemma unplaced_warns completed ps logged x :
  planInv completed ps → loopExit completed logged →
  x ∈ keys tasks → x ∉ keys (concat ps) → logged = [cycleWarning].
Proof.
  intros Hinv [[Hsize _]|(_ & _ & ->)] Hx Hnot; [exfalso|done].
  assert (Hle : (size ({[x]} ∪ completed) ≤ length tasks)%nat).
  { apply size_keys_le. intros k [Hk|Hk]%elem_of_union.
    - apply elem_of_singleton in Hk as ->. by apply elem_of_list_to_set.
    - rewrite (inv_completed Hinv) in Hk. apply elem_of_list_to_set in Hk.
      apply elem_of_list_to_set. unfold keys in *.
      apply list_elem_of_fmap in Hk as (t & -> & Hin).
      apply list_elem_of_fmap_2. by eapply inv_tasks. }
  rewrite size_union in Hle.
  - rewrite size_singleton in Hle. lia.
  - rewrite (inv_completed Hinv). intros k Hk Hk'.
    apply elem_of_singleton in Hk as ->. by apply elem_of_list_to_set in Hk'.
Qed.

(** The phases hold the tasks that can be scheduled, and no other. *)
Lemma schedulable_placed completed ps logged x :
  planInv completed ps → loopExit completed logged →
  schedulable tasks dependencies x → x ∈ keys (concat ps).
Proof.
  intros Hinv Hexit. induction 1 as [x Hx _ IH].
  destruct (decide (x ∈ keys (concat ps))) as [|Hnot]; [done|exfalso].
  pose proof (unplaced_warns _ _ _ _ Hinv Hexit Hx Hnot) as ->.
  destruct Hexit as [[_ Hl]|(_ & [ip Hs] & _)]; [done|].
  apply scan_fold in Hs as (extra & Hph & _ & _ & _ & _ & _ & Hall).
  cbn in Hph. subst extra.
  unfold keys in Hx. apply list_elem_of_fmap in Hx as (t & -> & Ht).
  assert (Hin : taskKey t ∈ keys []); [|by apply elem_of_nil in Hin].
  apply Hall; [done| | |].
  - rewrite (inv_completed Hinv). by rewrite elem_of_list_to_set.
  - apply not_elem_of_empty.
  - apply Forall_forall. intros d Hd. rewrite (inv_completed Hinv).
    apply elem_of_list_to_set. by apply IH.
Qed.

Lemma placed_schedulable completed ps x :
  planInv completed ps → x ∈ keys (concat ps) → schedulable tasks dependencies x.
Proof.
  intros Hinv Hin. apply placed_in_phase in Hin as (i & p & t & Hi & Ht & <-).
  revert p t Hi Ht. induction (lt_wf i) as [i _ IH]. intros p t Hi Ht.
  constructor.
  - unfold keys. apply list_elem_of_fmap_2. apply (inv_tasks Hinv).
    apply elem_of_concat. exists p. split; [done|]. by eapply list_elem_of_lookup_2.
  - intros d Hd. destruct (earlier_phase ps i d) as (j & q & Hlt & Hj & Hin);
      [by eapply inv_deps|].
    unfold keys in Hin. apply list_elem_of_fmap in Hin as (t' & -> & Hin). by eapply IH.
Qed.

(** More fuel does not change what the loop returns. *)
Lemma planLoop_fuel_mono fuel : ∀ completed ip ps r,
  planLoop engineOrder fuel tasks dependencies priority completed ip ps = Some r →
  planLoop engineOrder (S fuel) tasks dependencies priority completed ip ps = Some r.
Proof.
  induction fuel as [|fuel IH]; intros completed ip ps r.
  - cbn. case_decide; [discriminate|done].
  - intros Hrun. cbn [planLoop] in Hrun |- *. case_decide; [|done].
    destruct (scan tasks dependencies completed ip) as [[phase ip1]|msg]; [|done].
    destruct (bool_decide (length phase = 0%nat) && _); [done|].
    destruct (commitPhase _ _) as [c2 ip2]. by apply IH.
Qed.

End Loop.

(** A task whose key ends on [Object.prototype] in the dependency map
    makes the first scan throw, whatever the engine and the priorities. *)
Lemma inherited_key_throws engineOrder tasks dependencies priority t :
  t ∈ tasks → getProperty dependencies (taskKey t) = Inherited →
  buildExecutionPlan engineOrder tasks dependencies priority = Some (Throw notAFunction).
Proof.
  intros Ht Hinh. unfold buildExecutionPlan, buildExecutionPlanFuel.
  destruct tasks as [|t0 tasks]; [by apply elem_of_nil in Ht|].
  cbn [length planLoop]. rewrite size_empty. rewrite decide_True by lia.
  unfold scan. rewrite (scan_reaches_inherited dependencies ∅ (t0 :: tasks) ([], ∅)); [done| |].
  - intros k [Hk|Hk]; by apply elem_of_empty in Hk.
  - by exists t.
Qed.

(** In a finite set where every element has a successor inside the set,
    some element reaches itself. *)
Lemma walk_finds_cycle (R : relation string) (U : gset string) :
  (∀ x, x ∈ U → ∃ y, y ∈ U ∧ R x y) →
  ∀ n (V : gset string) x,
    V ⊆ U → x ∈ U → x ∉ V → (∀ v, v ∈ V → tc R v x) →
    (size U - size V ≤ n)%nat → ∃ z, tc R z z.
Proof.
  intros Hsucc. induction n as [|n IH]; intros V x HV Hx HxV Hreach Hn.
  - exfalso. assert (size V < size U)%nat; [|lia].
    apply subset_size. split; [done|]. intros HU. by apply HxV, HU.
  - destruct (Hsucc x Hx) as (y & Hy & Hxy).
    destruct (decide (y = x)) as [->|Hne]; [exists x; by apply tc_once|].
    destruct (decide (y ∈ V)) as [HyV|HyV].
    + exists y. eapply tc_r; [by apply Hreach|done].
    + apply (IH ({[x]} ∪ V) y); auto.
      * set_solver.
      * set_solver.
      * intros v [Hv|Hv]%elem_of_union.
        -- apply elem_of_singleton in Hv as ->. by apply tc_once.
        -- eapply tc_r; [by apply Hreach|done].
      * rewrite size_union by set_solver. rewrite size_singleton.
        assert (size V < size U)%nat; [|lia].
        apply subset_size. split; [done|]. intros HU. by apply HxV, HU.
Qed.

Section Acyclic.
Variable tasks : list task.
Variable dependencies : gmap string (list string).

(** With resolvable, acyclic dependencies the loop ends only when every
    key is placed. *)
Lemma all_placed completed ps logged :
  planInv tasks dependencies completed ps →
  loopExit tasks dependencies completed logged →
  resolvable tasks dependencies → acyclic tasks dependencies →
  ∀ k, k ∈ keys tasks → k ∈ keys (concat ps).
Proof.
  intros Hinv Hexit Hres Hacy k Hk.
  destruct (decide (k ∈ keys (concat ps))) as [|Hnot]; [done|exfalso].
  pose proof (unplaced_warns _ _ _ _ _ _ Hinv Hexit Hk Hnot) as ->.
  destruct Hexit as [[_ Hl]|(_ & [ip Hs] & _)]; [done|].
  apply scan_fold in Hs as (extra & Hph & _ & _ & _ & _ & _ & Hall).
  cbn in Hph. subst extra.
  set (U := list_to_set (keys tasks) ∖ completed : gset string).
  assert (HkU : k ∈ U).
  { apply elem_of_difference. split; [by apply elem_of_list_to_set|].
    rewrite (inv_completed Hinv). by rewrite elem_of_list_to_set. }
  destruct (walk_finds_cycle (depEdge tasks dependencies) U) with (n := size U) (V := ∅ : gset string) (x := k)
    as [z Hz]; try done.
  - intros x [Hx Hxc]%elem_of_difference. apply elem_of_list_to_set in Hx.
    pose proof Hx as Hx'. unfold keys in Hx'. apply list_elem_of_fmap in Hx' as (t & -> & Ht).
    destruct (decide (Forall (λ d, d ∈ completed) (dependencySet dependencies (taskKey t))))
      as [Hf|Hf].
    + specialize (Hall t Ht Hxc (not_elem_of_empty _) Hf). by apply elem_of_nil in Hall.
    + apply not_Forall_Exists in Hf; [|solve_decision].
      apply Exists_exists in Hf as (d & Hd & Hdc). exists d. split.
      * apply elem_of_difference. split; [|done]. apply elem_of_list_to_set. by eapply Hres.
      * by split.
  - lia.
  - by apply Hacy in Hz.
Qed.

End Acyclic.

Lemma NoDup_fmap_inj_on {A B} (f : A → B) (l : list A) x y :
  NoDup (f <$> l) → x ∈ l → y ∈ l → f x = f y → x = y.
Proof.
  induction l as [|a l IH]; cbn; [by intros _ ?%elem_of_nil|].
  intros [Ha Hnd]%NoDup_cons [->|Hx]%elem_of_cons [->|Hy]%elem_of_cons Hf; auto.
  - exfalso. apply Ha. rewrite Hf. by apply list_elem_of_fmap_2.
  - exfalso. apply Ha. rewrite <- Hf. by apply list_elem_of_fmap_2.
Qed.

Lemma tc_first {A} (R : relation A) x y : tc R x y → ∃ z, R x z.
Proof. destruct 1; eauto. Qed.

Import Scenarios.

(** The keys of a concrete task list are own or no names of the
    prototype. *)
Ltac own_keys :=
  let t := fresh "t" in let Ht := fresh "Ht" in
  intros t Ht;
  repeat (apply elem_of_cons in Ht as [->|Ht]; [by vm_compute|]);
  by apply elem_of_nil in Ht.

(** C1, as stated, fails on scenario B: the input has a cycle, and plan
    construction raises nothing; it returns a plan and a logged warning.
    Beside an independent task the returned plan is partial. *)
Lemma cyclic_plan_not_raised :
  tc (depEdge tasksB dependenciesB) "T1" "T1" ∧
  (∀ engineOrder, ¬ raises (buildExecutionPlan engineOrder tasksB dependenciesB ∅)) ∧
  (∀ engineOrder,
     buildExecutionPlan engineOrder tasksB dependenciesB ∅
     = Some (Normal ({| phases := []; estimatedTime := 0; requiredAgents := NegInfinity |},
                     [cycleWarning]))) ∧
  (∀ engineOrder,
     buildExecutionPlan engineOrder tasksB3 dependenciesB ∅
     = Some (Normal ({| phases := [[T3]]; estimatedTime := 1000; requiredAgents := Num 1 |},
                     [cycleWarning]))).
Proof.
  split; [|split; [|split]].
  - apply tc_l with "T2"; [|apply tc_once]; split; vm_compute; set_solver.
  - intros engineOrder [msg Hmsg]. vm_compute in Hmsg. discriminate.
  - intros engineOrder. by vm_compute.
  - intros engineOrder. by vm_compute.
Qed.

(** C1 (amended): for every task list and dependency map in which the
    lookup of no task's key ends on [Object.prototype], plan
    construction returns (the loop ends within [length tasks] passes) and
    raises nothing, whatever the engine does with an array. The phases
    hold tasks of the list only, and a key is in a phase exactly when its
    task can be scheduled. A task that lies on a dependency cycle, or
    that names a dependency which is not a task, is in none of them; when
    there is such a task the warning is what was logged. *)
Theorem cyclic_plan_returned_with_warning engineOrder tasks dependencies priority :
  rearranges engineOrder →
  ownKeys dependencies tasks →
  ∃ pl logged,
    buildExecutionPlan engineOrder tasks dependencies priority = Some (Normal (pl, logged)) ∧
    (∀ t, t ∈ concat (phases pl) → t ∈ tasks) ∧
    (∀ x, x ∈ keys (concat (phases pl)) ↔ schedulable tasks dependencies x) ∧
    ∀ x, stuck tasks dependencies x →
         x ∉ keys (concat (phases pl)) ∧ logged = [cycleWarning].
Proof.
  intros Hengine Hown.
  destruct (buildExecutionPlan_spec engineOrder Hengine tasks dependencies priority Hown)
    as (ps & logged & c & Hrun & Hinv & Hexit).
  exists (finishPlan ps), logged. split; [done|]. cbn. split; [by eapply inv_tasks|].
  split.
  { intros x. split; [by eapply placed_schedulable|by eapply schedulable_placed]. }
  intros x Hx.
  assert (Hnot : x ∉ keys (concat ps)) by (by eapply stuck_not_placed).
  split; [done|]. eapply unplaced_warns; eauto.
  destruct Hx as [Hcyc|[Hx _]]; [|done].
  apply tc_first in Hcyc as [z [Hx _]]. done.
Qed.

(** C1 (amended), on the cycle of scenario B next to an independent
    task. *)
Lemma cyclic_plan_returned_with_warning_witness :
  ∃ pl logged,
    buildExecutionPlan keepOrder tasksB3 dependenciesB ∅ = Some (Normal (pl, logged)) ∧
    (∀ t, t ∈ concat (phases pl) → t ∈ tasksB3) ∧
    (∀ x, x ∈ keys (concat (phases pl)) ↔ schedulable tasksB3 dependenciesB x) ∧
    ∀ x, stuck tasksB3 dependenciesB x →
         x ∉ keys (concat (phases pl)) ∧ logged = [cycleWarning].
Proof.
  apply (cyclic_plan_returned_with_warning keepOrder tasksB3 dependenciesB ∅).
  - intros comparefn l. reflexivity.
  - own_keys.
Defined.

(** C2, as stated, fails without resolvability: the dependency map of
    [tasksX] has no cycle, and T1 is in no phase. *)
Lemma unresolvable_acyclic_plan_omits_task :
  acyclic tasksX dependenciesX ∧
  (∀ engineOrder,
     buildExecutionPlan engineOrder tasksX dependenciesX ∅
     = Some (Normal ({| phases := []; estimatedTime := 0; requiredAgents := NegInfinity |},
                     [cycleWarning]))) ∧
  "T1" ∈ keys tasksX ∧ "T1" ∉ keys (concat ([] : list (list task))).
Proof.
  split; [|split; [intros engineOrder; by vm_compute
                  |split; [vm_compute; set_solver|cbn; set_solver]]].
  intros x Hx. inversion Hx as [? ? [Hk Hd]|? y ? [Hk Hd] Hy]; subst.
  - vm_compute in Hk. apply list_elem_of_singleton in Hk as ->.
    vm_compute in Hd. by apply list_elem_of_singleton in Hd.
  - vm_compute in Hk. apply list_elem_of_singleton in Hk as ->.
    vm_compute in Hd. apply list_elem_of_singleton in Hd as ->.
    apply tc_first in Hy as [z [Hk _]]. vm_compute in Hk.
    by apply list_elem_of_singleton in Hk.
Qed.

(** C2 (amended): when every dependency of a task is a task of the list,
    no task depends on itself through a chain of dependencies, and the
    lookup of no task's key ends on [Object.prototype], the keys of the
    phases are without repetition and are exactly the keys of the task
    list, every task of a phase is a task of the list, and each
    dependency of a task of phase [i] is in a phase [j < i]. When the keys
    of the list are distinct, the phases together are a rearrangement of
    the list and nothing is logged. *)
Theorem plan_partitions_tasks engineOrder tasks dependencies priority :
  rearranges engineOrder →
  ownKeys dependencies tasks →
  resolvable tasks dependencies →
  acyclic tasks dependencies →
  ∃ pl logged,
    buildExecutionPlan engineOrder tasks dependencies priority = Some (Normal (pl, logged)) ∧
    NoDup (keys (concat (phases pl))) ∧
    (∀ k, k ∈ keys (concat (phases pl)) ↔ k ∈ keys tasks) ∧
    (∀ t, t ∈ concat (phases pl) → t ∈ tasks) ∧
    (∀ i p t d, phases pl !! i = Some p → t ∈ p →
       d ∈ dependencySet dependencies (taskKey t) →
       ∃ j q, (j < i)%nat ∧ phases pl !! j = Some q ∧ d ∈ keys q) ∧
    (NoDup (keys tasks) → concat (phases pl) ≡ₚ tasks ∧ logged = []).
Proof.
  intros Hengine Hown Hres Hacy.
  destruct (buildExecutionPlan_spec engineOrder Hengine tasks dependencies priority Hown)
    as (ps & logged & c & Hrun & Hinv & Hexit).
  pose proof (all_placed _ _ _ _ _ Hinv Hexit Hres Hacy) as Hall.
  exists (finishPlan ps), logged. cbn.
  assert (Hsub : ∀ t, t ∈ concat ps → t ∈ tasks) by (by eapply inv_tasks).
  assert (Hkeys : ∀ k, k ∈ keys (concat ps) ↔ k ∈ keys tasks).
  { intros k. split; [|by apply Hall]. unfold keys.
    intros (t & -> & Hin)%list_elem_of_fmap. apply list_elem_of_fmap_2. by apply Hsub. }
  split; [done|]. split; [by eapply inv_nodup|]. split; [done|]. split; [done|].
  split.
  { intros i p t d Hi Ht Hd. apply earlier_phase. by eapply inv_deps. }
  intros Hnd. split.
  - apply NoDup_Permutation.
    + eapply NoDup_fmap_1, inv_nodup; eauto.
    + by eapply NoDup_fmap_1.
    + intros t. split; [by apply Hsub|]. intros Ht.
      assert (Hk : taskKey t ∈ keys (concat ps)) by (apply Hall; by apply list_elem_of_fmap_2).
      unfold keys in Hk. apply list_elem_of_fmap in Hk as (t' & Heq & Hin).
      assert (t = t') as ->; [|done].
      eapply (NoDup_fmap_inj_on taskKey tasks); eauto.
  - destruct Hexit as [[_ ->]|(Hlt & _ & _)]; [done|exfalso].
    assert (c = list_to_set (keys tasks)) as ->.
    { rewrite (inv_completed Hinv). apply set_eq. intros k.
      rewrite !elem_of_list_to_set. apply Hkeys. }
    rewrite size_list_to_set in Hlt by done. unfold keys in Hlt.
    rewrite length_fmap in Hlt. lia.
Qed.

(** C2 (amended), on scenario A. *)
Lemma plan_partitions_tasks_witness :
  ∃ pl logged,
    buildExecutionPlan keepOrder tasksA dependenciesA priorityA = Some (Normal (pl, logged)) ∧
    NoDup (keys (concat (phases pl))) ∧
    (∀ k, k ∈ keys (concat (phases pl)) ↔ k ∈ keys tasksA) ∧
    (∀ t, t ∈ concat (phases pl) → t ∈ tasksA) ∧
    (∀ i p t d, phases pl !! i = Some p → t ∈ p →
       d ∈ dependencySet dependenciesA (taskKey t) →
       ∃ j q, (j < i)%nat ∧ phases pl !! j = Some q ∧ d ∈ keys q) ∧
    (NoDup (keys tasksA) → concat (phases pl) ≡ₚ tasksA ∧ logged = []).
Proof.
  apply (plan_partitions_tasks keepOrder tasksA dependenciesA priorityA).
  - intros comparefn l. reflexivity.
  - own_keys.
  - intros x d Hx Hd. vm_compute in Hx.
    apply elem_of_cons in Hx as [->|Hx]; [vm_compute in Hd; by apply elem_of_nil in Hd|].
    apply elem_of_cons in Hx as [->|Hx].
    + vm_compute in Hd. apply list_elem_of_singleton in Hd as ->. vm_compute. set_solver.
    + apply list_elem_of_singleton in Hx as ->. vm_compute in Hd. by apply elem_of_nil in Hd.
  - intros x Hx.
    assert (Hedge : ∀ a b, depEdge tasksA dependenciesA a b → a = "T2" ∧ b = "T1").
    { intros a b [Ha Hb]. vm_compute in Ha.
      apply elem_of_cons in Ha as [->|Ha]; [vm_compute in Hb; by apply elem_of_nil in Hb|].
      apply elem_of_cons in Ha as [->|Ha].
      - vm_compute in Hb. by apply list_elem_of_singleton in Hb as ->.
      - apply list_elem_of_singleton in Ha as ->. vm_compute in Hb. by apply elem_of_nil in Hb. }
    inversion Hx as [? ? He|? y ? He Hy]; subst.
    + apply Hedge in He as [-> He]. discriminate He.
    + apply Hedge in He as [-> ->]. apply tc_first in Hy as [z Hz].
      apply Hedge in Hz as [Hz _]. discriminate Hz.
Defined.

(** C8 on the code: the priority of a task is looked up with
    [priority[key] || 0], which for a key such as "constructor" finds a
    member of [Object.prototype] and no number. The comparator is then
    [NaN], which [sort] takes for 0: the task named "constructor", whose
    priority counts as 0, stays before the task of priority 5, whatever
    the engine. Without its entry in the dependency map the same list
    makes [deps.every] throw. Scenario A yields the plan
    [[T3, T1], [T2]]. *)
Theorem inherited_priority_breaks_order :
  priorityValue priorityP (taskKey Tc) = 0%Z ∧
  priorityValue priorityP (taskKey T1) = 5%Z ∧
  compareFn priorityP T1 Tc = None ∧
  compareFn priorityP Tc T1 = None ∧
  (∀ engineOrder,
     buildExecutionPlan engineOrder tasksP dependenciesP priorityP
     = Some (Normal ({| phases := [[Tc; T1]]; estimatedTime := 1000;
                        requiredAgents := Num 2 |}, []))) ∧
  ¬ StronglySorted (prioGe priorityP) [Tc; T1] ∧
  (∀ engineOrder,
     buildExecutionPlan engineOrder tasksP ∅ priorityP = Some (Throw notAFunction)) ∧
  (∀ engineOrder,
     buildExecutionPlan engineOrder tasksA dependenciesA priorityA
     = Some (Normal ({| phases := [[T3; T1]; [T2]]; estimatedTime := 2000;
                        requiredAgents := Num 2 |}, []))).
Proof.
  split; [done|]. split; [done|]. split; [done|]. split; [done|].
  split; [intros engineOrder; by vm_compute|].
  split.
  { intros Hs. apply StronglySorted_inv in Hs as [_ Hall].
    apply Forall_cons in Hall as [Hle _]. vm_compute in Hle. by apply Hle. }
  split; intros engineOrder; by vm_compute.
Qed.

End PlannerFacts.

(** ** The dispatcher *)

Module DispatchFacts.
Import Controller.

Section Dispatch.
Variable execute : Task.t -> Agent.t -> completion payloadResult.
Variable elapsed : Task.t -> Z.

(** What a promise settles to does not depend on the registry at the
    time it settles. *)
Lemma settleTask_fst p st st' :
  (settleTask execute elapsed p st).1 = (settleTask execute elapsed p st').1.
Proof. unfold settleTask. by destruct (execute _ _). Qed.

Lemma settleTask_parallel p st :
  max_parallel_tasks (settleTask execute elapsed p st).2 = max_parallel_tasks st.
Proof. unfold settleTask. by destruct (execute _ _). Qed.

Lemma settleTask_counter p st :
  taskIdCounter (settleTask execute elapsed p st).2 = taskIdCounter st.
Proof. unfold settleTask. by destruct (execute _ _). Qed.

Lemma selectBestAgent_counter task st :
  taskIdCounter (selectBestAgent task st).2 = taskIdCounter st.
Proof.
  unfold selectBestAgent. case_bool_decide; [done|].
  by destruct (filter _ (filter _ _)).
Qed.

(** Every started task takes one task id. *)
Lemma startTask_counter task st :
  taskIdCounter (startTask task st).2 = S (taskIdCounter st).
Proof.
  unfold startTask.
  match goal with |- context [selectBestAgent ?t ?s] =>
    pose proof (selectBestAgent_counter t s) as Hc;
    destruct (selectBestAgent t s) as [best st2] end.
  cbn in *. done.
Qed.

Lemma executeTask_fst task st st' :
  (executeTask execute elapsed task st).1
  = (settleTask execute elapsed (startTask task st).1 st').1.
Proof.
  unfold executeTask. destruct (startTask task st) as [p st1]. cbn.
  apply settleTask_fst.
Qed.

Lemma startBatch_fold batch : ∀ acc st ps st',
  foldl (fun a task => let '(p, s) := startTask task a.2 in (a.1 ++ [p], s)) (acc, st) batch
    = (ps, st') →
  ∃ new, ps = acc ++ new ∧
         taskIdCounter st' = (taskIdCounter st + length batch)%nat ∧
         Forall2 (λ task p, ∃ st0, p = (startTask task st0).1) batch new.
Proof.
  induction batch as [|task batch IH]; intros acc st ps st' Hf; cbn in Hf.
  - inversion Hf; subst. exists []. rewrite app_nil_r. cbn. repeat split; [lia|constructor].
  - pose proof (startTask_counter task st) as Hc.
    destruct (startTask task st) as [p s] eqn:Hs.
    apply IH in Hf as (new & -> & Hn & Hall).
    exists (p :: new). rewrite <- app_assoc. split; [done|].
    split; [cbn in *; lia|].
    constructor; [|done]. exists st. by rewrite Hs.
Qed.

Lemma settleBatch_fold ps : ∀ acc st rs st',
  foldl (fun a p => let '(r, s) := settleTask execute elapsed p a.2 in (a.1 ++ [r], s))
        (acc, st) ps = (rs, st') →
  ∃ new, rs = acc ++ new ∧
         taskIdCounter st' = taskIdCounter st ∧
         Forall2 (λ p r, ∀ st0, r = (settleTask execute elapsed p st0).1) ps new.
Proof.
  induction ps as [|p ps IH]; intros acc st rs st' Hf; cbn in Hf.
  - inversion Hf; subst. exists []. rewrite app_nil_r. repeat split; constructor.
  - pose proof (settleTask_counter p st) as Hc.
    destruct (settleTask execute elapsed p st) as [r s] eqn:Hs.
    apply IH in Hf as (new & -> & Hn & Hall).
    exists (r :: new). rewrite <- app_assoc. split; [done|].
    split; [cbn in *; lia|].
    constructor; [|done]. intros st0.
    rewrite (settleTask_fst p st0 st). by rewrite Hs.
Qed.

(** One batch: a result per task, in the order of the batch. *)
Lemma batch_outcomes batch st ps st1 rs st2 :
  startBatch batch st = (ps, st1) →
  settleBatch execute elapsed ps st1 = (rs, st2) →
  taskIdCounter st2 = (taskIdCounter st + length batch)%nat ∧
  Forall2 (outcomeOf execute elapsed) batch rs.
Proof.
  intros Hstart Hsettle.
  apply startBatch_fold in Hstart as (new & -> & Hn & Hs).
  apply settleBatch_fold in Hsettle as (new' & -> & Hn' & Hr). cbn in *.
  split; [lia|]. clear Hn Hn'.
  revert new' Hr. induction Hs as [|task p batch ps [st0 ->] _ IH]; intros new' Hr.
  - inversion Hr. constructor.
  - inversion Hr as [|? r ? rs' Hp Hrest]; subst. constructor; [|by apply IH].
    exists st0. rewrite (Hp st0). symmetry. apply executeTask_fst.
Qed.

Lemma slice_step {A} (l : list A) i m :
  drop i l = slice i (i + m) l ++ drop (i + m) l.
Proof.
  unfold slice. replace (i + m - i)%nat with m by lia.
  rewrite <- (take_drop m (drop i l)) at 1. f_equal.
  rewrite drop_drop. f_equal.
Qed.

(** The loop, from index [i]: it returns, having cut the rest of the
    list into batches and appended a result per task. *)
Lemma dispatchLoop_spec maxParallel tasks fuel : ∀ i acc,
  (1 ≤ maxParallel)%nat →
  (length tasks ≤ fuel + i)%nat →
  ∃ d bs rs,
    dispatchLoop execute elapsed fuel maxParallel i tasks acc = Some d ∧
    batches d = batches acc ++ bs ∧
    results d = results acc ++ rs ∧
    concat bs = drop i tasks ∧
    Forall (λ b, (1 ≤ length b ≤ maxParallel)%nat) bs ∧
    Forall2 (outcomeOf execute elapsed) (drop i tasks) rs ∧
    taskIdCounter (final d) = (taskIdCounter (final acc) + length (drop i tasks))%nat.
Proof.
  induction fuel as [|fuel IH]; intros i acc Hpos Hfuel; cbn [dispatchLoop].
  - case_decide; [lia|]. exists acc, [], []. rewrite !app_nil_r, drop_ge by lia.
    cbn. repeat split; try constructor. lia.
  - case_decide as Hlt.
    + destruct (startBatch _ _) as [ps st1] eqn:Hstart.
      destruct (settleBatch _ _ _ _) as [brs st2] eqn:Hsettle.
      pose proof (batch_outcomes _ _ _ _ _ _ Hstart Hsettle) as [Hcount Hout].
      edestruct (IH (i + maxParallel)%nat) as
        (d & bs & rs & Hrun & Hb & Hr & Hcat & Hlen & Hall & Hc); [done|lia|].
      exists d, (slice i (i + maxParallel) tasks :: bs), (brs ++ rs).
      split; [exact Hrun|]. cbn in Hb, Hr, Hc.
      rewrite Hb, Hr, <- !app_assoc. cbn.
      split; [done|]. split; [done|]. split; [|split; [|split]].
      * rewrite Hcat. symmetry. apply slice_step.
      * constructor; [|done]. unfold slice. rewrite length_take, length_drop. lia.
      * rewrite (slice_step tasks i maxParallel). by apply Forall2_app.
      * rewrite Hc, Hcount. rewrite (slice_step tasks i maxParallel).
        rewrite length_app. unfold slice. rewrite !length_take, !length_drop. lia.
    + exists acc, [], []. rewrite !app_nil_r, drop_ge by lia.
      cbn. repeat split; try constructor. lia.
Qed.

(** More fuel does not change what the loop returns. *)
Lemma dispatchLoop_fuel_mono maxParallel tasks fuel : ∀ i acc d,
  dispatchLoop execute elapsed fuel maxParallel i tasks acc = Some d →
  dispatchLoop execute elapsed (S fuel) maxParallel i tasks acc = Some d.
Proof.
  induction fuel as [|fuel IH]; intros i acc d.
  - cbn. case_decide; [discriminate|done].
  - intros Hrun. cbn [dispatchLoop] in Hrun |- *. case_decide; [|done].
    destruct (startBatch _ _) as [ps st1]. destruct (settleBatch _ _ _ _) as [rs st2].
    by apply IH.
Qed.

(** What [executeTask] writes to the log. *)
Lemma selectBestAgent_journal task st :
  journal (selectBestAgent task st).2 = journal st.
Proof.
  unfold selectBestAgent. case_bool_decide; [done|].
  by destruct (filter _ (filter _ _)).
Qed.

Lemma startTask_journal task st :
  journal (startTask task st).2
  = journal st ++ [Start ("task_" +:+ pretty (taskIdCounter st))] ∧
  taskIdOf (startedTask (startTask task st).1) = "task_" +:+ pretty (taskIdCounter st).
Proof.
  unfold startTask.
  match goal with |- context [selectBestAgent ?t ?s] =>
    pose proof (selectBestAgent_journal t s) as Hj;
    destruct (selectBestAgent t s) as [best st2] end.
  cbn in *. by rewrite Hj.
Qed.

Lemma settleTask_journal p st :
  journal (settleTask execute elapsed p st).2
  = journal st ++ [Settle (taskIdOf (startedTask p))].
Proof. unfold settleTask. by destruct (execute _ _). Qed.

Lemma taskIds_S c n : taskIds c (S n) = ("task_" +:+ pretty c) :: taskIds (S c) n.
Proof. done. Qed.

Lemma length_taskIds c n : length (taskIds c n) = n.
Proof. unfold taskIds. by rewrite length_fmap, length_seq. Qed.

Lemma startBatch_journal batch : ∀ acc st ps st',
  foldl (fun a task => let '(p, s) := startTask task a.2 in (a.1 ++ [p], s)) (acc, st) batch
    = (ps, st') →
  ∃ new, ps = acc ++ new ∧
         journal st' = journal st ++ (Start <$> taskIds (taskIdCounter st) (length batch)) ∧
         taskIdOf ∘ startedTask <$> new = taskIds (taskIdCounter st) (length batch).
Proof.
  induction batch as [|task batch IH]; intros acc st ps st' Hf; cbn in Hf.
  - inversion Hf; subst. exists []. by rewrite !app_nil_r.
  - pose proof (startTask_counter task st) as Hc.
    pose proof (startTask_journal task st) as [Hj Hid].
    destruct (startTask task st) as [p s] eqn:Hs. cbn [fst snd] in *.
    apply IH in Hf as (new & -> & Hn & Hids). rewrite Hc in Hn, Hids.
    exists (p :: new). rewrite <- app_assoc. split; [done|].
    cbn [length]. rewrite taskIds_S, Hn, Hj, <- app_assoc. split; [done|].
    cbn. by rewrite Hid, <- Hids.
Qed.

Lemma settleBatch_journal ps : ∀ acc st rs st',
  foldl (fun a p => let '(r, s) := settleTask execute elapsed p a.2 in (a.1 ++ [r], s))
        (acc, st) ps = (rs, st') →
  journal st' = journal st ++ (Settle <$> (taskIdOf ∘ startedTask <$> ps)).
Proof.
  induction ps as [|p ps IH]; intros acc st rs st' Hf; cbn in Hf.
  - inversion Hf; subst. by rewrite app_nil_r.
  - pose proof (settleTask_journal p st) as Hj.
    destruct (settleTask execute elapsed p st) as [r s] eqn:Hs. cbn [snd] in *.
    apply IH in Hf. rewrite Hf, Hj, <- app_assoc. done.
Qed.

(** The log of a dispatch: each pass of the loop writes the starts of
    its batch and then the settlements of the same tasks. *)
Lemma dispatchLoop_journal maxParallel tasks fuel : ∀ i acc d,
  dispatchLoop execute elapsed fuel maxParallel i tasks acc = Some d →
  ∃ bs tr,
    batches d = batches acc ++ bs ∧
    journal (final d) = journal (final acc) ++ tr ∧
    runsOf (taskIdCounter (final acc)) (length <$> bs) tr.
Proof.
  induction fuel as [|fuel IH]; intros i acc d; cbn [dispatchLoop].
  - case_decide; [discriminate|]. intros [= <-]. exists [], [].
    rewrite !app_nil_r. repeat split. constructor.
  - case_decide as Hlt.
    + destruct (startBatch _ _) as [ps st1] eqn:Hstart.
      destruct (settleBatch _ _ _ _) as [brs st2] eqn:Hsettle.
      intros Hrun. apply IH in Hrun as (bs & tr & Hb & Hj & Hruns). cbn in Hb, Hj, Hruns.
      pose proof (batch_outcomes _ _ _ _ _ _ Hstart Hsettle) as [Hcount _].
      apply startBatch_journal in Hstart as (new & Hps & Hj1 & Hids). cbn in Hps. subst new.
      apply settleBatch_journal in Hsettle as Hj2.
      set (batch := slice i (i + maxParallel) tasks) in *.
      exists (batch :: bs),
        ((Start <$> taskIds (taskIdCounter (final acc)) (length batch)) ++
         (Settle <$> taskIds (taskIdCounter (final acc)) (length batch)) ++ tr).
      split; [by rewrite Hb, <- app_assoc|].
      split; [rewrite Hj, Hj2, Hj1, Hids, <- !app_assoc; done|].
      cbn [fmap list_fmap]. constructor; [done|]. by rewrite <- Hcount.
    + intros [= <-]. exists [], []. rewrite !app_nil_r. repeat split. constructor.
Qed.

End Dispatch.

(** Counting along a run. *)
Lemma running_from z tr :
  foldl (fun n e => match e with Start _ => (n + 1)%Z | Settle _ => (n - 1)%Z end) z tr
  = (z + running tr)%Z.
Proof.
  unfold running. revert z. induction tr as [|e tr IH]; intros z; cbn; [lia|].
  rewrite IH, (IH (match e with Start _ => _ | Settle _ => _ end)). destruct e; lia.
Qed.

Lemma running_app tr1 tr2 : running (tr1 ++ tr2) = (running tr1 + running tr2)%Z.
Proof. unfold running at 1. rewrite foldl_app. fold (running tr1). apply running_from. Qed.

Lemma running_starts n (b : list string) :
  running (take n (Start <$> b)) = Z.of_nat (n `min` length b).
Proof.
  revert n. induction b as [|t b IH]; intros [|n]; try done.
  change (take (S n) (Start <$> t :: b)) with ([Start t] ++ take n (Start <$> b)).
  rewrite running_app, IH. cbn [length]. unfold running. cbn. lia.
Qed.

Lemma running_settles n (o : list string) :
  running (take n (Settle <$> o)) = (- Z.of_nat (n `min` length o))%Z.
Proof.
  revert n. induction o as [|t o IH]; intros [|n]; try done.
  change (take (S n) (Settle <$> t :: o)) with ([Settle t] ++ take n (Settle <$> o)).
  rewrite running_app, IH. cbn [length]. unfold running. cbn. lia.
Qed.

(** In a run of batches of at most [m] tasks, at most [m] tasks are
    between their start and their settlement at any point. *)
Lemma runs_bounded (m : nat) c sizes tr :
  Forall (λ n, (n ≤ m)%nat) sizes →
  runsOf c sizes tr → ∀ n, (0 ≤ running (take n tr) ≤ Z.of_nat m)%Z.
Proof.
  intros Hall Hruns. induction Hruns as [|c k o rest tr Hperm _ IH]; intros n.
  - rewrite take_nil. cbn. lia.
  - apply Forall_cons in Hall as [Hb Hrest]. specialize (IH Hrest).
    rewrite !take_app, !running_app, running_starts, running_settles.
    rewrite !length_fmap. apply Permutation_length in Hperm.
    rewrite length_taskIds in *.
    destruct (decide (n ≤ k + length o)%nat) as [Hle|Hgt].
    + replace (n - k - length o)%nat with 0%nat by lia. rewrite take_0. cbn. lia.
    + specialize (IH (n - k - length o)%nat). lia.
Qed.

(** Every task of a finished run has settled. *)
Lemma runs_complete c sizes tr : runsOf c sizes tr → running tr = 0%Z.
Proof.
  induction 1 as [|c k o rest tr Hperm _ IH]; [done|].
  rewrite !running_app, IH.
  rewrite <- (take_ge (Start <$> taskIds c k) k) by (rewrite length_fmap, length_taskIds; lia).
  rewrite <- (take_ge (Settle <$> o) (length o)) by (rewrite length_fmap; lia).
  rewrite running_starts, running_settles. apply Permutation_length in Hperm.
  rewrite length_taskIds in *. lia.
Qed.

(** A run of consecutive batches is a run of the first ones followed by
    a run of the others. *)
Lemma runs_split c sizes1 sizes2 tr :
  runsOf c (sizes1 ++ sizes2) tr →
  ∃ tr1 tr2, tr = tr1 ++ tr2 ∧ runsOf c sizes1 tr1 ∧
             runsOf (c + foldr Nat.add 0 sizes1) sizes2 tr2.
Proof.
  revert c tr. induction sizes1 as [|k sizes1 IH]; intros c tr Hruns; cbn in Hruns.
  - exists [], tr. cbn. rewrite Nat.add_0_r. repeat split; [constructor|done].
  - inversion Hruns as [|? ? o ? tr' Hperm Hrest]; subst.
    apply IH in Hrest as (tr1 & tr2 & -> & H1 & H2).
    exists ((Start <$> taskIds c k) ++ (Settle <$> o) ++ tr1), tr2.
    rewrite <- !app_assoc. cbn [foldr]. rewrite Nat.add_assoc.
    repeat split; [by constructor|done].
Qed.

Section Claims.
Variable execute : Task.t -> Agent.t -> completion payloadResult.
Variable elapsed : Task.t -> Z.

(** C6: with [max_parallel_tasks] at least 1, [executeParallelTasks]
    returns, having dispatched consecutive batches that together are the
    task list, each of at least one and at most [max_parallel_tasks]
    tasks. What its calls of [executeTask] have written to the log is a
    run of these batches: the starts of a batch, then the settlements of
    the same tasks, then the next batch. In every such run, in whatever
    order the tasks of a batch settle, no later batch starts before all
    tasks of the earlier ones have settled, and at no point are more
    than [max_parallel_tasks] tasks started and not yet settled. *)
Theorem dispatch_bounded tasks st :
  (1 ≤ max_parallel_tasks st)%nat →
  ∃ d, executeParallelTasks execute elapsed tasks st = Some d ∧
       concat (batches d) = tasks ∧
       Forall (λ b, (1 ≤ length b ≤ max_parallel_tasks st)%nat) (batches d) ∧
       (∃ tr, journal (final d) = journal st ++ tr ∧
              runsOf (taskIdCounter st) (length <$> batches d) tr) ∧
       ∀ tr, runsOf (taskIdCounter st) (length <$> batches d) tr →
         (∀ earlier later, batches d = earlier ++ later →
            ∃ tr1 tr2, tr = tr1 ++ tr2 ∧
                       runsOf (taskIdCounter st) (length <$> earlier) tr1 ∧
                       runsOf (taskIdCounter st + length (concat earlier))
                              (length <$> later) tr2 ∧
                       running tr1 = 0%Z) ∧
         (∀ n, (0 ≤ running (take n tr) ≤ Z.of_nat (max_parallel_tasks st))%Z).
Proof.
  intros Hpos.
  destruct (dispatchLoop_spec execute elapsed (max_parallel_tasks st) tasks (length tasks) 0
              {| results := []; batches := []; final := st |} Hpos)
    as (d & bs & rs & Hrun & Hb & _ & Hcat & Hlen & _ & _); [lia|].
  cbn in Hb. subst bs. exists d. split; [done|]. split; [done|]. split; [done|].
  split.
  { apply dispatchLoop_journal in Hrun as (bs & tr & Hb & Hj & Hruns).
    cbn in Hb, Hj, Hruns. subst bs. by exists tr. }
  intros tr Hruns. split.
  - intros earlier later Heq. rewrite Heq, fmap_app in Hruns.
    apply runs_split in Hruns as (tr1 & tr2 & -> & H1 & H2).
    exists tr1, tr2. split; [done|]. split; [done|]. split.
    + replace (length (concat earlier)) with (foldr Nat.add 0 (length <$> earlier)); [done|].
      clear. induction earlier as [|b bs IH]; cbn; [done|]. by rewrite length_app, IH.
    + by eapply runs_complete.
  - intros n. eapply runs_bounded; [|done].
    apply Forall_fmap. eapply Forall_impl; [exact Hlen|]. cbn. lia.
Qed.

(** C7: with [max_parallel_tasks] at least 1, [executeParallelTasks]
    returns one result per task, in the order of the tasks, having
    started each task once (one task id taken per task), and the result
    at the place of a task is what [executeTask] settles to for that
    task: fulfilled with the completed task when its payload returns,
    rejected with the payload's error when it throws. *)
Theorem dispatch_settles_every_task tasks st :
  (1 ≤ max_parallel_tasks st)%nat →
  ∃ d, executeParallelTasks execute elapsed tasks st = Some d ∧
       length (results d) = length tasks ∧
       taskIdCounter (final d) = (taskIdCounter st + length tasks)%nat ∧
       Forall2 (outcomeOf execute elapsed) tasks (results d) ∧
       ∀ task st0,
         match (executeTask execute elapsed task st0).1 with
         | fulfilled v =>
             Task.name v = Task.name task ∧ Task.status v = Some completed ∧
             Task.id v = Some ("task_" +:+ pretty (taskIdCounter st0)) ∧
             ∃ a res, execute (startTask task st0).1.(startedTask) a = Normal res ∧
                      Task.result v = Some res
         | rejected msg =>
             ∃ a, execute (startTask task st0).1.(startedTask) a = Throw msg
         end.
Proof.
  intros Hpos.
  destruct (dispatchLoop_spec execute elapsed (max_parallel_tasks st) tasks (length tasks) 0
              {| results := []; batches := []; final := st |} Hpos)
    as (d & bs & rs & Hrun & _ & Hr & _ & _ & Hall & Hc); [lia|].
  cbn in Hr, Hc. subst rs. rewrite drop_0 in Hall, Hc.
  exists d. split; [done|]. split; [symmetry; by eapply Forall2_length|].
  split; [done|]. split; [done|].
  intros task st0. rewrite (executeTask_fst execute elapsed task st0 st0).
  unfold startTask. destruct (selectBestAgent _ _) as [best st2]. cbn [fst startedTask].
  unfold settleTask, settledTask. cbn [startedTask startedAgent].
  destruct (execute _ _) as [res|msg] eqn:Hex; cbn.
  - repeat split; eauto.
  - eauto.
Qed.

End Claims.

Import Scenarios.

(** C6 on three tasks dispatched two at a time. *)
Lemma dispatch_bounded_witness :
  ∃ d, executeParallelTasks flaky fixedClock demoTasks pairController = Some d ∧
       concat (batches d) = demoTasks ∧
       Forall (λ b, (1 ≤ length b ≤ 2)%nat) (batches d) ∧
       (∃ tr, journal (final d) = journal pairController ++ tr ∧
              runsOf 1 (length <$> batches d) tr) ∧
       ∀ tr, runsOf 1 (length <$> batches d) tr →
         (∀ earlier later, batches d = earlier ++ later →
            ∃ tr1 tr2, tr = tr1 ++ tr2 ∧
                       runsOf 1 (length <$> earlier) tr1 ∧
                       runsOf (1 + length (concat earlier)) (length <$> later) tr2 ∧
                       running tr1 = 0%Z) ∧
         (∀ n, (0 ≤ running (take n tr) ≤ 2)%Z).
Proof. apply (dispatch_bounded flaky fixedClock demoTasks pairController). cbn. lia. Defined.

(** C7 on the same tasks: the second payload throws, and three results
    are returned. *)
Lemma dispatch_settles_every_task_witness :
  ∃ d, executeParallelTasks flaky fixedClock demoTasks pairController = Some d ∧
       length (results d) = length demoTasks ∧
       taskIdCounter (final d) = (taskIdCounter pairController + length demoTasks)%nat ∧
       Forall2 (outcomeOf flaky fixedClock) demoTasks (results d) ∧
       ∀ task st0,
         match (executeTask flaky fixedClock task st0).1 with
         | fulfilled v =>
             Task.name v = Task.name task ∧ Task.status v = Some completed ∧
             Task.id v = Some ("task_" +:+ pretty (taskIdCounter st0)) ∧
             ∃ a res, flaky (startTask task st0).1.(startedTask) a = Normal res ∧
                      Task.result v = Some res
         | rejected msg =>
             ∃ a, flaky (startTask task st0).1.(startedTask) a = Throw msg
         end.
Proof.
  apply (dispatch_settles_every_task flaky fixedClock demoTasks pairController). cbn. lia.
Defined.

(** The run of the witness: which results come back, and what the log
    holds. *)
Example dispatch_demo :
  (λ d, (batches d,
         (λ r, match r with
               | fulfilled v => (Task.id v, Task.name v, Task.status v)
               | rejected msg => (None, msg, Some failed)
               end) <$> results d,
         journal (final d)))
    <$> executeParallelTasks flaky fixedClock demoTasks pairController
  = Some ([[newTask "Lint Code" (Some ["code_analysis"]);
            newTask "Format Code" (Some ["formatting"])];
           [newTask "Check Types" (Some ["type_checking"])]],
          [(Some "task_1", "Lint Code", Some completed);
           (None, "formatter crashed", Some failed);
           (Some "task_3", "Check Types", Some completed)],
          [Start "task_1"; Start "task_2"; Settle "task_1"; Settle "task_2";
           Start "task_3"; Settle "task_3"]).
Proof. by vm_compute. Qed.

(** With [max_parallel_tasks] at 0 the index never moves: no amount of
    fuel lets the loop return on a non-empty list. *)
Lemma dispatch_zero_diverges execute elapsed fuel tasks acc :
  tasks ≠ [] → dispatchLoop execute elapsed fuel 0 0 tasks acc = None.
Proof.
  intros Hne. revert acc. induction fuel as [|fuel IH]; intros acc; cbn [dispatchLoop].
  - case_decide as Hlt; [done|]. destruct tasks; [done|cbn in Hlt; lia].
  - case_decide as Hlt; [|destruct tasks; [done|cbn in Hlt; lia]].
    destruct (startBatch _ _) as [ps st1]. destruct (settleBatch _ _ _ _) as [rs st2].
    apply IH.
Qed.

End DispatchFacts.

(** ** Agent selection and spawning *)

Module SelectorFacts.
Import Scenarios.

Lemma faster_fold_in first rest :
  foldl Controller.faster first rest ∈ first :: rest.
Proof.
  revert first. induction rest as [|a rest IH]; intros first; cbn.
  - apply elem_of_cons. by left.
  - specialize (IH (Controller.faster first a)).
    apply elem_of_cons in IH as [->|IH].
    + unfold Controller.faster. destruct (Double.ltb _ _); set_solver.
    + set_solver.
Qed.

Lemma mapSet_in a l : a ∈ Controller.mapSet a l.
Proof.
  induction l as [|b l IH]; cbn; [set_solver|]. case_decide; set_solver.
Qed.

Lemma select_fold_in toLowerCase task l : ∀ best s a s',
  foldl (Master.selectStep toLowerCase task) (best, s) l = (Some a, s') →
  best = Some a ∨ a ∈ l.
Proof.
  induction l as [|b l IH]; intros best s a s' Hf; cbn in Hf.
  - inversion Hf. by left.
  - unfold Master.selectStep at 2 in Hf. cbn [snd] in Hf.
    destruct (Double.ltb s (Master.score toLowerCase task b));
      apply IH in Hf as [Hf|Hf]; set_solver.
Qed.

Lemma master_select_in toLowerCase task st a :
  Master.selectBestAgent toLowerCase task st = Some a → a ∈ Master.agents st.
Proof.
  unfold Master.selectBestAgent.
  destruct (foldl _ _ _) as [best s] eqn:Hf. cbn. intros ->.
  by apply select_fold_in in Hf as [?|?].
Qed.

(** C5, as stated, fails for the selector of the master orchestrator:
    the only agent is at work and is returned. *)
Lemma master_selects_working_agent :
  (∀ toLowerCase,
     Master.selectBestAgent toLowerCase countedTask busyShop
     = Some (masterAgent "a1" 9 Master.working)) ∧
  Master.Agent.status (masterAgent "a1" 9 Master.working) ≠ Master.idle.
Proof. split; [intros toLowerCase; by vm_compute|discriminate]. Qed.

(** C5 (amended): the selector of the controller returns, for every task
    and registry, an agent whose status is idle and which is in the
    registry it leaves. The selector of the master orchestrator only
    adds 3 to the score of an idle agent; when the agent it returns is
    not idle, [assignTask] queues the task and assigns nothing, so that
    an agent is assigned a task only when it is idle. *)
Theorem selected_agent_idle_or_task_queued :
  (∀ task st,
     Controller.Agent.status (Controller.selectBestAgent task st).1 = Controller.idle ∧
     (Controller.selectBestAgent task st).1
       ∈ Controller.agents (Controller.selectBestAgent task st).2) ∧
  (∀ toLowerCase startFails task st key st',
     Master.assignTask toLowerCase startFails task st = (Some key, st') →
     ∃ a, Master.selectBestAgent toLowerCase task st = Some a ∧ a ∈ Master.agents st ∧
          Master.Agent.id a = key ∧ Master.Agent.status a = Master.idle) ∧
  (∀ toLowerCase startFails task st a,
     Master.selectBestAgent toLowerCase task st = Some a →
     Master.Agent.status a ≠ Master.idle →
     (Master.assignTask toLowerCase startFails task st).1 = None ∧
     Master.taskQueue (Master.assignTask toLowerCase startFails task st).2
     = Master.taskQueue st ++ [task]).
Proof.
  split; [|split].
  - intros task st. unfold Controller.selectBestAgent.
    case_bool_decide as Hnone.
    + cbn. split; [done|apply mapSet_in].
    + destruct (filter _ (filter _ _)) as [|first rest] eqn:Hcompat.
      * cbn. split; [done|apply mapSet_in].
      * cbn [fst snd].
        pose proof (faster_fold_in first rest) as Hin. rewrite <- Hcompat in Hin.
        apply list_elem_of_filter in Hin as [_ Hin].
        apply list_elem_of_filter in Hin as [Hidle Hin].
        unfold Controller.isIdle in Hidle. apply bool_decide_eq_true in Hidle. done.
  - intros toLowerCase startFails task st key st'. unfold Master.assignTask.
    destruct (Master.selectBestAgent toLowerCase task st) as [a|] eqn:Hsel; [|discriminate].
    case_decide as Hst; [discriminate|]. intros [= <- _].
    exists a. split; [done|]. split; [by eapply master_select_in|]. split; [done|].
    by destruct (Master.Agent.status a).
  - intros toLowerCase startFails task st a Hsel Hst. unfold Master.assignTask. rewrite Hsel.
    by rewrite decide_True.
Qed.

(** C9, as stated, fails for an empty list of required capabilities:
    the agent spawned for it has no capability, not the fallback. *)
Lemma spawn_for_empty_requirement_has_no_capability :
  (∀ a, a ∈ Controller.agents freshController → Controller.isIdle a = true →
        Controller.compatible plainTask a = false) ∧
  Controller.Task.requiredCapabilities plainTask = Some [] ∧
  Controller.Agent.capabilities (Controller.selectBestAgent plainTask freshController).1 = [] ∧
  Controller.Agent.capabilities (Controller.selectBestAgent plainTask freshController).1
    ≠ ["general"].
Proof.
  split; [|split; [done|split; [by vm_compute|by vm_compute]]].
  intros a Ha. by apply elem_of_nil in Ha.
Qed.

(** C9 (amended): when no idle agent of the registry has all the
    capabilities the task requires, the selector creates an agent, adds
    it to the registry and returns it; the agent is idle and its
    capabilities are the task's [requiredCapabilities] when the task has
    that property (an empty list included), and ["general"] when it has
    not. [executeTask] rejects only with an error thrown by the
    payload. *)
Theorem spawn_when_no_idle_agent_fits task st :
  (∀ a, a ∈ Controller.agents st → Controller.isIdle a = true →
        Controller.compatible task a = false) →
  let r := Controller.selectBestAgent task st in
  Controller.Agent.id r.1 = "agent_" +:+ pretty (Controller.agentIdCounter st) ∧
  Controller.Agent.status r.1 = Controller.idle ∧
  Controller.Agent.capabilities r.1
    = match Controller.Task.requiredCapabilities task with
      | Some caps => caps
      | None => ["general"]
      end ∧
  r.1 ∈ Controller.agents r.2 ∧
  Controller.agentIdCounter r.2 = S (Controller.agentIdCounter st) ∧
  ∀ execute elapsed msg,
    (Controller.executeTask execute elapsed task st).1 = Controller.rejected msg →
    ∃ t a, execute t a = Throw msg.
Proof.
  intros Hnone r.
  assert (Hcaps : Controller.spawnCapabilities task
                  = match Controller.Task.requiredCapabilities task with
                    | Some caps => caps
                    | None => ["general"]
                    end).
  { unfold Controller.spawnCapabilities. by destruct (Controller.Task.requiredCapabilities task). }
  assert (Hrej : ∀ execute elapsed msg,
    (Controller.executeTask execute elapsed task st).1 = Controller.rejected msg →
    ∃ t a, execute t a = Throw msg).
  { intros execute elapsed msg. unfold Controller.executeTask.
    destruct (Controller.startTask task st) as [p st1]. unfold Controller.settleTask.
    destruct (execute _ _) eqn:Hex; cbn; [discriminate|]. intros [= ->]. eauto. }
  subst r. unfold Controller.selectBestAgent.
  case_bool_decide as Hnoidle.
  - cbn. rewrite Hcaps. repeat split; auto. apply mapSet_in.
  - destruct (filter _ (filter _ _)) as [|first rest] eqn:Hcompat.
    + cbn. rewrite Hcaps. repeat split; auto. apply mapSet_in.
    + exfalso. assert (Hin : first ∈ first :: rest) by set_solver.
      rewrite <- Hcompat in Hin.
      apply list_elem_of_filter in Hin as [Hc Hin].
      apply list_elem_of_filter in Hin as [Hidle Hin].
      rewrite (Hnone first Hin Hidle) in Hc. discriminate.
Qed.

(** C9 (amended) on scenario C: the agent spawned for the task that
    requires "render" has the capability set ["render"]. *)
Lemma spawn_when_no_idle_agent_fits_witness :
  let r := Controller.selectBestAgent renderTask builderController in
  Controller.Agent.id r.1 = "agent_" +:+ pretty 2%nat ∧
  Controller.Agent.status r.1 = Controller.idle ∧
  Controller.Agent.capabilities r.1 = ["render"] ∧
  r.1 ∈ Controller.agents r.2 ∧
  Controller.agentIdCounter r.2 = 3%nat ∧
  ∀ execute elapsed msg,
    (Controller.executeTask execute elapsed renderTask builderController).1
      = Controller.rejected msg →
    ∃ t a, execute t a = Throw msg.
Proof.
  apply (spawn_when_no_idle_agent_fits renderTask builderController).
  intros a Ha _. apply list_elem_of_singleton in Ha as ->. reflexivity.
Defined.

End SelectorFacts.

(** ** Retry and conflict policy of the master orchestrator *)

Module MasterFacts.
Import Master Scenarios.

(** C4: [resolveConflict] called for a registered agent throws nothing,
    whatever the branch manager does, and hands the branch manager
    ['ours'] exactly when the priority of the agent is above 7 and
    ['theirs'] otherwise, so that the strategy depends on the priority
    alone; it throws exactly when no agent is registered under the id.
    Priority 9 gives ['ours'] and priority 4 gives ['theirs']. *)
Theorem conflict_strategy_by_threshold resolveConflicts agentId st :
  match resolveConflict resolveConflicts agentId st with
  | Normal r =>
      ∃ a, a ∈ agents st ∧ Agent.id a = agentId ∧
           (handed r = ours ↔ (7 < Agent.priority a)%Z) ∧
           (handed r = theirs ↔ (Agent.priority a ≤ 7)%Z) ∧
           (resolved r = true ↔ resolveConflicts agentId (handed r) = Normal tt)
  | Throw _ => ∀ a, a ∈ agents st → Agent.id a ≠ agentId
  end ∧
  (∀ a, a ∈ agents st → ∃ r, resolveConflict resolveConflicts (Agent.id a) st = Normal r) ∧
  (∀ git, ∃ r9 r4,
     resolveConflict git "p9" parties = Normal r9 ∧ handed r9 = ours ∧
     resolveConflict git "p4" parties = Normal r4 ∧ handed r4 = theirs).
Proof.
  assert (Hfound : ∀ git key s r,
            resolveConflict git key s = Normal r →
            ∃ a, a ∈ agents s ∧ Agent.id a = key ∧
                 handed r = conflictStrategy (Agent.priority a) ∧
                 resolved r = match git key (handed r) with
                              | Normal _ => true | Throw _ => false end).
  { intros git key s r. unfold resolveConflict.
    destruct (list_find _ _) as [[i a]|] eqn:Hfind; [|discriminate].
    intros [= <-]. apply list_find_Some in Hfind as (Hi & Hid & _).
    exists a. repeat split; auto. by eapply list_elem_of_lookup_2. }
  assert (Hreg : ∀ git s a, a ∈ agents s → ∃ r, resolveConflict git (Agent.id a) s = Normal r).
  { intros git s a Ha. unfold resolveConflict.
    destruct (list_find _ _) as [[i b]|] eqn:Hfind; [by eexists|].
    exfalso. eapply list_find_None in Hfind. rewrite Forall_forall in Hfind.
    by apply (Hfind a). }
  split; [|split; [by apply Hreg|]].
  - destruct (resolveConflict resolveConflicts agentId st) as [r|msg] eqn:Hres.
    + destruct (Hfound _ _ _ _ Hres) as (a & Ha & Hid & Hs & Hr). exists a.
      split; [done|]. split; [done|]. rewrite Hs. unfold conflictStrategy.
      split; [|split].
      * destruct (7 <? Agent.priority a)%Z eqn:H;
          [apply Z.ltb_lt in H|apply Z.ltb_ge in H]; split; try done; lia.
      * destruct (7 <? Agent.priority a)%Z eqn:H;
          [apply Z.ltb_lt in H|apply Z.ltb_ge in H]; split; try done; lia.
      * rewrite Hs in Hr. rewrite Hr. clear Hr. fold (conflictStrategy (Agent.priority a)).
        destruct (resolveConflicts agentId (conflictStrategy (Agent.priority a))) as [[]|];
          split; done.
    + intros a Ha Hid. destruct (Hreg resolveConflicts st a Ha) as [r Hr].
      rewrite Hid in Hr. congruence.
  - intros git. do 2 eexists. repeat split; by vm_compute.
Qed.

(** The queue loop on an empty queue, and on a queue of one task. *)
Lemma processLoop_empty toLowerCase startFails n st acc :
  taskQueue st = [] → processLoop toLowerCase startFails n st acc = (acc, st).
Proof. intros H. destruct n; cbn; [done|]. by rewrite H. Qed.

Lemma executeAgentTask_queue startFails a task st :
  taskQueue (executeAgentTask startFails a task st) = taskQueue st.
Proof. unfold executeAgentTask. by destruct (startFails a task). Qed.

Lemma single_retry toLowerCase startFails a task st st1 task' b :
  handleTaskFailure a task st = Normal st1 →
  taskQueue st1 = [task'] →
  selectBestAgent toLowerCase task'
    {| agents := agents (setStatus (Agent.id a) idle st1); taskQueue := [];
       performanceMetrics := performanceMetrics st1 |} = Some b →
  Agent.status b = idle →
  (1 ≤ length (filter (λ x, Agent.status x = idle)
                      (agents (setStatus (Agent.id a) idle st1))))%nat →
  ∃ st2, onWorkerFailure toLowerCase startFails a task st = Normal ([Some (Agent.id b)], st2).
Proof.
  intros Hfail Hqueue Hsel Hidle Hcount. unfold onWorkerFailure. rewrite Hfail.
  unfold processTaskQueue.
  destruct (length _) as [|n]; [lia|]. cbn [processLoop].
  change (taskQueue (setStatus (Agent.id a) idle st1)) with (taskQueue st1).
  rewrite Hqueue.
  change (performanceMetrics (setStatus (Agent.id a) idle st1)) with (performanceMetrics st1).
  unfold assignTask. rewrite Hsel. rewrite decide_False by (by rewrite Hidle; intros []).
  eexists. rewrite processLoop_empty; [done|]. by rewrite executeAgentTask_queue.
Qed.

(** C3 on the code: the agents a failed task must avoid are recorded in
    [excludeAgents], and the selector does not read them. In the registry
    [trio] the task that failed on a1 is queued with [excludeAgents]
    ["a1"] and is assigned to a1 again; a task submitted without a
    [retries] property is not queued at all. *)
Theorem retry_reselects_failed_agent :
  (∀ toLowerCase name type caps retries ex ex' st,
     selectBestAgent toLowerCase (Task.Make name type caps retries ex) st
     = selectBestAgent toLowerCase (Task.Make name type caps retries ex') st) ∧
  (∀ a task st st1,
     Task.retries task = None → handleTaskFailure a task st = Normal st1 →
     taskQueue st1 = taskQueue st) ∧
  (∀ toLowerCase, ∃ st1,
     handleTaskFailure (masterAgent "a1" 9 working) countedTask trio = Normal st1 ∧
     taskQueue st1 = [Task.Make "build" None None (Some 1%Z) (Some ["a1"])] ∧
     Agent.id <$> selectBestAgent toLowerCase
                    (Task.Make "build" None None (Some 1%Z) (Some ["a1"]))
                    (setStatus "a1" idle st1) = Some "a1") ∧
  (∀ toLowerCase startFails, ∃ st2,
     onWorkerFailure toLowerCase startFails (masterAgent "a1" 9 working) countedTask trio
     = Normal ([Some "a1"], st2)) ∧
  (∀ toLowerCase startFails, ∃ st3,
     onWorkerFailure toLowerCase startFails (masterAgent "a1" 9 working) uncountedTask trio
     = Normal ([], st3) ∧
     taskQueue st3 = []).
Proof.
  split; [|split; [|split; [|split]]].
  - intros toLowerCase name type caps retries ex ex' st. reflexivity.
  - intros a task st st1 Hret. unfold handleTaskFailure, retriesBelow. rewrite Hret.
    destruct (performanceMetrics st !! Agent.id a); [|discriminate]. by intros [= <-].
  - intros toLowerCase. eexists. split; [by vm_compute|]. split; by vm_compute.
  - intros toLowerCase startFails.
    edestruct (single_retry toLowerCase startFails (masterAgent "a1" 9 working) countedTask trio)
      as [st2 Hst2]; [by vm_compute|by vm_compute|by vm_compute|done|vm_compute; lia|].
    exists st2. exact Hst2.
  - intros toLowerCase startFails. unfold onWorkerFailure.
    destruct (handleTaskFailure _ _ _) as [st1|] eqn:Hfail; [|by vm_compute in Hfail].
    assert (Hq : taskQueue st1 = []) by (vm_compute in Hfail; by injection Hfail as <-).
    eexists. unfold processTaskQueue. rewrite processLoop_empty by done. done.
Qed.

End MasterFacts.

(** ** Performance counters of BaseAgent *)

Module BaseAgentFacts.
Import BaseAgent.

Lemma run_snoc steps s st : run (steps ++ [s]) st = exec (run steps st) s.
Proof. unfold run. by rewrite foldl_app. Qed.




(** Two successes of 100 ms and 300 ms and a failure of 200 ms: three
    attempts, mean 200 ms. With 100 ms in place of 300 ms the mean is the
    binary64 number nearest to 400/3, 4691249611844267 * 2^-45. *)
Example performance_demo :
  let st := run [Begin "t1"; Begin "t2"; Succeed "t1" 100; Fail "t2" 200;
                 Begin "t3"; Succeed "t3" 300] (create None) in
  tasksCompleted (perf st) = 3%nat ∧ tasksSuccessful (perf st) = 2%nat ∧
  tasksFailed (perf st) = 1%nat ∧ avgExecutionTime (perf st) = Double.ofZ 200 ∧
  avgExecutionTime (perf (run [Succeed "t1" 100; Fail "t2" 200; Succeed "t3" 100]
                              (create None)))
  = S754_finite false 4691249611844267 (-45).
Proof. by vm_compute. Qed.

End BaseAgentFacts.

(** * Further properties of the code *)

(** ** The plan: its phases, its warning and its figures *)

Module PlanFacts.
Import Planner Waves PlannerFacts.

Section Plan.
Variable engineOrder : (task -> task -> option Z) -> list task -> list task.
Hypothesis engine_rearranges : rearranges engineOrder.
Variable tasks : list task.
Variable dependencies : gmap string (list string).
Variable priority : gmap string Z.
Hypothesis own_dependencies : ownKeys dependencies tasks.

Lemma planLoop_scanned fuel : ∀ completed ps ps' logged,
  planInv tasks dependencies completed ps →
  scanned engineOrder tasks dependencies priority ps →
  planLoop engineOrder fuel tasks dependencies priority completed ∅ ps
    = Some (Normal (ps', logged)) →
  scanned engineOrder tasks dependencies priority ps'.
Proof.
  induction fuel as [|fuel IH]; intros completed ps ps' logged Hinv Hsc; cbn [planLoop].
  - case_decide; [discriminate|]. by intros [= <- _].
  - case_decide; [|by intros [= <- _]].
    destruct (scan tasks dependencies completed ∅) as [[phase ip]|msg] eqn:Hscan;
      [|discriminate].
    destruct phase as [|t phase].
    + cbn. rewrite !bool_decide_eq_true_2 by done. cbn. by intros [= <- _].
    + cbn [length]. rewrite bool_decide_eq_false_2 by done. cbn [andb].
      destruct (planInv_step engineOrder engine_rearranges tasks dependencies priority
                  completed ps (t :: phase) ip Hinv Hscan)
        as (Hcommit & Hinv' & _); [done|].
      cbv zeta in Hcommit, Hinv'. rewrite Hcommit.
      apply IH; [done|].
      intros i p Hi. destruct (decide (i < length ps)%nat) as [Hlt|Hge].
      * rewrite lookup_app_l in Hi by done. rewrite take_app_le by lia. by apply Hsc.
      * rewrite lookup_app_r in Hi by lia.
        destruct (i - length ps)%nat eqn:Hi0; [|by destruct n].
        cbn in Hi. inversion Hi; subst p.
        assert (i = length ps) as -> by lia. rewrite take_app_length.
        rewrite <- (inv_completed Hinv). by exists (t :: phase), ip.
Qed.

Lemma buildExecutionPlan_scanned :
  ∃ ps logged completed,
    buildExecutionPlan engineOrder tasks dependencies priority
      = Some (Normal (finishPlan ps, logged)) ∧
    planInv tasks dependencies completed ps ∧
    loopExit tasks dependencies completed logged ∧
    scanned engineOrder tasks dependencies priority ps.
Proof.
  destruct (buildExecutionPlan_spec engineOrder engine_rearranges tasks dependencies priority
              own_dependencies)
    as (ps & logged & c & Hrun & Hinv & Hexit).
  exists ps, logged, c. split; [done|]. split; [done|]. split; [done|].
  unfold buildExecutionPlan, buildExecutionPlanFuel in Hrun.
  destruct (planLoop _ _ _ _ _ _ _ _) as [[[ps0 l0]|msg]|] eqn:Hloop; try discriminate.
  inversion Hrun; subst.
  eapply planLoop_scanned; [apply planInv_init| |exact Hloop].
  intros i p Hi. by rewrite lookup_nil in Hi.
Qed.

(** Each phase of a scanned plan is sorted when the priorities of the
    tasks are numbers. *)
Lemma scanned_sorted ps :
  ownKeys priority tasks →
  scanned engineOrder tasks dependencies priority ps →
  Forall (λ p, StronglySorted (prioGe priority) p ∧
               ∀ v, withPriority priority v p `sublist_of` withPriority priority v tasks) ps.
Proof.
  intros Hown Hsc. apply Forall_lookup. intros i p Hi.
  destruct (Hsc i p Hi) as (phase & ip & Hscan & ->).
  apply scan_fold in Hscan as (extra & Hph & Hsub & _). cbn in Hph. subst extra.
  assert (Hphase : ownKeys priority phase).
  { intros t Ht. apply Hown. by eapply elem_of_sublist. }
  destruct (sortBy_own priority engineOrder phase Hphase) as [-> Hc].
  split; [by apply insertion_sorted|].
  intros v. rewrite insertion_stable by done.
  unfold withPriority. by apply sublist_filter_mono.
Qed.

(** X1: When the lookup of no task's key in the dependency map ends on
    [Object.prototype] (and the engine's sort rearranges its array),
    every phase of the returned plan is a wave: it holds the eligible
    tasks (those of the list not placed before, whose dependencies are
    all placed before), and the key of every eligible task is in it. So
    a task of a later phase has a dependency in the phase just before. *)
Theorem plan_phases_are_waves :
  ∃ pl logged,
    buildExecutionPlan engineOrder tasks dependencies priority
      = Some (Normal (pl, logged)) ∧
    (∀ i p, phases pl !! i = Some p →
       let placed := keys (concat (take i (phases pl))) in
       (∀ t, t ∈ p → eligible tasks dependencies placed t) ∧
       (∀ t, eligible tasks dependencies placed t → taskKey t ∈ keys p)) ∧
    (∀ i p t, phases pl !! S i = Some p → t ∈ p →
       ∃ q d, phases pl !! i = Some q ∧
              d ∈ dependencySet dependencies (taskKey t) ∧ d ∈ keys q).
Proof.
  destruct buildExecutionPlan_scanned as (ps & logged & c & Hrun & Hinv & _ & Hsc).
  exists (finishPlan ps), logged. split; [done|]. cbn.
  assert (Hwave : ∀ i p, ps !! i = Some p →
     (∀ t, t ∈ p → eligible tasks dependencies (keys (concat (take i ps))) t) ∧
     (∀ t, eligible tasks dependencies (keys (concat (take i ps))) t → taskKey t ∈ keys p)).
  { intros i p Hi. destruct (Hsc i p Hi) as (phase & ip & Hscan & Hp).
    apply scan_fold in Hscan as (extra & Hph & Hsub & _ & _ & Hfresh & Hdeps & Hall).
    cbn in Hph. subst extra.
    assert (Hperm : p ≡ₚ phase) by (subst p; by apply sortBy_perm).
    split.
    - intros t Ht. rewrite Hperm in Ht. split; [by eapply elem_of_sublist|]. split.
      + intros Hin. destruct (Hfresh (taskKey t)) as [Hc _].
        { by apply list_elem_of_fmap_2. }
        apply Hc. by apply elem_of_list_to_set.
      + intros d Hd. apply Hdeps in Ht. rewrite Forall_forall in Ht.
        apply Ht in Hd. by apply elem_of_list_to_set in Hd.
    - intros t (Ht & Hnot & Hd). unfold keys. rewrite Hperm. apply Hall; [done| | |].
      + by rewrite elem_of_list_to_set.
      + apply not_elem_of_empty.
      + apply Forall_forall. intros d Hin. apply elem_of_list_to_set. by apply Hd. }
  split; [exact Hwave|].
  intros i p t Hi Ht.
  assert (Hq : is_Some (ps !! i)).
  { apply lookup_lt_is_Some. apply lookup_lt_Some in Hi. lia. }
  destruct Hq as [q Hq]. exists q.
  destruct (Hwave _ _ Hi) as [Hel _]. destruct (Hel t Ht) as (Htask & Hnew & Hdeps).
  destruct (Hwave _ _ Hq) as [_ Hmax].
  destruct (decide (Forall (λ d, d ∈ keys (concat (take i ps)))
                           (dependencySet dependencies (taskKey t)))) as [Hall|Hsome].
  - exfalso. apply Hnew. rewrite (take_S_r _ _ q) by done.
    rewrite concat_app. unfold keys. rewrite fmap_app. apply elem_of_app.
    destruct (decide (taskKey t ∈ keys (concat (take i ps)))) as [|Hfresh]; [by left|right].
    cbn. rewrite app_nil_r. apply Hmax. split; [done|]. split; [done|].
    by apply Forall_forall.
  - apply not_Forall_Exists in Hsome; [|solve_decision].
    apply Exists_exists in Hsome as (d & Hd & Hdn). exists d. split; [done|]. split; [done|].
    specialize (Hdeps d Hd). rewrite (take_S_r _ _ q) in Hdeps by done.
    rewrite concat_app in Hdeps. unfold keys in Hdeps. rewrite fmap_app in Hdeps.
    apply elem_of_app in Hdeps as [Hdeps|Hdeps]; [done|].
    cbn in Hdeps. by rewrite app_nil_r in Hdeps.
Qed.

(** X20: When the lookup of no task's key in the dependency map or in
    the priority map ends on [Object.prototype] (and the engine's sort
    rearranges its array), every phase of the returned plan is in
    descending order of priority (a key without entry counting as 0),
    and the tasks of one priority keep, within a phase, the order they
    have in the submitted list. *)
Theorem phases_sorted_by_priority :
  ownKeys priority tasks →
  ∃ pl logged,
    buildExecutionPlan engineOrder tasks dependencies priority
      = Some (Normal (pl, logged)) ∧
    Forall (λ p, StronglySorted (prioGe priority) p ∧
                 ∀ v, withPriority priority v p `sublist_of` withPriority priority v tasks)
           (phases pl).
Proof.
  intros Hown.
  destruct buildExecutionPlan_scanned as (ps & logged & c & Hrun & _ & _ & Hsc).
  exists (finishPlan ps), logged. split; [done|]. cbn. by apply scanned_sorted.
Qed.

End Plan.

Lemma size_list_to_set_le (l : list string) :
  (size (list_to_set l : gset string) ≤ length l)%nat.
Proof.
  induction l as [|x l IH]; cbn; [by rewrite size_empty|].
  rewrite size_union_alt, size_singleton.
  assert (Hs : (size (list_to_set l ∖ {[x]} : gset string) ≤ size (list_to_set l : gset string))%nat)
    by (apply subseteq_size; set_solver).
  lia.
Qed.

Lemma size_list_to_set_NoDup (l : list string) :
  size (list_to_set l : gset string) = length l → NoDup l.
Proof.
  induction l as [|x l IH]; cbn; [constructor|]. intros Hsize.
  pose proof (size_list_to_set_le l) as Hle.
  destruct (decide (x ∈ l)) as [Hin|Hnot].
  - exfalso. assert (Heq : {[x]} ∪ list_to_set l = (list_to_set l : gset string)).
    { apply set_eq. intros y. rewrite elem_of_union, elem_of_singleton, elem_of_list_to_set.
      split; [intros [->|?]; done|by right]. }
    rewrite Heq in Hsize. lia.
  - constructor; [done|]. apply IH.
    rewrite size_union in Hsize; [rewrite size_singleton in Hsize; lia|].
    intros y Hy Hy'. apply elem_of_singleton in Hy as ->. by apply elem_of_list_to_set in Hy'.
Qed.

(** [Math.max] of a list. *)
Lemma mathMax_fold xs : ∀ m,
  ∃ m', foldl (fun acc x => match acc with
                            | NegInfinity => Num x
                            | Num n => Num (Z.max n x)
                            end) (Num m) xs = Num m' ∧
        (m ≤ m')%Z ∧ (∀ x, x ∈ xs → (x ≤ m')%Z) ∧ (m' = m ∨ m' ∈ xs).
Proof.
  induction xs as [|x xs IH]; intros m; cbn.
  - exists m. repeat split; [lia| |by left]. by intros x ?%elem_of_nil.
  - destruct (IH (Z.max m x)) as (m' & Heq & Hle & Hall & Hin).
    exists m'. split; [done|]. split; [lia|]. split.
    + intros y [->|Hy]%elem_of_cons; [lia|by apply Hall].
    + destruct Hin as [->|Hin]; [|right; by apply elem_of_cons; right].
      destruct (Z.max_spec m x) as [[_ ->]|[_ ->]]; [right; apply elem_of_cons|]; auto.
Qed.

Lemma mathMax_spec xs :
  match mathMax xs with
  | NegInfinity => xs = []
  | Num m => m ∈ xs ∧ ∀ x, x ∈ xs → (x ≤ m)%Z
  end.
Proof.
  destruct xs as [|x xs]; [done|]. unfold mathMax. cbn.
  destruct (mathMax_fold xs x) as (m' & -> & Hle & Hall & Hin).
  split.
  - destruct Hin as [->|Hin]; apply elem_of_cons; auto.
  - intros y [->|Hy]%elem_of_cons; [done|by apply Hall].
Qed.

Lemma length_concat_nonempty {A} (ps : list (list A)) :
  Forall (λ p, p ≠ []) ps → (length ps ≤ length (concat ps))%nat.
Proof.
  induction 1 as [|p ps Hp _ IH]; cbn; [done|].
  rewrite length_app. destruct p; [done|]. cbn. lia.
Qed.

Section Figures.
Variable engineOrder : (task -> task -> option Z) -> list task -> list task.
Hypothesis engine_rearranges : rearranges engineOrder.
Variable tasks : list task.
Variable dependencies : gmap string (list string).
Variable priority : gmap string Z.
Hypothesis own_dependencies : ownKeys dependencies tasks.

(** X2: When the lookup of no task's key in the dependency map ends on
    [Object.prototype] (and the engine's sort rearranges its array), the
    warning is logged exactly when some key of the list is repeated or
    some task cannot be scheduled; a list with a repeated key gets the
    warning even when nothing is cyclic or unresolvable. *)
Theorem plan_warning_iff :
  ∃ pl logged,
    buildExecutionPlan engineOrder tasks dependencies priority
      = Some (Normal (pl, logged)) ∧
    (logged = [] ∨ logged = [cycleWarning]) ∧
    (logged = [] ↔
     NoDup (keys tasks) ∧ ∀ x, x ∈ keys tasks → schedulable tasks dependencies x).
Proof.
  destruct (buildExecutionPlan_spec engineOrder engine_rearranges tasks dependencies priority
              own_dependencies)
    as (ps & logged & c & Hrun & Hinv & Hexit).
  exists (finishPlan ps), logged. split; [done|].
  assert (Hsub : c ⊆ list_to_set (keys tasks)).
  { rewrite (inv_completed Hinv). intros k Hk. apply elem_of_list_to_set in Hk.
    apply elem_of_list_to_set. unfold keys in *.
    apply list_elem_of_fmap in Hk as (t & -> & Hin).
    apply list_elem_of_fmap_2. by eapply inv_tasks. }
  pose proof (size_list_to_set_le (keys tasks)) as Hle.
  assert (Hlen : length (keys tasks) = length tasks) by (unfold keys; by rewrite length_fmap).
  split; [destruct Hexit as [[_ ->]|(_ & _ & ->)]; auto|].
  split.
  - intros ->. destruct Hexit as [[Hsize _]|(_ & _ & ?)]; [|done].
    pose proof (subseteq_size _ _ Hsub) as Hs.
    assert (Heq : c = list_to_set (keys tasks)).
    { apply set_subseteq_size_eq; [done|lia]. }
    split; [apply size_list_to_set_NoDup; lia|].
    intros x Hx. eapply placed_schedulable; [done|].
    apply (elem_of_list_to_set (C:=gset string)). rewrite <- (inv_completed Hinv), Heq.
    by apply elem_of_list_to_set.
  - intros [Hnd Hall]. destruct Hexit as [[_ ->]|(Hlt & Hscan & ->)]; [done|exfalso].
    assert (Heq : c = list_to_set (keys tasks)).
    { apply set_eq. intros k. split; [apply Hsub|]. intros Hk%elem_of_list_to_set.
      rewrite (inv_completed Hinv). apply elem_of_list_to_set.
      eapply schedulable_placed; eauto.
      right. repeat split; eauto. }
    rewrite Heq, size_list_to_set in Hlt by done. lia.
Qed.

(** X3: The figures of the plan, when the lookup of no task's key in the
    dependency map ends on [Object.prototype] (and the engine's sort
    rearranges its array): the estimated time is 1000 per phase; the
    number of required agents is the size of a largest phase, and
    [-Infinity] exactly when the plan has no phase (an empty list, or
    nothing schedulable). No phase is empty and there are at most as
    many phases as tasks. *)
Theorem plan_figures :
  ∃ pl logged,
    buildExecutionPlan engineOrder tasks dependencies priority
      = Some (Normal (pl, logged)) ∧
    estimatedTime pl = (1000 * Z.of_nat (length (phases pl)))%Z ∧
    match requiredAgents pl with
    | NegInfinity => phases pl = []
    | Num m => (∃ p, p ∈ phases pl ∧ Z.of_nat (length p) = m) ∧
               ∀ p, p ∈ phases pl → (Z.of_nat (length p) ≤ m)%Z
    end ∧
    Forall (λ p, p ≠ []) (phases pl) ∧
    (length (phases pl) ≤ length tasks)%nat ∧
    (tasks = [] → phases pl = [] ∧ requiredAgents pl = NegInfinity ∧ logged = []).
Proof.
  destruct (buildExecutionPlan_spec engineOrder engine_rearranges tasks dependencies priority
              own_dependencies)
    as (ps & logged & c & Hrun & Hinv & Hexit).
  exists (finishPlan ps), logged. split; [done|]. cbn.
  assert (Hne : Forall (λ p : list task, p ≠ []) ps).
  { exact (inv_phase Hinv). }
  assert (Hlen : (length ps ≤ length tasks)%nat).
  { etransitivity; [by apply length_concat_nonempty|].
    rewrite <- (length_fmap taskKey (concat ps)), <- (length_fmap taskKey tasks).
    apply submseteq_length, NoDup_submseteq; [exact (inv_nodup Hinv)|].
    intros k (t & -> & Hin)%list_elem_of_fmap. apply list_elem_of_fmap_2.
    by eapply inv_tasks. }
  split.
  { assert (Hgen : ∀ z, foldl (λ (acc : Z) (_ : list task), (acc + 1000)%Z) z ps
                        = (z + 1000 * Z.of_nat (length ps))%Z).
    { clear. induction ps as [|p ps IH]; intros z; cbn [foldl length]; [lia|].
      rewrite IH. lia. }
    by rewrite Hgen. }
  split.
  { pose proof (mathMax_spec (map (λ p : list task, Z.of_nat (length p)) ps)) as Hmax.
    destruct (mathMax _) as [|m].
    - by apply map_eq_nil in Hmax.
    - destruct Hmax as [Hin Hall]. split.
      + apply (list_elem_of_fmap (λ p : list task, Z.of_nat (length p))) in Hin
          as (p & -> & Hp). by exists p.
      + intros p Hp. apply Hall.
        by apply (list_elem_of_fmap_2 (λ p : list task, Z.of_nat (length p))). }
  split; [done|]. split; [done|].
  intros ->. cbn in Hlen. destruct ps; [|cbn in Hlen; lia].
  split; [done|]. split; [done|].
  destruct Hexit as [[_ ->]|(Hlt & _)]; [done|]. cbn in Hlt. lia.
Qed.

End Figures.

Import Scenarios.

(** X1 on scenario A. *)
Lemma plan_phases_are_waves_witness :
  ∃ pl logged,
    buildExecutionPlan keepOrder tasksA dependenciesA priorityA = Some (Normal (pl, logged)) ∧
    (∀ i p, phases pl !! i = Some p →
       let placed := keys (concat (take i (phases pl))) in
       (∀ t, t ∈ p → eligible tasksA dependenciesA placed t) ∧
       (∀ t, eligible tasksA dependenciesA placed t → taskKey t ∈ keys p)) ∧
    (∀ i p t, phases pl !! S i = Some p → t ∈ p →
       ∃ q d, phases pl !! i = Some q ∧
              d ∈ dependencySet dependenciesA (taskKey t) ∧ d ∈ keys q).
Proof.
  apply (plan_phases_are_waves keepOrder).
  - intros comparefn l. reflexivity.
  - own_keys.
Defined.

(** X20 on scenario A. *)
Lemma phases_sorted_by_priority_witness :
  ∃ pl logged,
    buildExecutionPlan keepOrder tasksA dependenciesA priorityA = Some (Normal (pl, logged)) ∧
    Forall (λ p, StronglySorted (prioGe priorityA) p ∧
                 ∀ v, withPriority priorityA v p `sublist_of` withPriority priorityA v tasksA)
           (phases pl).
Proof.
  apply (phases_sorted_by_priority keepOrder).
  - intros comparefn l. reflexivity.
  - own_keys.
  - own_keys.
Defined.

(** X2 on scenario A. *)
Lemma plan_warning_iff_witness :
  ∃ pl logged,
    buildExecutionPlan keepOrder tasksA dependenciesA priorityA = Some (Normal (pl, logged)) ∧
    (logged = [] ∨ logged = [cycleWarning]) ∧
    (logged = [] ↔
     NoDup (keys tasksA) ∧ ∀ x, x ∈ keys tasksA → schedulable tasksA dependenciesA x).
Proof.
  apply (plan_warning_iff keepOrder).
  - intros comparefn l. reflexivity.
  - own_keys.
Defined.

(** X3 on scenario A. *)
Lemma plan_figures_witness :
  ∃ pl logged,
    buildExecutionPlan keepOrder tasksA dependenciesA priorityA = Some (Normal (pl, logged)) ∧
    estimatedTime pl = (1000 * Z.of_nat (length (phases pl)))%Z ∧
    match requiredAgents pl with
    | NegInfinity => phases pl = []
    | Num m => (∃ p, p ∈ phases pl ∧ Z.of_nat (length p) = m) ∧
               ∀ p, p ∈ phases pl → (Z.of_nat (length p) ≤ m)%Z
    end ∧
    Forall (λ p, p ≠ []) (phases pl) ∧
    (length (phases pl) ≤ length tasksA)%nat ∧
    (tasksA = [] → phases pl = [] ∧ requiredAgents pl = NegInfinity ∧ logged = []).
Proof.
  apply (plan_figures keepOrder).
  - intros comparefn l. reflexivity.
  - own_keys.
Defined.

End PlanFacts.

(** ** The registry of the controller *)

Module RegistryFacts.
Import Controller Registry.

Lemma agent_key_inj (k k' : nat) :
  "agent_" +:+ pretty k = "agent_" +:+ pretty k' → k = k'.
Proof. intros H. apply (inj (String.append "agent_")) in H. by apply (inj pretty) in H. Qed.

Lemma mapSet_fresh a l :
  Agent.id a ∉ (Agent.id <$> l) → mapSet a l = l ++ [a].
Proof.
  induction l as [|b l IH]; cbn; [done|]. intros Hnot.
  apply not_elem_of_cons in Hnot as [Hne Hnot].
  rewrite decide_False by done. by rewrite IH.
Qed.

Lemma getAgent_Some key st a :
  getAgent key st = Some a → a ∈ agents st ∧ Agent.id a = key.
Proof.
  unfold getAgent. destruct (list_find _ _) as [[i b]|] eqn:Hfind; [|done].
  cbn. intros [= ->]. apply list_find_Some in Hfind as (Hi & Hid & _).
  split; [by eapply list_elem_of_lookup_2|done].
Qed.

(** In a registry of distinct ids, [get] finds the agent of an id. *)
Lemma getAgent_elem st a :
  NoDup (ids st) → a ∈ agents st → getAgent (Agent.id a) st = Some a.
Proof.
  intros Hnd Hin. unfold getAgent.
  destruct (list_find (λ b, Agent.id b = Agent.id a) (agents st)) as [[i b]|] eqn:Hfind.
  - cbn. f_equal. apply list_find_Some in Hfind as (Hi & Hid & _).
    eapply (PlannerFacts.NoDup_fmap_inj_on Agent.id (agents st)); eauto.
    by eapply list_elem_of_lookup_2.
  - apply list_find_None in Hfind. rewrite Forall_forall in Hfind.
    by specialize (Hfind a Hin).
Qed.

Lemma created_fresh config st :
  wellFormed st → Agent.id (createDynamicAgent config st).1 ∉ ids st.
Proof.
  intros [_ Hkeys] Hin. cbn in Hin. unfold ids in Hin.
  apply list_elem_of_fmap in Hin as (a & Heq & Ha).
  destruct (Hkeys a Ha) as (k & Hlt & Hk). rewrite Hk in Heq.
  apply agent_key_inj in Heq. lia.
Qed.

Lemma created_agents config st :
  wellFormed st →
  agents (createDynamicAgent config st).2 = agents st ++ [(createDynamicAgent config st).1].
Proof.
  intros Hwf. pose proof (created_fresh config st Hwf) as Hfresh.
  cbn in *. by apply mapSet_fresh.
Qed.

Lemma created_wellFormed config st :
  wellFormed st → wellFormed (createDynamicAgent config st).2.
Proof.
  intros Hwf. pose proof (created_fresh config st Hwf) as Hfresh.
  pose proof (created_agents config st Hwf) as Hag.
  destruct Hwf as [Hnd Hkeys]. split.
  - unfold ids. rewrite Hag, fmap_app. apply NoDup_app. split; [done|]. split.
    + intros x Hx Hx'. cbn in Hx'. apply list_elem_of_singleton in Hx' as ->. done.
    + cbn. apply NoDup_singleton.
  - intros a. rewrite Hag. intros [Ha|Ha]%elem_of_app.
    + destruct (Hkeys a Ha) as (k & Hlt & Hk). exists k. cbn. split; [lia|done].
    + apply list_elem_of_singleton in Ha as ->. exists (agentIdCounter st). cbn. split; [lia|done].
Qed.

Lemma mutate_ids key f st :
  (∀ a, Agent.id (f a) = Agent.id a) → ids (mutateAgent key f st) = ids st.
Proof.
  intros Hf. unfold ids. cbn. rewrite <- list_fmap_compose.
  apply list_fmap_ext. intros i a _. cbn. case_decide; [apply Hf|done].
Qed.

Lemma mutate_wellFormed key f st :
  (∀ a, Agent.id (f a) = Agent.id a) → wellFormed st → wellFormed (mutateAgent key f st).
Proof.
  intros Hf [Hnd Hkeys]. split; [by rewrite mutate_ids|].
  intros a Ha. cbn in Ha. apply list_elem_of_fmap in Ha as (b & -> & Hb).
  destruct (Hkeys b Hb) as (k & Hlt & Hk). exists k. cbn. split; [done|].
  case_decide; [by rewrite Hf|done].
Qed.

(** The two ways [selectBestAgent] ends: a registered candidate and an
    untouched registry, or a created agent. *)
Lemma select_cases task st :
  ((selectBestAgent task st).2 = st ∧ (selectBestAgent task st).1 ∈ candidates task st) ∨
  (candidates task st = [] ∧ ∃ config, selectBestAgent task st = createDynamicAgent config st).
Proof.
  unfold selectBestAgent, candidates. case_bool_decide as Hnone.
  - right. split; [|eauto]. apply length_zero_iff_nil in Hnone. by rewrite Hnone.
  - destruct (filter _ (filter _ _)) as [|first rest] eqn:Hc.
    + right. eauto.
    + left. split; [done|]. cbn [fst]. apply SelectorFacts.faster_fold_in.
Qed.

Lemma select_wellFormed task st :
  wellFormed st → wellFormed (selectBestAgent task st).2.
Proof.
  intros Hwf. destruct (select_cases task st) as [[-> _]|(_ & config & ->)]; [done|].
  by apply created_wellFormed.
Qed.

(** The agent returned is registered and idle in the registry returned. *)
Lemma select_registered task st :
  wellFormed st →
  (selectBestAgent task st).1 ∈ agents (selectBestAgent task st).2 ∧
  Agent.status (selectBestAgent task st).1 = idle.
Proof.
  intros Hwf. destruct (select_cases task st) as [[Hst Hin]|(_ & config & Heq)].
  - rewrite Hst. unfold candidates in Hin.
    apply list_elem_of_filter in Hin as [_ Hin].
    apply list_elem_of_filter in Hin as [Hidle Hin].
    split; [done|]. unfold isIdle in Hidle. by apply bool_decide_eq_true in Hidle.
  - rewrite Heq. split; [|done]. rewrite created_agents by done. set_solver.
Qed.

Lemma markBusy_id key a : Agent.id (markBusy key a) = Agent.id a.
Proof. done. Qed.


Lemma startTask_wellFormed task st :
  wellFormed st → wellFormed (startTask task st).2.
Proof.
  intros Hwf. unfold startTask.
  match goal with |- context [selectBestAgent ?t ?s] =>
    pose proof (select_wellFormed t s) as Hsel;
    destruct (selectBestAgent t s) as [best st2] end.
  cbn in *. apply mutate_wellFormed; [done|]. apply Hsel.
  destruct Hwf as [Hnd Hkeys]. split; done.
Qed.

Lemma wellFormed_logged e st : wellFormed st → wellFormed (logged e st).
Proof. intros [Hnd Hkeys]. split; done. Qed.

Section Settle.
Variable execute : Task.t -> Agent.t -> completion payloadResult.
Variable elapsed : Task.t -> Z.

Lemma settleTask_wellFormed p st :
  wellFormed st → wellFormed (settleTask execute elapsed p st).2.
Proof.
  intros Hwf. unfold settleTask. destruct (execute _ _); cbn [snd].
  - apply wellFormed_logged. by apply mutate_wellFormed.
  - by apply wellFormed_logged.
Qed.

End Settle.

(** X4: [createDynamicAgent] in a well-formed registry: the id of the new
    agent is not the id of a registered agent, the agent is added after
    the others, [get] finds it under its id and still finds every other
    agent, and the registry stays well-formed. *)
Theorem created_agent_is_new config st :
  wellFormed st →
  let r := createDynamicAgent config st in
  Agent.id r.1 ∉ ids st ∧
  agents r.2 = agents st ++ [r.1] ∧
  getAgent (Agent.id r.1) r.2 = Some r.1 ∧
  (∀ a, a ∈ agents st → getAgent (Agent.id a) r.2 = Some a) ∧
  wellFormed r.2.
Proof.
  intros Hwf r. subst r.
  pose proof (created_fresh config st Hwf) as Hfresh.
  pose proof (created_agents config st Hwf) as Hag.
  pose proof (created_wellFormed config st Hwf) as Hwf'.
  split; [done|]. split; [done|]. split; [|split; [|done]].
  - apply getAgent_elem; [apply Hwf'|]. rewrite Hag. set_solver.
  - intros a Ha. apply getAgent_elem; [apply Hwf'|]. rewrite Hag. set_solver.
Qed.

Lemma wellFormed_counter st n tr :
  wellFormed st →
  wellFormed {| agents := agents st; taskIdCounter := n;
                agentIdCounter := agentIdCounter st;
                max_parallel_tasks := max_parallel_tasks st;
                journal := tr |}.
Proof. intros [Hnd Hkeys]. split; done. Qed.

(** What starting a task does to the registry: the agent it holds is
    registered and busy, it is none of the agents that were busy, and
    those are still busy. *)
Lemma startTask_busy task st :
  wellFormed st →
  let r := startTask task st in
  startedAgent r.1 ∈ agents r.2 ∧
  Agent.status (startedAgent r.1) = busy ∧
  ∀ b, b ∈ agents st → Agent.status b = busy →
       Agent.id b ≠ Agent.id (startedAgent r.1) ∧ b ∈ agents r.2.
Proof.
  intros Hwf r. subst r. unfold startTask.
  set (task1 := Task.Make _ _ _ _ _ _ _).
  set (st1 := State _ _ _ _ _).
  assert (Hwf1 : wellFormed st1) by (by apply wellFormed_counter).
  pose proof (select_registered task1 st1 Hwf1) as [Hreg Hidle].
  pose proof (select_wellFormed task1 st1 Hwf1) as Hwf2.
  pose proof (select_cases task1 st1) as Hcases.
  destruct (selectBestAgent task1 st1) as [best st2]. cbn [fst snd] in *.
  cbn [startedAgent fst snd].
  split; [|split; [done|]].
  - cbn. apply list_elem_of_fmap. exists best. split; [|done]. by rewrite decide_True.
  - intros b Hb Hbusy.
    assert (Hb2 : b ∈ agents st2).
    { destruct Hcases as [[-> _]|(_ & config & Heq)]; [done|].
      inversion Heq as [[Hbest Hst2]]. subst st2.
      change (mapSet _ _) with (agents (createDynamicAgent config st1).2).
      rewrite created_agents by done. set_solver. }
    assert (Hne : Agent.id b ≠ Agent.id best).
    { intros Heq. assert (b = best); [|congruence].
      eapply (PlannerFacts.NoDup_fmap_inj_on Agent.id (agents st2)); eauto. apply Hwf2. }
    split; [done|]. cbn. apply list_elem_of_fmap. exists b. split; [|done].
    by rewrite decide_False.
Qed.

(** Within one batch no two tasks are given the same agent. *)
Lemma startBatch_fold_distinct batch : ∀ acc st ps st',
  wellFormed st →
  NoDup (Agent.id ∘ startedAgent <$> acc) →
  (∀ p, p ∈ acc → startedAgent p ∈ agents st ∧ Agent.status (startedAgent p) = busy) →
  foldl (fun a task => let '(p, s) := startTask task a.2 in (a.1 ++ [p], s)) (acc, st) batch
    = (ps, st') →
  wellFormed st' ∧
  NoDup (Agent.id ∘ startedAgent <$> ps) ∧
  (∀ p, p ∈ ps → startedAgent p ∈ agents st' ∧ Agent.status (startedAgent p) = busy).
Proof.
  induction batch as [|task batch IH]; intros acc st ps st' Hwf Hnd Hbusy Hf; cbn in Hf.
  - by inversion Hf; subst.
  - pose proof (startTask_wellFormed task st Hwf) as Hwf1.
    pose proof (startTask_busy task st Hwf) as (Hin & Hst & Hold).
    destruct (startTask task st) as [p s]. cbn [fst snd] in *.
    eapply IH; [exact Hwf1| | |exact Hf].
    + rewrite fmap_app. apply NoDup_app. split; [done|]. split; [|apply NoDup_singleton].
      intros x Hx Hx'. cbn in Hx'. apply list_elem_of_singleton in Hx' as ->.
      apply list_elem_of_fmap in Hx as (q & Hq & Hqin). cbn in Hq.
      destruct (Hbusy q Hqin) as [Hqa Hqb].
      destruct (Hold _ Hqa Hqb) as [Hne _]. congruence.
    + intros q [Hq|Hq]%elem_of_app.
      * destruct (Hbusy q Hq) as [Hqa Hqb]. split; [|done]. by apply Hold.
      * apply list_elem_of_singleton in Hq as ->. done.
Qed.

(** X7: The synchronous parts of the [executeTask] calls of one batch hold
    agents of pairwise distinct ids, each registered under its id with
    status busy: no two tasks of a batch are given the same agent. *)
Theorem batch_agents_distinct batch st :
  wellFormed st →
  let r := startBatch batch st in
  NoDup (Agent.id ∘ startedAgent <$> r.1) ∧
  (∀ p, p ∈ r.1 → getAgent (Agent.id (startedAgent p)) r.2 = Some (startedAgent p) ∧
                  Agent.status (startedAgent p) = busy) ∧
  wellFormed r.2.
Proof.
  intros Hwf r. subst r. unfold startBatch.
  destruct (foldl _ _ _) as [ps st'] eqn:Hf. cbn [fst snd].
  apply startBatch_fold_distinct in Hf as (Hwf' & Hnd & Hbusy); auto.
  - split; [done|]. split; [|done]. intros p Hp. destruct (Hbusy p Hp) as [Hin Hb].
    split; [|done]. apply getAgent_elem; [apply Hwf'|done].
  - cbn. constructor.
  - intros p Hp. by apply elem_of_nil in Hp.
Qed.

Section Effects.
Variable execute : Task.t -> Agent.t -> completion payloadResult.
Variable elapsed : Task.t -> Z.






Lemma extends_refl st : wellFormed st → extends 0 st st.
Proof. intros Hwf. split; [done|]. split; [done|lia]. Qed.

Lemma extends_trans n m st1 st2 st3 :
  extends n st1 st2 → extends m st2 st3 → extends (n + m) st1 st3.
Proof.
  intros (_ & Hp & Hl) (Hwf & Hp' & Hl'). split; [done|]. split; [by etrans|lia].
Qed.

Lemma extends_mono n m st1 st2 : (n ≤ m)%nat → extends n st1 st2 → extends m st1 st2.
Proof. intros Hle (Hwf & Hp & Hl). split; [done|]. split; [done|lia]. Qed.

Lemma startTask_extends task st : wellFormed st → extends 1 st (startTask task st).2.
Proof.
  intros Hwf. split; [by apply startTask_wellFormed|].
  unfold startTask.
  set (task1 := Task.Make _ _ _ _ _ _ _). set (st1 := State _ _ _ _ _).
  assert (Hwf1 : wellFormed st1) by (by apply wellFormed_counter).
  pose proof (select_cases task1 st1) as Hcases.
  destruct (selectBestAgent task1 st1) as [best st2]. cbn [fst snd] in *.
  rewrite mutate_ids by done.
  destruct Hcases as [[-> _]|(_ & config & Heq)]; [split; [done|unfold ids; cbn; lia]|].
  assert (Hst2 : st2 = (createDynamicAgent config st1).2) by (by rewrite <- Heq).
  unfold ids. rewrite Hst2, created_agents by done. rewrite fmap_app, length_app.
  split; [by apply prefix_app_r|cbn; lia].
Qed.

Lemma settleTask_extends p st :
  wellFormed st → extends 0 st (settleTask execute elapsed p st).2.
Proof.
  intros Hwf. split; [by apply settleTask_wellFormed|].
  unfold settleTask. destruct (execute _ _); cbn [snd];
    change (ids (logged ?e ?s)) with (ids s); [|split; [done|lia]].
  rewrite mutate_ids by done. split; [done|lia].
Qed.

Lemma startBatch_fold_extends batch : ∀ acc st ps st',
  wellFormed st →
  foldl (fun a task => let '(p, s) := startTask task a.2 in (a.1 ++ [p], s)) (acc, st) batch
    = (ps, st') →
  extends (length batch) st st'.
Proof.
  induction batch as [|task batch IH]; intros acc st ps st' Hwf Hf; cbn in Hf.
  - inversion Hf; subst. by apply extends_refl.
  - pose proof (startTask_extends task st Hwf) as Hext.
    destruct (startTask task st) as [p s]. cbn [fst snd] in *.
    apply IH in Hf; [|apply Hext]. by apply (extends_trans 1 (length batch) st s st').
Qed.

Lemma settleBatch_fold_extends ps : ∀ acc st rs st',
  wellFormed st →
  foldl (fun a p => let '(r, s) := settleTask execute elapsed p a.2 in (a.1 ++ [r], s))
        (acc, st) ps = (rs, st') →
  extends 0 st st'.
Proof.
  induction ps as [|p ps IH]; intros acc st rs st' Hwf Hf; cbn in Hf.
  - inversion Hf; subst. by apply extends_refl.
  - pose proof (settleTask_extends p st Hwf) as Hext.
    destruct (settleTask execute elapsed p st) as [r s]. cbn [fst snd] in *.
    apply IH in Hf; [|apply Hext]. by apply (extends_trans 0 0 st s st').
Qed.

Lemma dispatchLoop_extends maxParallel tasks fuel : ∀ i acc d,
  wellFormed (final acc) →
  dispatchLoop execute elapsed fuel maxParallel i tasks acc = Some d →
  extends (length (drop i tasks)) (final acc) (final d).
Proof.
  induction fuel as [|fuel IH]; intros i acc d Hwf; cbn [dispatchLoop].
  - case_decide; [discriminate|]. intros [= <-].
    eapply extends_mono; [|by apply extends_refl]. lia.
  - case_decide; [|intros [= <-]; eapply extends_mono; [|by apply extends_refl]; lia].
    destruct (startBatch _ _) as [ps st1] eqn:Hstart.
    destruct (settleBatch _ _ _ _) as [rs st2] eqn:Hsettle.
    apply startBatch_fold_extends in Hstart; [|done].
    apply settleBatch_fold_extends in Hsettle; [|apply Hstart].
    intros Hrun. apply IH in Hrun; [|apply Hsettle]. cbn [final] in Hrun.
    pose proof (extends_trans _ _ _ _ _ (extends_trans _ _ _ _ _ Hstart Hsettle) Hrun) as Hall.
    eapply extends_mono; [|exact Hall].
    rewrite (DispatchFacts.slice_step tasks i maxParallel), length_app. lia.
Qed.

(** X8: A dispatch never removes or replaces a registered agent: the
    registry it leaves is well-formed, begins with the agents it had, in
    the same order, and has at most one more agent per task. *)
Theorem dispatch_keeps_registry tasks st :
  wellFormed st →
  (1 ≤ max_parallel_tasks st)%nat →
  ∃ d, executeParallelTasks execute elapsed tasks st = Some d ∧
       wellFormed (final d) ∧
       ids st `prefix_of` ids (final d) ∧
       (length (ids (final d)) ≤ length (ids st) + length tasks)%nat.
Proof.
  intros Hwf Hpos.
  destruct (DispatchFacts.dispatchLoop_spec execute elapsed (max_parallel_tasks st) tasks
              (length tasks) 0 {| results := []; batches := []; final := st |} Hpos)
    as (d & _ & _ & Hrun & _); [lia|].
  exists d. split; [done|].
  apply dispatchLoop_extends in Hrun; [|done]. by rewrite drop_0 in Hrun.
Qed.

End Effects.

(** The choice among candidates. *)
Lemma faster_fold_split first rest :
  ∃ l1 l2, first :: rest = l1 ++ foldl faster first rest :: l2 ∧
           (∀ b, b ∈ l1 → Double.leb (avgOf b) (avgOf (foldl faster first rest)) = false) ∧
           (∀ b, b ∈ l2 → Double.ltb (avgOf b) (avgOf (foldl faster first rest)) = false).
Proof.
  induction rest as [|x rest IH] using rev_ind.
  - exists [], []. cbn. repeat split; intros b Hb; by apply elem_of_nil in Hb.
  - destruct IH as (l1 & l2 & Heq & H1 & H2). rewrite foldl_app. cbn [foldl].
    set (r := foldl faster first rest) in *. unfold faster at 1 2 3. fold (avgOf r) (avgOf x).
    destruct (Double.ltb (avgOf x) (avgOf r)) eqn:Hlt.
    + exists (first :: rest), []. split; [by rewrite app_comm_cons|]. split.
      * intros b Hb. rewrite Heq in Hb.
        apply elem_of_app in Hb as [Hb|[->|Hb]%elem_of_cons].
        -- destruct (Double.leb (avgOf b) (avgOf x)) eqn:Hle; [|done].
           pose proof (DoubleFacts.leb_ltb_trans _ _ _ Hle Hlt) as Hbr.
           apply DoubleFacts.ltb_spec in Hbr.
           specialize (H1 b Hb). unfold Double.leb, SFleb in H1. by rewrite Hbr in H1.
        -- by apply DoubleFacts.ltb_not_leb.
        -- destruct (Double.leb (avgOf b) (avgOf x)) eqn:Hle; [|done].
           pose proof (DoubleFacts.leb_ltb_trans _ _ _ Hle Hlt) as Hbr.
           by rewrite (H2 b Hb) in Hbr.
      * intros b Hb. by apply elem_of_nil in Hb.
    + exists l1, (l2 ++ [x]).
      split; [by rewrite app_comm_cons, Heq, <- app_assoc|]. split; [done|].
      intros b [Hb|Hb]%elem_of_app; [by apply H2|].
      by apply list_elem_of_singleton in Hb as ->.
Qed.

(** X5: When some idle agent has every required capability, no agent is
    created and the registry is left as it is; the agent returned is the
    candidate with the least average execution time, the first of them
    in the order of registration when several have it: with [<] and [<=]
    as JavaScript has them on numbers, no candidate before it has an
    average [<=] its own, and no candidate after it an average [<] its
    own. *)
Theorem select_returns_fastest_candidate task st :
  candidates task st ≠ [] →
  let r := selectBestAgent task st in
  r.2 = st ∧
  ∃ l1 l2, candidates task st = l1 ++ r.1 :: l2 ∧
           (∀ b, b ∈ l1 → Double.leb (avgOf b) (avgOf r.1) = false) ∧
           (∀ b, b ∈ l2 → Double.ltb (avgOf b) (avgOf r.1) = false).
Proof.
  intros Hne r. subst r. unfold selectBestAgent, candidates in *.
  case_bool_decide as Hnone.
  - exfalso. apply Hne. apply length_zero_iff_nil in Hnone. by rewrite Hnone.
  - destruct (filter _ (filter _ _)) as [|first rest] eqn:Hc; [done|].
    cbn [fst snd]. split; [done|]. apply faster_fold_split.
Qed.

End RegistryFacts.

(** ** The task queue of the controller *)

Module QueueFacts.
Import Controller TaskQueue.

Section Process.
Variable execute : Task.t -> Agent.t -> completion payloadResult.
Variable elapsed : Task.t -> Z.

Lemma fulfilled_outcome_completed task v :
  outcomeOf execute elapsed task (fulfilled v) → isCompleted v = true.
Proof.
  intros [st0 Hv]. unfold executeTask in Hv.
  destruct (startTask task st0) as [p st1]. unfold settleTask, settledTask in Hv.
  destruct (execute _ _); cbn in Hv; [|discriminate]. by inversion Hv.
Qed.

Lemma values_completed tasks rs :
  Forall2 (outcomeOf execute elapsed) tasks rs →
  Forall (λ v, isCompleted v = true) (fulfilledValues rs).
Proof.
  unfold fulfilledValues. induction 1 as [|task r tasks rs Hr _ IH]; cbn; [constructor|].
  destruct r as [v|msg]; cbn; [|done]. constructor; [|done].
  by eapply fulfilled_outcome_completed.
Qed.

Lemma values_and_rejections rs :
  (length (fulfilledValues rs) + length (filter (λ r, isRejected r = true) rs)
   = length rs)%nat.
Proof.
  unfold fulfilledValues. induction rs as [|r rs IH]; [done|].
  rewrite filter_cons. destruct r; cbn [omap list_omap isRejected];
    case_decide; try done; cbn [length]; lia.
Qed.

(** X9: [processTasks] on a non-empty queue, with [max_parallel_tasks] at
    least 1: the queue is emptied, every queued task has its result, the
    two logged counts add up to the number of queued tasks, and the
    insights are computed from the successful tasks only: [totalTasks]
    is their number and [successRate] is 100 whatever the number of
    failures, or [NaN] when no task succeeded. *)
Theorem processTasks_reports_successes_only queue st :
  queue ≠ [] →
  (1 ≤ max_parallel_tasks st)%nat →
  ∃ r, processTasks execute elapsed queue st = Some (Some r) ∧
       queueAfter r = [] ∧
       Forall2 (outcomeOf execute elapsed) queue (processedResults r) ∧
       (successful r + failedCount r = length queue)%nat ∧
       totalTasks (processedInsights r) = successful r ∧
       match successRate (processedInsights r) with
       | None => successful r = 0%nat
       | Some q => (q == 100)%Q ∧ (0 < successful r)%nat
       end.
Proof.
  intros Hne Hpos.
  destruct (DispatchFacts.dispatchLoop_spec execute elapsed (max_parallel_tasks st) queue
              (length queue) 0 {| results := []; batches := []; final := st |} Hpos)
    as (d & bs & rs & Hrun & _ & Hr & _ & _ & Hall & _); [lia|].
  cbn in Hr. subst rs. rewrite drop_0 in Hall.
  unfold processTasks. destruct queue as [|t queue]; [done|].
  unfold executeParallelTasks. rewrite Hrun.
  eexists. split; [reflexivity|]. cbn [queueAfter processedResults successful failedCount
                                       processedInsights].
  split; [done|]. split; [done|]. split.
  { rewrite values_and_rejections. symmetry. by eapply Forall2_length. }
  split; [done|]. cbn [learnFromExecution successRate].
  pose proof (values_completed _ _ Hall) as Hcompleted.
  set (values := fulfilledValues (results d)) in *.
  assert (Hfilter : filter (λ t, isCompleted t = true) values = values).
  { clear -Hcompleted. induction Hcompleted as [|v vs Hv _ IH]; [done|].
    rewrite filter_cons, decide_True by done. by rewrite IH. }
  rewrite Hfilter. unfold ratio. destruct (length values) as [|n] eqn:Hlen; cbn; [done|].
  split; [|lia]. field. unfold Qeq. cbn. lia.
Qed.

End Process.

End QueueFacts.

(** ** The master orchestrator: choice, assignment, retries and metrics *)

Module MasterMoreFacts.
Import Master MasterMetrics.

Section Runtime.
Variable toLowerCase : string -> string.
Variable startFails : Agent.t -> Task.t -> bool.

Lemma select_fold_max task l :
  match foldl (selectStep toLowerCase task) (None, Double.zero) l with
  | (None, s) => s = Double.zero ∧ ∀ b, b ∈ l → Double.ltb Double.zero (score toLowerCase task b) = false
  | (Some a, s) =>
      s = score toLowerCase task a ∧ Double.ltb Double.zero s = true ∧
      ∃ l1 l2, l = l1 ++ a :: l2 ∧
               (∀ b, b ∈ l1 → Double.leb (score toLowerCase task a) (score toLowerCase task b) = false) ∧
               (∀ b, b ∈ l2 → Double.ltb (score toLowerCase task a) (score toLowerCase task b) = false)
  end.
Proof.
  induction l as [|x l IH] using rev_ind.
  - cbn. split; [done|]. intros b Hb. by apply elem_of_nil in Hb.
  - rewrite foldl_app. cbn [foldl].
    destruct (foldl (selectStep toLowerCase task) (None, Double.zero) l) as [[a|] s];
      unfold Master.selectStep; cbn [snd].
    + destruct IH as (-> & Hpos & l1 & l2 & -> & H1 & H2).
      destruct (Double.ltb (score toLowerCase task a) (score toLowerCase task x)) eqn:Hlt.
      * split; [done|].
        split; [by eapply DoubleFacts.ltb_leb_trans; [exact Hpos|apply DoubleFacts.ltb_leb]|].
        exists (l1 ++ a :: l2), []. split; [done|]. split.
        -- intros b Hb.
           destruct (Double.leb (score toLowerCase task x) (score toLowerCase task b)) eqn:Hle; [|done].
           pose proof (DoubleFacts.ltb_leb_trans _ _ _ Hlt Hle) as Hab.
           apply elem_of_app in Hb as [Hb|[->|Hb]%elem_of_cons].
           ++ apply DoubleFacts.ltb_leb in Hab. by rewrite (H1 b Hb) in Hab.
           ++ by rewrite (DoubleFacts.ltb_not_leb _ _ Hlt) in Hle.
           ++ by rewrite (H2 b Hb) in Hab.
        -- intros b Hb. by apply elem_of_nil in Hb.
      * split; [done|]. split; [done|].
        exists l1, (l2 ++ [x]). split; [by rewrite <- app_assoc|]. split; [done|].
        intros b [Hb|Hb]%elem_of_app; [by apply H2|].
        by apply list_elem_of_singleton in Hb as ->.
    + destruct IH as [-> Hall].
      destruct (Double.ltb Double.zero (score toLowerCase task x)) eqn:Hlt.
      * split; [done|]. split; [done|].
        exists l, []. split; [done|]. split.
        -- intros b Hb.
           destruct (Double.leb (score toLowerCase task x) (score toLowerCase task b)) eqn:Hle; [|done].
           pose proof (DoubleFacts.ltb_leb_trans _ _ _ Hlt Hle) as Hab.
           by rewrite (Hall b Hb) in Hab.
        -- intros b Hb. by apply elem_of_nil in Hb.
      * split; [done|].
        intros b [Hb|Hb]%elem_of_app; [by apply Hall|].
        by apply list_elem_of_singleton in Hb as ->.
Qed.

(** X11: The selector of the master orchestrator returns the agent of
    highest score, the first registered of them when several have it,
    and only when that score is above 0: with [<] and [<=] as JavaScript
    has them on numbers, no agent registered before it has a score [>=]
    its own and no agent registered after it a score [>] its own. It
    returns [null] exactly when no agent scores above 0 (so for an empty
    registry). *)
Theorem master_selects_highest_score task st :
  match selectBestAgent toLowerCase task st with
  | Some a =>
      Double.ltb Double.zero (score toLowerCase task a) = true ∧
      ∃ l1 l2, agents st = l1 ++ a :: l2 ∧
               (∀ b, b ∈ l1 → Double.leb (score toLowerCase task a) (score toLowerCase task b) = false) ∧
               (∀ b, b ∈ l2 → Double.ltb (score toLowerCase task a) (score toLowerCase task b) = false)
  | None => ∀ b, b ∈ agents st → Double.ltb Double.zero (score toLowerCase task b) = false
  end.
Proof.
  unfold Master.selectBestAgent. pose proof (select_fold_max task (agents st)) as H.
  destruct (foldl _ _ _) as [[a|] s]; cbn [fst].
  - destruct H as (-> & Hpos & Hrest). done.
  - by destruct H.
Qed.

Lemma setStatus_ids key s st : Agent.id <$> agents (setStatus key s st) = Agent.id <$> agents st.
Proof.
  cbn. rewrite <- list_fmap_compose. apply list_fmap_ext. intros i b _. cbn. by case_decide.
Qed.

Lemma setStatus_status key s st b :
  b ∈ agents (setStatus key s st) → Agent.id b = key → Agent.status b = s.
Proof.
  intros Hb Hid. cbn in Hb. apply list_elem_of_fmap in Hb as (c & -> & Hc).
  by case_decide.
Qed.

(** X12: [assignTask] returns the id of an idle agent it has selected,
    with the queue and the registered ids as they were. When the start
    of the task does not fail at once, the agent is working, and is
    assigned no other task as long as it is: in no state where it is
    working does [assignTask] return it. When the start fails at once,
    the [catch] block of [executeAgentTask] has made the agent idle
    again. *)
Theorem assigned_agent_not_assigned_again task st key st' :
  assignTask toLowerCase startFails task st = (Some key, st') →
  taskQueue st' = taskQueue st ∧
  Agent.id <$> agents st' = Agent.id <$> agents st ∧
  ∃ a, selectBestAgent toLowerCase task st = Some a ∧ Agent.id a = key ∧
       Agent.status a = idle ∧
       if startFails a task
       then ∀ b, b ∈ agents st' → Agent.id b = key → Agent.status b = idle
       else (∀ b, b ∈ agents st' → Agent.id b = key → Agent.status b = working) ∧
            ∀ st2 task2,
              (∀ b, b ∈ agents st2 → Agent.id b = key → Agent.status b = working) →
              (assignTask toLowerCase startFails task2 st2).1 ≠ Some key.
Proof.
  unfold Master.assignTask at 1.
  destruct (selectBestAgent toLowerCase task st) as [a|] eqn:Hsel; [|discriminate].
  case_decide as Hst; [discriminate|]. intros [= <- <-].
  split; [by rewrite MasterFacts.executeAgentTask_queue|].
  unfold executeAgentTask.
  split; [destruct (startFails a task); by rewrite ?setStatus_ids|].
  exists a. split; [done|]. split; [done|]. split; [done|].
  destruct (startFails a task).
  - intros b Hb Hid. by eapply setStatus_status.
  - split; [intros b Hb Hid; by eapply setStatus_status|].
    intros st2 task2 Hworking. unfold Master.assignTask.
    destruct (selectBestAgent toLowerCase task2 st2) as [b|] eqn:Hsel2; [|done].
    case_decide as Hb; [done|]. cbn [fst]. intros [= Hid].
    apply SelectorFacts.master_select_in in Hsel2.
    rewrite (Hworking b Hsel2 Hid) in Hb. discriminate Hb.
Qed.

(** X13: Retries are bounded by a budget that each re-queueing uses up: a
    failure puts the task back, at the head of the queue, exactly when
    its budget is not exhausted, with a budget one smaller and the
    failing agent added to [excludeAgents]; the budget of a task whose
    retry count is not negative is at most 3. In both cases the failure
    is counted in the metrics of the agent. *)
Theorem retry_budget_decreases a task st st' :
  handleTaskFailure a task st = Normal st' →
  (match Task.retries task with Some r => (0 ≤ r)%Z | None => True end →
   (retryBudget task ≤ 3)%nat) ∧
  (∃ m, performanceMetrics st !! Agent.id a = Some m ∧
        performanceMetrics st' !! Agent.id a
        = Some {| tasksCompleted := tasksCompleted m; tasksFailed := S (tasksFailed m);
                  avgExecutionTime := avgExecutionTime m |}) ∧
  match retryBudget task with
  | O => taskQueue st' = taskQueue st
  | S budget =>
      ∃ task', taskQueue st' = task' :: taskQueue st ∧
               retryBudget task' = budget ∧
               Task.name task' = Task.name task ∧
               Task.excludeAgents task'
               = Some (default [] (Task.excludeAgents task) ++ [Agent.id a])
  end.
Proof.
  unfold handleTaskFailure, retryBudget, retriesBelow.
  destruct (performanceMetrics st !! Agent.id a) as [m|] eqn:Hm; [|discriminate].
  intros H. split; [destruct (Task.retries task); intros; lia|].
  destruct (Task.retries task) as [r|].
  - destruct (r <? 3)%Z eqn:Hlt; [apply Z.ltb_lt in Hlt|apply Z.ltb_ge in Hlt];
      injection H as <-; cbn [performanceMetrics taskQueue].
    + split; [exists m; split; [done|by rewrite lookup_insert_eq]|].
      destruct (Z.to_nat (3 - r)) as [|budget] eqn:Hb; [lia|].
      eexists. split; [reflexivity|]. cbn. split; [lia|done].
    + split; [exists m; split; [done|by rewrite lookup_insert_eq]|].
      by replace (Z.to_nat (3 - r)) with 0%nat by lia.
  - injection H as <-. cbn [performanceMetrics taskQueue].
    split; [exists m; split; [done|by rewrite lookup_insert_eq]|done].
Qed.










End Runtime.

End MasterMoreFacts.

(** ** BaseAgent: capacity, history, capabilities, uptime *)

Module BaseAgentMoreFacts.
Import BaseAgent BaseAgentMore.

Lemma inFlight_size steps : ∀ st,
  distinctIds steps st = true →
  (inFlight steps st
   = Z.of_nat (size (activeTasks (run steps st))) - Z.of_nat (size (activeTasks st)))%Z.
Proof.
  induction steps as [|s steps IH]; intros st Hd; cbn [inFlight distinctIds run foldl] in *.
  - lia.
  - apply andb_true_iff in Hd as [Hs Hd]. fold (run steps (exec st s)).
    rewrite (IH _ Hd).
    destruct s as [key|key time|key time]; cbn [exec admitted] in *.
    + apply bool_decide_eq_true in Hs. case_decide; [lia|].
      cbn [activeTasks]. rewrite size_union by set_solver. rewrite size_singleton. lia.
    + apply bool_decide_eq_true in Hs. unfold settle. cbn [activeTasks].
      rewrite size_difference by set_solver. rewrite size_singleton.
      assert (size (activeTasks st) ≠ 0%nat) by (intros H0%size_empty_inv; set_solver).
      lia.
    + apply bool_decide_eq_true in Hs. unfold settle. cbn [activeTasks].
      rewrite size_difference by set_solver. rewrite size_singleton.
      assert (size (activeTasks st) ≠ 0%nat) by (intros H0%size_empty_inv; set_solver).
      lia.
Qed.

(** X16: [activeTasks] never has more entries than [maxConcurrentTasks],
    which is the configured number when that is positive and 5
    otherwise, and a call made when it has that many changes nothing.
    The entries are counted by id: as long as the calls in flight carry
    distinct ids their number is the number of entries, and so within
    the limit; calls that share an id share an entry and all pass the
    check, as three calls for the id [t] do under a limit of 2. *)
Theorem active_tasks_bounded (maxConcurrent : option nat) (steps : list step) :
  let st := run steps (create maxConcurrent) in
  (size (activeTasks st) ≤ maxConcurrentTasks st)%nat ∧
  maxConcurrentTasks st = match maxConcurrent with Some (S n) => S n | _ => 5 end ∧
  (1 ≤ maxConcurrentTasks st)%nat ∧
  (∀ key, size (activeTasks st) = maxConcurrentTasks st → exec st (Begin key) = st) ∧
  (distinctIds steps (create maxConcurrent) = true →
   inFlight steps (create maxConcurrent) = Z.of_nat (size (activeTasks st)) ∧
   (inFlight steps (create maxConcurrent) ≤ Z.of_nat (maxConcurrentTasks st))%Z) ∧
  inFlight [Begin "t"; Begin "t"; Begin "t"] (create (Some 2)) = 3%Z ∧
  size (activeTasks (run [Begin "t"; Begin "t"; Begin "t"] (create (Some 2)))) = 1%nat.
Proof.
  cbv zeta.
  assert (Hinv : (size (activeTasks (run steps (create maxConcurrent)))
                  ≤ maxConcurrentTasks (run steps (create maxConcurrent)))%nat ∧
                 maxConcurrentTasks (run steps (create maxConcurrent))
                 = match maxConcurrent with Some (S n) => S n | _ => 5 end).
  { induction steps as [|s steps IH] using rev_ind.
    - cbn. rewrite size_empty. split; [|done]. destruct maxConcurrent as [[|n]|]; lia.
    - rewrite BaseAgentFacts.run_snoc. destruct IH as [Hsize Hmax].
      set (st := run steps (create maxConcurrent)) in *.
      destruct s as [key|key time|key time]; cbn [exec].
      + case_decide as Hfull; [done|]. cbn [activeTasks maxConcurrentTasks]. split; [|done].
        rewrite size_union_alt, size_singleton.
        assert ((size (activeTasks st ∖ {[key]}) ≤ size (activeTasks st))%nat)
          by (apply subseteq_size; set_solver).
        lia.
      + unfold settle. cbn [activeTasks maxConcurrentTasks]. split; [|done].
        assert ((size (activeTasks st ∖ {[key]}) ≤ size (activeTasks st))%nat)
          by (apply subseteq_size; set_solver).
        lia.
      + unfold settle. cbn [activeTasks maxConcurrentTasks]. split; [|done].
        assert ((size (activeTasks st ∖ {[key]}) ≤ size (activeTasks st))%nat)
          by (apply subseteq_size; set_solver).
        lia. }
  destruct Hinv as [Hsize Hmax]. split; [done|]. split; [done|]. split.
  { rewrite Hmax. destruct maxConcurrent as [[|n]|]; lia. }
  split.
  { intros key Hfull. cbn [exec]. rewrite decide_True; [done|lia]. }
  split; [|by vm_compute].
  intros Hd. rewrite (inFlight_size _ _ Hd).
  change (activeTasks (create maxConcurrent)) with (∅ : gset string).
  rewrite size_empty. lia.
Qed.

(** X17: [taskHistory] holds one entry per attempt, in the order in which the
    attempts ended, with the id, the outcome and the time of each; a
    call turned away at the capacity check leaves no entry. *)
Theorem history_lists_attempts (maxConcurrent : option nat) (steps : list step) :
  taskHistory (run steps (create maxConcurrent)) = omap entryOf steps.
Proof.
  induction steps as [|s steps IH] using rev_ind; [done|].
  rewrite BaseAgentFacts.run_snoc, omap_app.
  destruct s as [key|key time|key time]; cbn [exec].
  - cbn. rewrite app_nil_r. by case_decide.
  - unfold settle. cbn. by rewrite IH.
  - unfold settle. cbn. by rewrite IH.
Qed.

Lemma occurrences_cons c x l :
  occurrences c (x :: l) = ((if decide (x = c) then 1 else 0) + occurrences c l)%nat.
Proof. unfold occurrences. rewrite filter_cons. by case_decide. Qed.

Lemma occurrences_app c l1 l2 :
  occurrences c (l1 ++ l2) = (occurrences c l1 + occurrences c l2)%nat.
Proof. unfold occurrences. by rewrite filter_app, length_app. Qed.

Lemma occurrences_zero c l : c ∉ l → occurrences c l = 0%nat.
Proof.
  induction l as [|x l IH]; [done|]. intros [Hne Hnot]%not_elem_of_cons.
  rewrite occurrences_cons, decide_False by done. by rewrite IH.
Qed.

(** X18: Adding and removing capabilities: an added capability is there, and
    adding it again changes nothing; adding keeps a list without
    repetition so; removing takes out one occurrence only (the first),
    so that a capability listed twice is still there after one removal;
    other capabilities are untouched, and removing a capability just
    added to a list that did not have it gives the list back. *)
Theorem capability_add_remove (c : string) (caps : list string) :
  hasCapability c (addCapability c caps) = true ∧
  addCapability c (addCapability c caps) = addCapability c caps ∧
  (NoDup caps → NoDup (addCapability c caps)) ∧
  occurrences c (removeCapability c caps) = pred (occurrences c caps) ∧
  (∀ d, d ≠ c →
     occurrences d (removeCapability c caps) = occurrences d caps ∧
     hasCapability d (addCapability c caps) = hasCapability d caps) ∧
  (hasCapability c caps = false → removeCapability c (addCapability c caps) = caps).
Proof.
  assert (Hhas : hasCapability c (addCapability c caps) = true).
  { unfold addCapability. destruct (hasCapability c caps) eqn:Hc; [done|].
    unfold hasCapability. apply bool_decide_eq_true. set_solver. }
  split; [done|]. split.
  { unfold addCapability at 1. by rewrite Hhas. }
  split.
  { intros Hnd. unfold addCapability. destruct (hasCapability c caps) eqn:Hc; [done|].
    unfold hasCapability in Hc. apply bool_decide_eq_false in Hc.
    apply NoDup_app. split; [done|]. split; [|apply NoDup_singleton].
    intros x Hx Hx'. apply list_elem_of_singleton in Hx' as ->. done. }
  split.
  { induction caps as [|x caps IH]; [done|]. cbn [removeCapability].
    rewrite occurrences_cons. case_decide; [done|].
    rewrite occurrences_cons, decide_False by done. cbn. apply IH.
    unfold addCapability. destruct (hasCapability c caps) eqn:Hc; [done|].
    unfold hasCapability. apply bool_decide_eq_true. set_solver. }
  split.
  { intros d Hd. split.
    - clear Hhas. induction caps as [|x caps IH]; [done|]. cbn [removeCapability].
      rewrite occurrences_cons. case_decide as Hx.
      + subst x. by rewrite decide_False.
      + rewrite occurrences_cons. by rewrite IH.
    - unfold addCapability. destruct (hasCapability c caps); [done|].
      unfold hasCapability. apply bool_decide_ext.
      rewrite elem_of_app, list_elem_of_singleton. naive_solver. }
  intros Hc. unfold addCapability. rewrite Hc.
  unfold hasCapability in Hc. apply bool_decide_eq_false in Hc. clear Hhas.
  induction caps as [|x caps IH]; cbn [removeCapability app].
  - by rewrite decide_True.
  - apply not_elem_of_cons in Hc as [Hne Hc]. rewrite decide_False by done.
    by rewrite IH.
Qed.

(** X19: The three numbers [getUptime] prints for a non-negative uptime: the
    minutes and the seconds are below 60, and together with the hours
    they give the uptime back up to the milliseconds below a second. *)
Theorem uptime_parts_recompose (uptimeMs : Z) :
  (0 ≤ uptimeMs)%Z →
  let '(hours, minutes, seconds) := uptimeParts uptimeMs in
  (0 ≤ hours)%Z ∧ (0 ≤ minutes < 60)%Z ∧ (0 ≤ seconds < 60)%Z ∧
  (0 ≤ uptimeMs - (hours * 3600000 + minutes * 60000 + seconds * 1000) < 1000)%Z.
Proof.
  intros Hpos. unfold uptimeParts. rewrite !Z.rem_mod_nonneg by lia.
  Z.div_mod_to_equations. lia.
Qed.

(** X19 on a scenario. *)
Lemma uptime_parts_recompose_witness :
  let '(hours, minutes, seconds) := uptimeParts 3723004 in
  (0 ≤ hours)%Z ∧ (0 ≤ minutes < 60)%Z ∧ (0 ≤ seconds < 60)%Z ∧
  (0 ≤ 3723004 - (hours * 3600000 + minutes * 60000 + seconds * 1000) < 1000)%Z.
Proof. apply (uptime_parts_recompose 3723004). lia. Defined.

Example uptime_demo : getUptime 3723004 = "1h 2m 3s".
Proof. by vm_compute. Qed.

End BaseAgentMoreFacts.

(** ** Queues: tasks made by [createTask], and the queue of the master *)

Module QueueMoreFacts.

(** X10: A task made by [createTask] always carries a list of required
    capabilities, the empty one when none is given: it goes to the end
    of the queue; when the list is empty every agent is compatible with
    it, so that an agent is spawned for it only when no agent is idle;
    and an agent spawned for it gets exactly that list, never the
    ["general"] fallback. *)
Theorem created_task_never_falls_back name caps queue :
  let r := TaskQueue.createTask name caps queue in
  r.2 = queue ++ [r.1] ∧
  Controller.Task.requiredCapabilities r.1 = Some (default [] caps) ∧
  (default [] caps = [] →
   ∀ st, Registry.candidates r.1 st
         = filter (λ a, Controller.isIdle a = true) (Controller.agents st)) ∧
  ∀ st, Registry.candidates r.1 st = [] →
        Controller.Agent.capabilities (Controller.selectBestAgent r.1 st).1 = default [] caps.
Proof.
  cbv zeta. cbn [fst snd TaskQueue.createTask].
  set (task := Controller.Task.Make _ _ _ _ _ _ _).
  split; [done|]. split; [done|]. split.
  - intros Hempty st. unfold Registry.candidates.
    induction (filter _ (Controller.agents st)) as [|a l IH]; [done|].
    rewrite filter_cons, decide_True; [by rewrite IH|].
    unfold Controller.compatible. cbn. by rewrite Hempty.
  - intros st Hnone.
    unfold Registry.candidates in Hnone. unfold Controller.selectBestAgent.
    case_bool_decide; [done|]. by rewrite Hnone.
Qed.

Import Master.

Section Runtime.
Variable toLowerCase : string -> string.
Variable startFails : Agent.t -> Task.t -> bool.

Lemma assignTask_queue task st :
  let r := assignTask toLowerCase startFails task st in
  Agent.id <$> agents r.2 = Agent.id <$> agents st ∧
  match r.1 with
  | Some _ => taskQueue r.2 = taskQueue st
  | None => taskQueue r.2 = taskQueue st ∨ taskQueue r.2 = taskQueue st ++ [task]
  end.
Proof.
  cbv zeta. unfold assignTask.
  destruct (selectBestAgent toLowerCase task st) as [a|]; [|by split; [|left]].
  case_decide; cbn [fst snd]; [by split; [|right]|].
  split; [|by rewrite MasterFacts.executeAgentTask_queue].
  unfold executeAgentTask.
  destruct (startFails a task); by rewrite ?MasterMoreFacts.setStatus_ids.
Qed.

Lemma processLoop_conserves n : ∀ st acc,
  let r := processLoop toLowerCase startFails n st acc in
  ∃ new, r.1 = acc ++ new ∧
         (length new ≤ n)%nat ∧
         (length (taskQueue r.2) + length (filter is_Some new) ≤ length (taskQueue st))%nat ∧
         Agent.id <$> agents r.2 = Agent.id <$> agents st.
Proof.
  cbv zeta. induction n as [|n IH]; intros st acc; cbn [processLoop].
  - exists []. rewrite app_nil_r. cbn. repeat split; lia.
  - destruct (taskQueue st) as [|task queue] eqn:Hq.
    + exists []. rewrite app_nil_r. cbn. rewrite ?Hq. cbn. repeat split; lia.
    + set (st0 := State (agents st) queue (performanceMetrics st)).
      pose proof (assignTask_queue task st0) as [Hids Hqueue].
      destruct (assignTask toLowerCase startFails task st0) as [r st1]. cbn [fst snd] in *.
      destruct (IH st1 (acc ++ [r])) as (new & Heq & Hlen & Hcount & Hids').
      exists (r :: new). rewrite Heq, <- app_assoc. split; [done|].
      split; [cbn; lia|]. split; [|by rewrite Hids', Hids].
      rewrite filter_cons. cbn [length].
      destruct r as [key|].
      * rewrite decide_True by done. rewrite Hqueue in Hcount. cbn in *. lia.
      * rewrite decide_False by (by intros [? ?]).
        destruct Hqueue as [Hqueue|Hqueue]; rewrite Hqueue in Hcount; cbn in *;
          [lia|rewrite length_app in Hcount; cbn in Hcount; lia].
Qed.

(** X15: [processTaskQueue] makes at most one pass per agent that was
    idle when it began and invents no task: the tasks still queued and
    the passes that ended in an assignment are together no more than the
    tasks that were queued; it leaves the registry with the same agents
    and does nothing on an empty queue. This holds whether or not the
    start of an assigned task goes through. *)
Theorem processTaskQueue_conserves st :
  let r := processTaskQueue toLowerCase startFails st in
  (length r.1 ≤ length (filter (λ a, Agent.status a = idle) (agents st)))%nat ∧
  (length (taskQueue r.2) + length (filter is_Some r.1) ≤ length (taskQueue st))%nat ∧
  Agent.id <$> agents r.2 = Agent.id <$> agents st ∧
  (taskQueue st = [] → r = ([], st)).
Proof.
  cbv zeta. unfold processTaskQueue.
  destruct (processLoop_conserves
              (length (filter (λ a, Agent.status a = idle) (agents st))) st [])
    as (new & Heq & Hlen & Hcount & Hids).
  cbn in Heq. rewrite Heq. split; [done|]. split; [done|]. split; [done|].
  intros Hq. destruct (length _); cbn [processLoop]; [done|]. by rewrite Hq.
Qed.

End Runtime.

End QueueMoreFacts.

(** ** The further properties on the scenarios *)

Module MoreWitnesses.
Import Scenarios MoreScenarios.

Lemma pairController_wellFormed : Registry.wellFormed pairController.
Proof.
  split; [constructor|]. intros a Ha. by apply elem_of_nil in Ha.
Qed.

Lemma builderController_wellFormed : Registry.wellFormed builderController.
Proof.
  split; [apply NoDup_singleton|].
  intros a Ha. apply list_elem_of_singleton in Ha as ->.
  exists 1%nat. split; [cbn; lia|reflexivity].
Qed.

(** X4 on a scenario. *)
Lemma created_agent_is_new_witness :
  let r := Controller.createDynamicAgent specialistConfig builderController in
  Controller.Agent.id r.1 ∉ Registry.ids builderController ∧
  Controller.agents r.2 = Controller.agents builderController ++ [r.1] ∧
  Registry.getAgent (Controller.Agent.id r.1) r.2 = Some r.1 ∧
  (∀ a, a ∈ Controller.agents builderController →
        Registry.getAgent (Controller.Agent.id a) r.2 = Some a) ∧
  Registry.wellFormed r.2.
Proof.
  apply (RegistryFacts.created_agent_is_new specialistConfig builderController).
  apply builderController_wellFormed.
Defined.

(** X7 on a scenario. *)
Lemma batch_agents_distinct_witness :
  let r := Controller.startBatch demoTasks pairController in
  NoDup (Controller.Agent.id ∘ Controller.startedAgent <$> r.1) ∧
  (∀ p, p ∈ r.1 →
        Registry.getAgent (Controller.Agent.id (Controller.startedAgent p)) r.2
        = Some (Controller.startedAgent p) ∧
        Controller.Agent.status (Controller.startedAgent p) = Controller.busy) ∧
  Registry.wellFormed r.2.
Proof.
  apply (RegistryFacts.batch_agents_distinct demoTasks pairController).
  apply pairController_wellFormed.
Defined.


(** The agent of the failed task through three later moves: two tasks
    start, the first of them settles; it is busy all along, and the two
    tasks get agents of their own. *)
Example leaked_agent_demo :
  let r := Controller.executeTask flaky fixedClock
             (newTask "Format Code" (Some ["formatting"])) pairController in
  let s := Registry.after flaky fixedClock
             [Registry.Starts (newTask "Format Code" (Some ["formatting"]));
              Registry.Starts (newTask "Lint Code" (Some ["formatting"]));
              Registry.Settles 1] r.2 in
  (λ a, (Controller.Agent.id a, Controller.Agent.status a)) <$> Controller.agents s.1
  = [("agent_1", Controller.busy); ("agent_2", Controller.busy); ("agent_3", Controller.idle)] ∧
  Controller.Agent.id ∘ Controller.startedAgent <$> s.2 = ["agent_2"].
Proof. by vm_compute. Qed.

(** X8 on a scenario. *)
Lemma dispatch_keeps_registry_witness :
  ∃ d, Controller.executeParallelTasks flaky fixedClock demoTasks pairController = Some d ∧
       Registry.wellFormed (Controller.final d) ∧
       Registry.ids pairController `prefix_of` Registry.ids (Controller.final d) ∧
       (length (Registry.ids (Controller.final d))
        ≤ length (Registry.ids pairController) + length demoTasks)%nat.
Proof.
  apply (RegistryFacts.dispatch_keeps_registry flaky fixedClock demoTasks pairController).
  - apply pairController_wellFormed.
  - cbn. lia.
Defined.

(** X5 on a scenario: three candidates, of averages 700, 500 and 500;
    the second is returned. *)
Lemma select_returns_fastest_candidate_witness :
  let r := Controller.selectBestAgent buildTask workshop in
  length (Registry.candidates buildTask workshop) = 3%nat ∧
  Controller.Agent.id r.1 = "agent_2" ∧
  r.2 = workshop ∧
  ∃ l1 l2, Registry.candidates buildTask workshop = l1 ++ r.1 :: l2 ∧
           (∀ b, b ∈ l1 → Double.leb (Registry.avgOf b) (Registry.avgOf r.1) = false) ∧
           (∀ b, b ∈ l2 → Double.ltb (Registry.avgOf b) (Registry.avgOf r.1) = false).
Proof.
  split; [by vm_compute|]. split; [by vm_compute|].
  apply (RegistryFacts.select_returns_fastest_candidate buildTask workshop).
  vm_compute. discriminate.
Defined.

(** X9 on a scenario. *)
Lemma processTasks_reports_successes_only_witness :
  ∃ r, TaskQueue.processTasks flaky fixedClock demoTasks pairController = Some (Some r) ∧
       TaskQueue.queueAfter r = [] ∧
       Forall2 (Controller.outcomeOf flaky fixedClock) demoTasks (TaskQueue.processedResults r) ∧
       (TaskQueue.successful r + TaskQueue.failedCount r = length demoTasks)%nat ∧
       TaskQueue.totalTasks (TaskQueue.processedInsights r) = TaskQueue.successful r ∧
       match TaskQueue.successRate (TaskQueue.processedInsights r) with
       | None => TaskQueue.successful r = 0%nat
       | Some q => (q == 100)%Q ∧ (0 < TaskQueue.successful r)%nat
       end.
Proof.
  apply (QueueFacts.processTasks_reports_successes_only flaky fixedClock demoTasks pairController).
  - discriminate.
  - cbn. lia.
Defined.

(** Two of the three tasks succeed and one fails: the insights report
    two tasks and a success rate of 100. *)
Example processTasks_demo :
  (λ r, (TaskQueue.successful r, TaskQueue.failedCount r,
         TaskQueue.totalTasks (TaskQueue.processedInsights r),
         Qred <$> TaskQueue.successRate (TaskQueue.processedInsights r))) <$>
    (mjoin (TaskQueue.processTasks flaky fixedClock demoTasks pairController))
  = Some (2%nat, 1%nat, 2%nat, Some 100%Q).
Proof. by vm_compute. Qed.

(** X12 on a scenario: the start goes through. *)
Lemma assigned_agent_not_assigned_again_witness :
  let st' := Master.setStatus "a1" Master.working idleTrio in
  Master.taskQueue st' = Master.taskQueue idleTrio ∧
  Master.Agent.id <$> Master.agents st' = Master.Agent.id <$> Master.agents idleTrio ∧
  ∃ a, Master.selectBestAgent lowerCase countedTask idleTrio = Some a ∧
       Master.Agent.id a = "a1" ∧ Master.Agent.status a = Master.idle ∧
       if startsFine a countedTask
       then ∀ b, b ∈ Master.agents st' → Master.Agent.id b = "a1" →
                 Master.Agent.status b = Master.idle
       else (∀ b, b ∈ Master.agents st' → Master.Agent.id b = "a1" →
                  Master.Agent.status b = Master.working) ∧
            ∀ st2 task2,
              (∀ b, b ∈ Master.agents st2 → Master.Agent.id b = "a1" →
                    Master.Agent.status b = Master.working) →
              (Master.assignTask lowerCase startsFine task2 st2).1 ≠ Some "a1".
Proof.
  apply (MasterMoreFacts.assigned_agent_not_assigned_again lowerCase startsFine
           countedTask idleTrio "a1").
  vm_compute. reflexivity.
Defined.

(** Three tasks assigned in a row to three idle agents, of which a1
    scores highest whether idle or at work. When every start goes
    through, the first task goes to a1 and the two others are queued;
    when every start fails, each call returns a1, which its [catch]
    block has made idle again, and no agent is at work in the end. *)
Example assign_demo :
  let assign3 startFails :=
    let r1 := Master.assignTask lowerCase startFails countedTask idleTrio in
    let r2 := Master.assignTask lowerCase startFails countedTask r1.2 in
    let r3 := Master.assignTask lowerCase startFails countedTask r2.2 in
    ([r1.1; r2.1; r3.1], Master.Agent.status <$> Master.agents r3.2) in
  assign3 startsFine
  = ([Some "a1"; None; None], [Master.working; Master.idle; Master.idle]) ∧
  assign3 startsBadly
  = ([Some "a1"; Some "a1"; Some "a1"], [Master.idle; Master.idle; Master.idle]).
Proof. by vm_compute. Qed.

(** X13 on a scenario. *)
Lemma retry_budget_decreases_witness :
  ∃ st', Master.handleTaskFailure (masterAgent "a1" 9 Master.working) countedTask trio
         = Normal st' ∧
    (match Master.Task.retries countedTask with Some r => (0 ≤ r)%Z | None => True end →
     (MasterMetrics.retryBudget countedTask ≤ 3)%nat) ∧
    (∃ m, Master.performanceMetrics trio !! "a1" = Some m ∧
          Master.performanceMetrics st' !! "a1"
          = Some {| Master.tasksCompleted := Master.tasksCompleted m;
                    Master.tasksFailed := S (Master.tasksFailed m);
                    Master.avgExecutionTime := Master.avgExecutionTime m |}) ∧
    match MasterMetrics.retryBudget countedTask with
    | O => Master.taskQueue st' = Master.taskQueue trio
    | S budget =>
        ∃ task', Master.taskQueue st' = task' :: Master.taskQueue trio ∧
                 MasterMetrics.retryBudget task' = budget ∧
                 Master.Task.name task' = Master.Task.name countedTask ∧
                 Master.Task.excludeAgents task'
                 = Some (default [] (Master.Task.excludeAgents countedTask) ++ ["a1"])
    end.
Proof.
  eexists. split; [vm_compute; reflexivity|].
  apply (MasterMoreFacts.retry_budget_decreases
           (masterAgent "a1" 9 Master.working) countedTask trio).
  vm_compute. reflexivity.
Defined.


(** The metrics of a1 after the events of the scenario: three exits with
    code 0, of 100, 200 and 100 ms, an error and a failed exit. The mean
    is the binary64 number the update leaves, 4691249611844267 * 2^-45,
    next to 400/3. *)
Example metrics_demo :
  Master.performanceMetrics (MasterMetrics.replay lowerCase startsFine exits trio) !! "a1"
  = Some {| Master.tasksCompleted := 3; Master.tasksFailed := 2;
            Master.avgExecutionTime := S754_finite false 4691249611844267 (-45) |}.
Proof. by vm_compute. Qed.

End MoreWitnesses.
